(** * S32K_MediaPlayer: the concurrent data-exchange core

    A shallow embedding of [src/utils/Buffer.cpp] (both versions found in the
    repository: the one keeping an occupied-byte count and the one keeping a
    full flag) and of [src/utils/ThreadSafeQueue.h], with the properties of
    section 8 of the specification.

    Beside them: the tests that exercise the buffer and the queue from two
    threads ([test/testBuffer.cpp], [test/test_ThreadSafeQueue.cpp]) and
    [src/utils/Logger.cpp], with further properties read off the code.

    Part I is the program, Part II the vocabulary of the statements,
    Part III the lemmas and theorems. *)

From Stdlib Require Import ZArith Lia Bool.
From Stdlib Require Import Init.Byte.
From Stdlib Require Strings.Byte Strings.String.
From stdpp Require Import base tactics option list list_numbers.

Local Open Scope Z_scope.

(** * Part I: the program *)

(** ** [size_t] and [uint8_t]

    [size_t] is the 64-bit unsigned type of the build (g++, LP64): a value is
    a [Z] in [[0, 2^64)], and every addition and subtraction of the source is
    written with its reduction modulo [2^64]. *)

Definition SIZE_WIDTH : Z := 64.

Definition size_modulus : Z := 2 ^ SIZE_WIDTH.

(** The value a [size_t] expression has after wrap-around. *)
Definition sz (z : Z) : Z := z mod size_modulus.

(** [std::vector<uint8_t>::max_size()] of libstdc++ on LP64: [PTRDIFF_MAX].
    The constructor of [std::vector] throws [std::length_error] above it, so
    no buffer with a larger capacity exists. *)
Definition vector_max_size : Z := 2 ^ 63 - 1.

#[global] Instance byte_inhabited : Inhabited byte := populate x00.

(** [v[i]] of a [std::vector<uint8_t>] or of a raw [uint8_t*]; the index is
    always in range in the executions considered below. *)
Definition at_ (v : list byte) (i : Z) : byte := v !!! Z.to_nat i.

(** [v[i] = x]. *)
Definition store (v : list byte) (i : Z) (x : byte) : list byte :=
  <[Z.to_nat i := x]> v.

(** [std::memcpy(&dst[off], src, n)]: the [n] bytes of [dst] from [off] on
    are replaced by the first [n] bytes of [src]. *)
Definition memcpy_to (dst : list byte) (off : Z) (src : list byte) (n : Z)
  : list byte :=
  take (Z.to_nat off) dst ++ take (Z.to_nat n) src
    ++ drop (Z.to_nat (off + n)) dst.

(** [std::memcpy(dest, &src[off], n)]: the [n] bytes delivered to [dest]. *)
Definition memcpy_from (src : list byte) (off : Z) (n : Z) : list byte :=
  take (Z.to_nat n) (drop (Z.to_nat off) src).

(** ** Buffer.cpp, full-flag version ([mHead], [mTail], [mIsFull])

    In both versions the remainder by the capacity is evaluated only after
    the test [toWrite == 0] or [toRead == 0] has failed, that is with a
    capacity that is not 0. *)

Module BufferFlag.

Record Buffer : Type := mkBuffer {
  mBuffer : list byte;   (* std::vector<uint8_t> mBuffer *)
  mHead : Z;             (* write index *)
  mTail : Z;             (* read index *)
  mIsFull : bool;
  mCapacity : Z
}.

(** [Buffer::Buffer(size_t capacityBytes)]: a zero-filled vector of
    [capacityBytes] bytes, both indices 0, not full. *)
Definition new (capacityBytes : Z) : Buffer :=
  {| mBuffer := replicate (Z.to_nat capacityBytes) x00;
     mHead := 0; mTail := 0; mIsFull := false;
     mCapacity := capacityBytes |}.

Definition getAvailableInternal (b : Buffer) : Z :=
  if mIsFull b then mCapacity b
  else if mTail b <=? mHead b then sz (mHead b - mTail b)
  else sz (sz (mCapacity b - mTail b) + mHead b).

Definition isFullInternal (b : Buffer) : bool := mIsFull b.

Definition isEmptyInternal (b : Buffer) : bool :=
  negb (mIsFull b) && (mHead b =? mTail b).

Definition available (b : Buffer) : Z := getAvailableInternal b.

Definition capacity (b : Buffer) : Z := mCapacity b.

(** The loop of [write]:
    [for (i = 0; i < toWrite; ++i) { mBuffer[mHead] = data[i];
                                     mHead = (mHead + 1) % mCapacity; }]
    with [n] iterations left and the loop counter at [i]. *)
Fixpoint write_loop (n : nat) (i : nat) (data : list byte)
    (buf : list byte) (head cap : Z) : list byte * Z :=
  match n with
  | O => (buf, head)
  | S n' =>
      write_loop n' (S i) data
        (store buf head (data !!! i)) (sz (head + 1) mod cap) cap
  end.

(** [Buffer::write(data, len)]: the buffer after the call and the count
    returned. *)
Definition write (b : Buffer) (data : list byte) (len : Z) : Buffer * Z :=
  let freeSpace := sz (mCapacity b - getAvailableInternal b) in
  let toWrite := Z.min len freeSpace in
  if toWrite =? 0 then (b, 0)
  else
    let '(buf, head) :=
      write_loop (Z.to_nat toWrite) 0 data (mBuffer b) (mHead b)
        (mCapacity b) in
    let full :=
      if (head =? mTail b) && (0 <? toWrite) then true else mIsFull b in
    ({| mBuffer := buf; mHead := head; mTail := mTail b;
        mIsFull := full; mCapacity := mCapacity b |}, toWrite).

(** The loop of [read]:
    [for (i = 0; i < toRead; ++i) { dest[i] = mBuffer[mTail];
                                    mTail = (mTail + 1) % mCapacity; }];
    the result is [dest[0 .. n)] and the final [mTail]. *)
Fixpoint read_loop (n : nat) (buf : list byte) (tail cap : Z)
  : list byte * Z :=
  match n with
  | O => ([], tail)
  | S n' =>
      let '(dest, tail') := read_loop n' buf (sz (tail + 1) mod cap) cap in
      (at_ buf tail :: dest, tail')
  end.

(** [Buffer::read(dest, len)]: the buffer after the call, the bytes stored
    to [dest[0 .. bytesRead)] (the rest of [dest] is not touched) and the
    count returned. *)
Definition read (b : Buffer) (len : Z) : Buffer * list byte * Z :=
  let avail := getAvailableInternal b in
  let toRead := Z.min len avail in
  if toRead =? 0 then (b, [], 0)
  else
    let '(dest, tail) :=
      read_loop (Z.to_nat toRead) (mBuffer b) (mTail b) (mCapacity b) in
    ({| mBuffer := mBuffer b; mHead := mHead b; mTail := tail;
        mIsFull := false; mCapacity := mCapacity b |}, dest, toRead).

(** [Buffer::clear()]. The storage is left as it is. *)
Definition clear (b : Buffer) : Buffer :=
  {| mBuffer := mBuffer b; mHead := 0; mTail := 0; mIsFull := false;
     mCapacity := mCapacity b |}.

End BufferFlag.

(** ** Buffer.cpp, occupied-count version ([m_readPos], [m_writePos],
    [m_dataAvailable]) *)

Module BufferCount.

Record Buffer : Type := mkBuffer {
  m_buffer : list byte;
  m_readPos : Z;
  m_writePos : Z;
  m_dataAvailable : Z;
  m_capacity : Z
}.

(** [Buffer::Buffer(size_t size)]. *)
Definition new (size : Z) : Buffer :=
  {| m_buffer := replicate (Z.to_nat size) x00;
     m_readPos := 0; m_writePos := 0; m_dataAvailable := 0;
     m_capacity := size |}.

(** [Buffer::write(data, len)], two block copies. *)
Definition write (b : Buffer) (data : list byte) (len : Z) : Buffer * Z :=
  let freeSpace := sz (m_capacity b - m_dataAvailable b) in
  let toWrite := Z.min len freeSpace in
  if toWrite =? 0 then (b, 0)
  else
    let spaceAtEnd := sz (m_capacity b - m_writePos b) in
    let chunk1 := Z.min toWrite spaceAtEnd in
    let buf1 := memcpy_to (m_buffer b) (m_writePos b) data chunk1 in
    let buf2 :=
      if chunk1 <? toWrite then
        let chunk2 := sz (toWrite - chunk1) in
        memcpy_to buf1 0 (drop (Z.to_nat chunk1) data) chunk2
      else buf1 in
    ({| m_buffer := buf2;
        m_readPos := m_readPos b;
        m_writePos := sz (m_writePos b + toWrite) mod m_capacity b;
        m_dataAvailable := sz (m_dataAvailable b + toWrite);
        m_capacity := m_capacity b |}, toWrite).

(** [Buffer::read(dest, len)], two block copies; the second component is
    [dest[0 .. bytesRead)]. *)
Definition read (b : Buffer) (len : Z) : Buffer * list byte * Z :=
  let toRead := Z.min len (m_dataAvailable b) in
  if toRead =? 0 then (b, [], 0)
  else
    let dataAtEnd := sz (m_capacity b - m_readPos b) in
    let chunk1 := Z.min toRead dataAtEnd in
    let dest1 := memcpy_from (m_buffer b) (m_readPos b) chunk1 in
    let dest2 :=
      if chunk1 <? toRead then
        let chunk2 := sz (toRead - chunk1) in
        memcpy_from (m_buffer b) 0 chunk2
      else [] in
    ({| m_buffer := m_buffer b;
        m_readPos := sz (m_readPos b + toRead) mod m_capacity b;
        m_writePos := m_writePos b;
        m_dataAvailable := sz (m_dataAvailable b - toRead);
        m_capacity := m_capacity b |}, dest1 ++ dest2, toRead).

Definition getAvailable (b : Buffer) : Z := m_dataAvailable b.

Definition getFreeSpace (b : Buffer) : Z :=
  sz (m_capacity b - m_dataAvailable b).

Definition clear (b : Buffer) : Buffer :=
  {| m_buffer := m_buffer b; m_readPos := 0; m_writePos := 0;
     m_dataAvailable := 0; m_capacity := m_capacity b |}.

End BufferCount.

(** ** ThreadSafeQueue.h *)

Module ThreadSafeQueue.
Section Queue.
Context {T : Type}.

(** [std::queue<T> mQueue]: the front is the head of the list. What each
    member function does between taking and releasing [mMutex]: *)

(** [ThreadSafeQueue() = default]. *)
Definition new : list T := [].

(** [push(value)]: [mQueue.push(value)]. *)
Definition push (mQueue : list T) (value : T) : list T := mQueue ++ [value].

(** [tryPop(value)]: the queue after the call, the content of the reference
    argument [value] after the call, and the [bool] returned. *)
Definition tryPop (mQueue : list T) (value : T) : list T * T * bool :=
  match mQueue with
  | [] => (mQueue, value, false)
  | front :: rest => (rest, front, true)
  end.

(** [empty()]. *)
Definition empty (mQueue : list T) : bool :=
  match mQueue with [] => true | _ :: _ => false end.

(** What a call of [waitAndPop] comes to when no other thread runs: it
    returns at once when the predicate of [mCondVar.wait] holds, and stays
    suspended otherwise. *)
Inductive outcome : Type :=
| Returned (mQueue : list T) (value : T)
| Suspended.

Definition waitAndPop (mQueue : list T) (value : T) : outcome :=
  match mQueue with
  | [] => Suspended
  | front :: rest => Returned rest front
  end.

(** A call; for the two pops, [value] is what the caller's variable holds
    before the call. *)
Inductive call : Type :=
| CallPush (value : T)
| CallTryPop (value : T)
| CallWaitAndPop (value : T).

(** The queue, the values handed to [push] so far and the values the pops
    delivered so far, both in call order. *)
Record history : Type := mkHistory {
  h_queue : list T;
  h_pushed : list T;
  h_popped : list T
}.

(** Run the calls in order from the state [h]; a [waitAndPop] on an empty
    queue never returns, so the calls after it do not happen. *)
Fixpoint run_calls (h : history) (cs : list call) : history :=
  match cs with
  | [] => h
  | CallPush v :: cs' =>
      run_calls {| h_queue := push (h_queue h) v;
                   h_pushed := h_pushed h ++ [v];
                   h_popped := h_popped h |} cs'
  | CallTryPop value :: cs' =>
      let '(q, value', found) := tryPop (h_queue h) value in
      run_calls {| h_queue := q; h_pushed := h_pushed h;
                   h_popped := if found then h_popped h ++ [value']
                               else h_popped h |} cs'
  | CallWaitAndPop value :: cs' =>
      match waitAndPop (h_queue h) value with
      | Returned q value' =>
          run_calls {| h_queue := q; h_pushed := h_pushed h;
                       h_popped := h_popped h ++ [value'] |} cs'
      | Suspended => h
      end
  end.

(** *** Several threads

    Where a thread stands inside its current call. *)
Inductive pc : Type :=
| Start              (* before the constructor of the lock *)
| Held               (* mMutex taken; nothing of the body done yet *)
| Asleep             (* inside mCondVar.wait, mMutex released *)
| NonEmpty           (* mQueue.empty() was false *)
| Fetched (value : T) (* value = std::move(mQueue.front()) done *)
| Finishing.         (* body done; the lock is released next *)

Record thread : Type := mkThread {
  calls : list call;     (* the calls whose effect is still to come *)
  at_pc : pc;
  received : list T;     (* what its pops delivered, in order *)
  notFound : nat         (* how many times tryPop returned false *)
}.

Record system : Type := mkSystem {
  mQueue : list T;
  mMutex : option nat;   (* the thread that holds the mutex *)
  threads : list thread
}.

(** What a step does to the queue, with the thread that does it. *)
Inductive event : Type :=
| EvPush (t : nat) (value : T)
| EvPop (t : nat) (value : T)
| EvSilent.

Definition set_thread (s : system) (t : nat) (th : thread) : list thread :=
  <[t := th]> (threads s).

(** The next step of thread [t], if it can take one. *)
Definition step_thread (t : nat) (s : system) : option (system * event) :=
  match threads s !! t with
  | None => None
  | Some th =>
      match at_pc th, calls th with
      | Start, _ :: _ =>
          (* std::lock_guard / std::unique_lock constructor *)
          match mMutex s with
          | None =>
              Some ({| mQueue := mQueue s; mMutex := Some t;
                       threads := set_thread s t
                         {| calls := calls th; at_pc := Held;
                            received := received th;
                            notFound := notFound th |} |}, EvSilent)
          | Some _ => None
          end
      | Start, [] => None
      | Held, CallPush v :: rest =>
          (* mQueue.push(value); mCondVar.notify_one() *)
          Some ({| mQueue := push (mQueue s) v; mMutex := mMutex s;
                   threads := set_thread s t
                     {| calls := rest; at_pc := Finishing;
                        received := received th;
                        notFound := notFound th |} |}, EvPush t v)
      | Held, CallTryPop _ :: rest =>
          (* if (mQueue.empty()) return false; *)
          if empty (mQueue s) then
            Some ({| mQueue := mQueue s; mMutex := mMutex s;
                     threads := set_thread s t
                       {| calls := rest; at_pc := Finishing;
                          received := received th;
                          notFound := S (notFound th) |} |}, EvSilent)
          else
            Some ({| mQueue := mQueue s; mMutex := mMutex s;
                     threads := set_thread s t
                       {| calls := calls th; at_pc := NonEmpty;
                          received := received th;
                          notFound := notFound th |} |}, EvSilent)
      | Held, CallWaitAndPop _ :: rest =>
          (* mCondVar.wait(lock, [this] { return !mQueue.empty(); }) *)
          if empty (mQueue s) then
            Some ({| mQueue := mQueue s; mMutex := None;
                     threads := set_thread s t
                       {| calls := calls th; at_pc := Asleep;
                          received := received th;
                          notFound := notFound th |} |}, EvSilent)
          else
            Some ({| mQueue := mQueue s; mMutex := mMutex s;
                     threads := set_thread s t
                       {| calls := calls th; at_pc := NonEmpty;
                          received := received th;
                          notFound := notFound th |} |}, EvSilent)
      | Held, [] => None
      | Asleep, _ =>
          (* woken up, by notify_one or spuriously: takes the mutex again
             and evaluates the predicate again *)
          match mMutex s with
          | None =>
              Some ({| mQueue := mQueue s; mMutex := Some t;
                       threads := set_thread s t
                         {| calls := calls th; at_pc := Held;
                            received := received th;
                            notFound := notFound th |} |}, EvSilent)
          | Some _ => None
          end
      | NonEmpty, _ =>
          (* value = std::move(mQueue.front()) *)
          match mQueue s with
          | front :: _ =>
              Some ({| mQueue := mQueue s; mMutex := mMutex s;
                       threads := set_thread s t
                         {| calls := calls th; at_pc := Fetched front;
                            received := received th;
                            notFound := notFound th |} |}, EvSilent)
          | [] => None
          end
      | Fetched v, _ =>
          (* mQueue.pop() *)
          Some ({| mQueue := tail (mQueue s); mMutex := mMutex s;
                   threads := set_thread s t
                     {| calls := tail (calls th); at_pc := Finishing;
                        received := received th ++ [v];
                        notFound := notFound th |} |}, EvPop t v)
      | Finishing, _ =>
          (* destructor of the lock *)
          Some ({| mQueue := mQueue s; mMutex := None;
                   threads := set_thread s t
                     {| calls := calls th; at_pc := Start;
                        received := received th;
                        notFound := notFound th |} |}, EvSilent)
      end
  end.

(** Run the threads in the order the schedule gives; [None] when the
    scheduled thread cannot move. *)
Fixpoint run_schedule (sched : list nat) (s : system)
  : option (system * list event) :=
  match sched with
  | [] => Some (s, [])
  | t :: sched' =>
      match step_thread t s with
      | None => None
      | Some (s1, e) =>
          match run_schedule sched' s1 with
          | None => None
          | Some (s2, tr) => Some (s2, e :: tr)
          end
      end
  end.

(** [exec s tr s']: some interleaving of the threads leads from [s] to [s']
    with the events [tr]. *)
Inductive exec (s : system) : list event -> system -> Prop :=
| exec_done : exec s [] s
| exec_more tr s1 t s2 e :
    exec s tr s1 -> step_thread t s1 = Some (s2, e) ->
    exec s (tr ++ [e]) s2.

(** All threads about to start, each with its list of calls. *)
Definition init (progs : list (list call)) : system :=
  {| mQueue := new; mMutex := None;
     threads := (fun p => {| calls := p; at_pc := Start; received := [];
                             notFound := 0 |}) <$> progs |}.

Definition pushes (tr : list event) : list T :=
  omap (fun e => match e with EvPush _ v => Some v | _ => None end) tr.

Definition pops (tr : list event) : list T :=
  omap (fun e => match e with EvPop _ v => Some v | _ => None end) tr.

Definition pops_by (t : nat) (tr : list event) : list T :=
  omap (fun e => match e with
                 | EvPop t' v => if Nat.eqb t t' then Some v else None
                 | _ => None
                 end) tr.

End Queue.
End ThreadSafeQueue.

Arguments ThreadSafeQueue.outcome : clear implicits.
Arguments ThreadSafeQueue.call : clear implicits.
Arguments ThreadSafeQueue.history : clear implicits.
Arguments ThreadSafeQueue.pc : clear implicits.
Arguments ThreadSafeQueue.thread : clear implicits.
Arguments ThreadSafeQueue.system : clear implicits.
Arguments ThreadSafeQueue.event : clear implicits.

(** ** testBuffer.cpp, ConcurrencyProducerConsumer

    The two threads of the test, on the full-flag version of the buffer (the
    one with [available()]). Every call of a member function of [Buffer]
    runs under [mMutex], from its first statement to its [return], and
    [producerFinished] is a [std::atomic<bool>]: a step of a thread is one
    of these calls or one access to the flag, together with the work on the
    thread's own variables that follows it. *)

(** [static_cast<uint8_t>(z)]. *)
Definition uint8_cast (z : Z) : byte :=
  match Strings.Byte.of_N (Z.to_N (z mod 256)) with
  | Some x => x
  | None => x00
  end.

Module StressTest.

(** Where the consumer thread stands in its loop. *)
Inductive consumer_pc : Type :=
| AtRead        (* about to call buffer.read(readBuf, 100) *)
| AtFlag        (* about to load producerFinished *)
| AtAvailable   (* producerFinished was true; about to call available() *)
| Left.         (* after the break *)

Record state : Type := mkState {
  buffer : BufferFlag.Buffer;
  bytesSent : Z;              (* local to the producer *)
  producerFinished : bool;    (* std::atomic<bool> *)
  receivedData : list byte;   (* std::vector<uint8_t>, consumer only *)
  at_consumer : consumer_pc
}.

(** [Buffer buffer(capacity)], both threads about to start. *)
Definition init (capacity : Z) : state :=
  {| buffer := BufferFlag.new capacity; bytesSent := 0;
     producerFinished := false; receivedData := [];
     at_consumer := AtRead |}.

(** [chunk[i] = static_cast<uint8_t>((bytesSent + i) % 256)] for
    [i = 0 .. 99]. *)
Definition chunk (bytesSent : Z) : list byte :=
  (fun i => uint8_cast (sz (bytesSent + i) mod 256)) <$> seqZ 0 100.

(** One turn of the producer: the loop test and, when it holds, one
    iteration of the loop; when it fails, [producerFinished = true]. *)
Definition producer_step (TOTAL_BYTES : Z) (s : state) : option state :=
  if producerFinished s then None
  else if bytesSent s <? TOTAL_BYTES then
    let toWrite := Z.min 100 (sz (TOTAL_BYTES - bytesSent s)) in
    let '(b, written) :=
      BufferFlag.write (buffer s) (chunk (bytesSent s)) toWrite in
    Some {| buffer := b; bytesSent := sz (bytesSent s + written);
            producerFinished := false; receivedData := receivedData s;
            at_consumer := at_consumer s |}
  else
    Some {| buffer := buffer s; bytesSent := bytesSent s;
            producerFinished := true; receivedData := receivedData s;
            at_consumer := at_consumer s |}.

(** One action of the consumer on the shared objects. *)
Definition consumer_step (s : state) : option state :=
  match at_consumer s with
  | AtRead =>
      let '(b, readBuf, bytesRead) := BufferFlag.read (buffer s) 100 in
      Some {| buffer := b; bytesSent := bytesSent s;
              producerFinished := producerFinished s;
              receivedData :=
                receivedData s ++ take (Z.to_nat bytesRead) readBuf;
              at_consumer := AtFlag |}
  | AtFlag =>
      Some {| buffer := buffer s; bytesSent := bytesSent s;
              producerFinished := producerFinished s;
              receivedData := receivedData s;
              at_consumer := if producerFinished s then AtAvailable
                             else AtRead |}
  | AtAvailable =>
      Some {| buffer := buffer s; bytesSent := bytesSent s;
              producerFinished := producerFinished s;
              receivedData := receivedData s;
              at_consumer := if BufferFlag.available (buffer s) =? 0
                             then Left else AtRead |}
  | Left => None
  end.

Inductive thread_id : Type := Producer | Consumer.

Definition step (TOTAL_BYTES : Z) (t : thread_id) (s : state)
  : option state :=
  match t with
  | Producer => producer_step TOTAL_BYTES s
  | Consumer => consumer_step s
  end.

(** Run the threads in the order the schedule gives; [None] when the
    scheduled thread has already finished. *)
Fixpoint run (TOTAL_BYTES : Z) (sched : list thread_id) (s : state)
  : option state :=
  match sched with
  | [] => Some s
  | t :: sched' =>
      match step TOTAL_BYTES t s with
      | None => None
      | Some s' => run TOTAL_BYTES sched' s'
      end
  end.

End StressTest.

(** ** test_ThreadSafeQueue.cpp, ConcurrencyPushPop

    The two threads of the test. A step of a thread is one call on the
    queue, taking effect as a whole under [mMutex], or one access to
    [producerFinished]. *)

(** [INT_MAX]. *)
Definition int_max : Z := 2 ^ 31 - 1.

Module PushPopTest.

(** Where the consumer thread stands in its loop. *)
Inductive consumer_pc : Type :=
| AtWaitAndPop  (* about to call, or suspended in, queue.waitAndPop(val) *)
| AtFlag        (* val appended; about to load producerFinished *)
| AtEmpty       (* producerFinished was true; about to call queue.empty() *)
| Left.         (* after the break *)

Record state : Type := mkState {
  queue : list Z;             (* ThreadSafeQueue<int> *)
  i : Z;                      (* loop variable of the producer *)
  producerFinished : bool;    (* std::atomic<bool> *)
  val : Z;                    (* local to the consumer *)
  receivedData : list Z;      (* std::vector<int>, consumer only *)
  at_consumer : consumer_pc
}.

(** Both threads about to start; the test does not initialise [val]. *)
Definition init (val0 : Z) : state :=
  {| queue := ThreadSafeQueue.new; i := 0; producerFinished := false;
     val := val0; receivedData := []; at_consumer := AtWaitAndPop |}.

(** One turn of the producer: the loop test and, when it holds,
    [queue.push(i)] and [++i]; when it fails, [producerFinished = true].
    [i] stays below [ITEM_COUNT], an [int], so [++i] does not overflow. *)
Definition producer_step (ITEM_COUNT : Z) (s : state) : option state :=
  if producerFinished s then None
  else if i s <? ITEM_COUNT then
    Some {| queue := ThreadSafeQueue.push (queue s) (i s); i := i s + 1;
            producerFinished := false; val := val s;
            receivedData := receivedData s;
            at_consumer := at_consumer s |}
  else
    Some {| queue := queue s; i := i s; producerFinished := true;
            val := val s; receivedData := receivedData s;
            at_consumer := at_consumer s |}.

(** One action of the consumer; [waitAndPop] takes effect only on a queue
    that is not empty, and the thread cannot move while it is empty. *)
Definition consumer_step (s : state) : option state :=
  match at_consumer s with
  | AtWaitAndPop =>
      match ThreadSafeQueue.waitAndPop (queue s) (val s) with
      | ThreadSafeQueue.Returned q v =>
          Some {| queue := q; i := i s;
                  producerFinished := producerFinished s; val := v;
                  receivedData := receivedData s ++ [v];
                  at_consumer := AtFlag |}
      | ThreadSafeQueue.Suspended => None
      end
  | AtFlag =>
      Some {| queue := queue s; i := i s;
              producerFinished := producerFinished s; val := val s;
              receivedData := receivedData s;
              at_consumer := if producerFinished s then AtEmpty
                             else AtWaitAndPop |}
  | AtEmpty =>
      Some {| queue := queue s; i := i s;
              producerFinished := producerFinished s; val := val s;
              receivedData := receivedData s;
              at_consumer := if ThreadSafeQueue.empty (queue s) then Left
                             else AtWaitAndPop |}
  | Left => None
  end.

Inductive thread_id : Type := Producer | Consumer.

Definition step (ITEM_COUNT : Z) (t : thread_id) (s : state)
  : option state :=
  match t with
  | Producer => producer_step ITEM_COUNT s
  | Consumer => consumer_step s
  end.

(** Run the threads in the order the schedule gives; [None] when the
    scheduled thread cannot move. *)
Fixpoint run (ITEM_COUNT : Z) (sched : list thread_id) (s : state)
  : option state :=
  match sched with
  | [] => Some s
  | t :: sched' =>
      match step ITEM_COUNT t s with
      | None => None
      | Some s' => run ITEM_COUNT sched' s'
      end
  end.

End PushPopTest.

(** ** Logger.cpp and the macros of Logger.h *)

Module Logger.
Import Stdlib.Strings.String.

(** [enum class LogLevel]. *)
Inductive LogLevel : Type := DEBUG | INFO | WARNING | ERROR | NONE.

(** The values of the enumerators, which [<] and [>=] compare. *)
Definition level_value (level : LogLevel) : Z :=
  match level with
  | DEBUG => 0
  | INFO => 1
  | WARNING => 2
  | ERROR => 3
  | NONE => 4
  end.

(** The singleton, with what has been written to [std::cout] and to
    [std::cerr] so far: one entry for each [std::endl], oldest first. *)
Record Logger : Type := mkLogger {
  mLevel : LogLevel;
  cout : list string;
  cerr : list string
}.

(** [Logger::Logger()], nothing printed yet. *)
Definition new : Logger := {| mLevel := INFO; cout := []; cerr := [] |}.

Definition getLevelName (level : LogLevel) : string :=
  match level with
  | DEBUG => "DEBUG"
  | INFO => "INFO "
  | WARNING => "WARN "
  | ERROR => "ERROR"
  | _ => "?????"
  end.

Definition setLevel (l : Logger) (level : LogLevel) : Logger :=
  {| mLevel := level; cout := cout l; cerr := cerr l |}.

Definition getLevel (l : Logger) : LogLevel := mLevel l.

(** [log(level, message)]; [timestamp] is what [getTimestamp()] returns
    at the time of the call. *)
Definition log (timestamp : string) (l : Logger) (level : LogLevel)
    (message : string) : Logger :=
  if level_value level <? level_value (mLevel l) then l
  else
    let line := ("[" ++ timestamp ++ "] " ++
                 "[" ++ getLevelName level ++ "] " ++ message)%string in
    if level_value level >=? level_value ERROR
    then {| mLevel := mLevel l; cout := cout l; cerr := cerr l ++ [line] |}
    else {| mLevel := mLevel l; cout := cout l ++ [line]; cerr := cerr l |}.


Definition LOG_INFO (timestamp : string) (l : Logger) (message : string)
  : Logger := log timestamp l INFO message.

Definition LOG_WARNING (timestamp : string) (l : Logger) (message : string)
  : Logger := log timestamp l WARNING message.

Definition LOG_ERROR (timestamp : string) (l : Logger) (message : string)
  : Logger := log timestamp l ERROR message.

(** A call of a public member function; [mMutex] makes the calls of
    several threads take effect one after the other. *)
Inductive call : Type :=
| CallSetLevel (level : LogLevel)
| CallLog (timestamp : string) (level : LogLevel) (message : string).

Definition do_call (l : Logger) (c : call) : Logger :=
  match c with
  | CallSetLevel level => setLevel l level
  | CallLog timestamp level message => log timestamp l level message
  end.

Definition run (l : Logger) (cs : list call) : Logger :=
  foldl do_call l cs.

End Logger.

(** * Part II: the vocabulary of the statements *)

(** ** Cursors and contents of the circular buffer *)

(** The cursor after [k] steps of [cursor = (cursor + 1) % cap]. *)
Definition advance (cursor k cap : Z) : Z := (cursor + k) mod cap.

(** [ring v start cap n]: the [n] bytes met when walking the storage [v]
    from index [start] on, going back to index 0 after index [cap - 1]. *)
Definition ring (v : list byte) (start cap : Z) (n : nat) : list byte :=
  (fun i : nat => at_ v (advance start (Z.of_nat i) cap)) <$> seq 0 n.

Section FlagVocabulary.
Import BufferFlag.

(** The states the constructor and the three operations can produce. *)
Definition flag_wf (b : Buffer) : Prop :=
  0 <= mCapacity b < size_modulus
  /\ Z.of_nat (length (mBuffer b)) = mCapacity b
  /\ 0 <= mHead b /\ 0 <= mTail b
  /\ (mCapacity b = 0 -> mHead b = 0 /\ mTail b = 0 /\ mIsFull b = false)
  /\ (0 < mCapacity b -> mHead b < mCapacity b /\ mTail b < mCapacity b)
  /\ (mIsFull b = true -> mHead b = mTail b).

(** The bytes written and not yet read, oldest first. *)
Definition flag_contents (b : Buffer) : list byte :=
  ring (mBuffer b) (mTail b) (mCapacity b)
    (Z.to_nat (getAvailableInternal b)).

(** The count [write] returns. *)
Definition flag_toWrite (b : Buffer) (len : Z) : Z :=
  Z.min len (mCapacity b - getAvailableInternal b).

(** The count [read] returns. *)
Definition flag_toRead (b : Buffer) (len : Z) : Z :=
  Z.min len (getAvailableInternal b).

(** The invariants of section 3 of the specification, on the full-flag
    version; [mCapacity] is a [size_t]. *)
Definition flag_inv (b : Buffer) : Prop :=
  0 <= mCapacity b < size_modulus
  /\ 0 <= available b <= capacity b
  /\ 0 <= mHead b < capacity b
  /\ 0 <= mTail b < capacity b
  /\ (isFullInternal b = true <-> available b = capacity b)
  /\ (isEmptyInternal b = true <-> available b = 0).

End FlagVocabulary.

Section CountVocabulary.
Import BufferFlag BufferCount.

(** The count version [a] and the flag version [b] are in the same state:
    same storage, same cursors, and the stored count is the count the flag
    version derives. *)
Definition sim (a : BufferCount.Buffer) (b : BufferFlag.Buffer) : Prop :=
  m_buffer a = mBuffer b
  /\ m_readPos a = mTail b
  /\ m_writePos a = mHead b
  /\ m_capacity a = mCapacity b
  /\ m_dataAvailable a = getAvailableInternal b
  /\ flag_wf b
  /\ mCapacity b <= vector_max_size.

(** The count version on its own: invariant and contents. *)
Definition count_wf (a : BufferCount.Buffer) : Prop :=
  0 <= m_capacity a <= vector_max_size
  /\ Z.of_nat (length (m_buffer a)) = m_capacity a
  /\ 0 <= m_readPos a /\ 0 <= m_writePos a
  /\ 0 <= m_dataAvailable a <= m_capacity a
  /\ (m_capacity a = 0 -> m_readPos a = 0 /\ m_writePos a = 0)
  /\ (0 < m_capacity a ->
      m_readPos a < m_capacity a
      /\ m_writePos a
         = advance (m_readPos a) (m_dataAvailable a) (m_capacity a)).

Definition count_contents (a : BufferCount.Buffer) : list byte :=
  ring (m_buffer a) (m_readPos a) (m_capacity a)
    (Z.to_nat (m_dataAvailable a)).

(** The flag-version state with the cursors and storage of [a]. *)
Definition to_flag (a : BufferCount.Buffer) : BufferFlag.Buffer :=
  {| mBuffer := m_buffer a; mHead := m_writePos a; mTail := m_readPos a;
     mIsFull := (0 <? m_capacity a) && (m_dataAvailable a =? m_capacity a);
     mCapacity := m_capacity a |}.

End CountVocabulary.

(** ** Sequences of calls on a buffer *)

(** One call on a buffer, and what the caller gets back. *)
Inductive op : Type :=
| Write (data : list byte) (len : Z)
| Read (len : Z)
| Clear.

Inductive result : Type :=
| Written (n : Z)
| Delivered (dest : list byte) (n : Z)
| Cleared.

(** A call the caller may make: [len] is a [size_t] and [data] points to at
    least [len] bytes. *)
Definition op_ok (o : op) : Prop :=
  match o with
  | Write data len => 0 <= len <= Z.of_nat (length data)
  | Read len => 0 <= len
  | Clear => True
  end.

Definition flag_step (b : BufferFlag.Buffer) (o : op)
  : BufferFlag.Buffer * result :=
  match o with
  | Write data len =>
      let '(b', n) := BufferFlag.write b data len in (b', Written n)
  | Read len =>
      let '(b', dest, n) := BufferFlag.read b len in (b', Delivered dest n)
  | Clear => (BufferFlag.clear b, Cleared)
  end.

Definition count_step (a : BufferCount.Buffer) (o : op)
  : BufferCount.Buffer * result :=
  match o with
  | Write data len =>
      let '(a', n) := BufferCount.write a data len in (a', Written n)
  | Read len =>
      let '(a', dest, n) := BufferCount.read a len in (a', Delivered dest n)
  | Clear => (BufferCount.clear a, Cleared)
  end.

(** Run the calls in order; the trace holds, for each call, its result and
    what [available()] reports right after it. *)
Fixpoint flag_run (b : BufferFlag.Buffer) (ops : list op)
  : BufferFlag.Buffer * list (result * Z) :=
  match ops with
  | [] => (b, [])
  | o :: ops' =>
      let '(b', r) := flag_step b o in
      let '(b'', t) := flag_run b' ops' in
      (b'', (r, BufferFlag.available b') :: t)
  end.

Fixpoint count_run (a : BufferCount.Buffer) (ops : list op)
  : BufferCount.Buffer * list (result * Z) :=
  match ops with
  | [] => (a, [])
  | o :: ops' =>
      let '(a', r) := count_step a o in
      let '(a'', t) := count_run a' ops' in
      (a'', (r, BufferCount.getAvailable a') :: t)
  end.

(** The ledger of a trace: bytes accepted by [write] minus bytes handed out
    by [read], counted from the last [clear]. *)
Definition ledger_step (acc : Z) (r : result) : Z :=
  match r with
  | Written n => acc + n
  | Delivered _ n => acc - n
  | Cleared => 0
  end.

Definition ledger_from (acc : Z) (t : list (result * Z)) : Z :=
  fold_left ledger_step (fst <$> t) acc.

Definition ledger (t : list (result * Z)) : Z := ledger_from 0 t.

(** Write the chunks one after the other, each in full; the counts returned
    are collected in order. *)
Fixpoint write_all (b : BufferFlag.Buffer) (chunks : list (list byte))
  : BufferFlag.Buffer * list Z :=
  match chunks with
  | [] => (b, [])
  | d :: chunks' =>
      let '(b', n) := BufferFlag.write b d (Z.of_nat (length d)) in
      let '(b'', ns) := write_all b' chunks' in
      (b'', n :: ns)
  end.

(** ** Threads on a queue *)

Section QueueVocabulary.
Import ThreadSafeQueue.
Context {T : Type}.
Implicit Types (s : system T) (th : thread T).

(** The positions at which a thread holds [mMutex]. *)
Definition holds (p : pc T) : bool :=
  match p with
  | Held | NonEmpty | Fetched _ | Finishing => true
  | Start | Asleep => false
  end.

(** What the lock guarantees: the thread inside a critical section is the
    owner of the mutex, and what it has seen of the queue is still true. *)
Definition lock_ok s : Prop :=
  forall t th, threads s !! t = Some th ->
    (holds (at_pc th) = true -> mMutex s = Some t)
    /\ (at_pc th = NonEmpty -> mQueue s <> [])
    /\ (forall v, at_pc th = Fetched v -> head (mQueue s) = Some v).

(** The history of a queue nobody has used yet. *)
Definition fresh : history T :=
  {| h_queue := new; h_pushed := []; h_popped := [] |}.

End QueueVocabulary.

Section TestVocabulary.
Import ThreadSafeQueue.

(** The producer and the consumer of the integrity test: [n] pushes of
    [0 .. n-1] in one thread, [n] calls of [waitAndPop] in the other. *)
Definition producer (n : nat) : list (ThreadSafeQueue.call nat) :=
  ThreadSafeQueue.CallPush <$> seq 0 n.

Definition consumer (n : nat) : list (ThreadSafeQueue.call nat) :=
  replicate n (ThreadSafeQueue.CallWaitAndPop 0%nat).

(** What holds throughout the integrity test with [n] values: the
    producer has pushed [0 .. k-1] and is about to push [k ..  n-1]; the
    consumer still has [m] pops to do; what it has received followed by
    what the queue holds is [0 .. k-1]. *)
Definition scenario_inv (n : nat) (s : system nat) : Prop :=
  exists (k m : nat) (p c : thread nat),
    threads s = [p; c]
    /\ (k <= n)%nat
    /\ calls p = CallPush <$> seq k (n - k)
    /\ (at_pc p = Start \/ at_pc p = Held \/ at_pc p = Finishing)
    /\ calls c = replicate m (CallWaitAndPop 0%nat)
    /\ (length (received c) + m = n)%nat
    /\ received c ++ mQueue s = seq 0 k
    /\ (at_pc c <> Start -> at_pc c <> Finishing -> (0 < m)%nat).

(** The schedule that lets the producer run to its end and then the
    consumer: three steps for each [push], five for each [waitAndPop]. *)
Definition producer_first (n : nat) : list nat :=
  replicate (3 * n) 0%nat ++ replicate (5 * n) 1%nat.

(** ** Test data *)

(** The test vectors of testBuffer.cpp, CircularWrapAround. *)
Definition writeData1 : list byte := [x01; x02; x03; x04; x05; x06; x07; x08].

Definition writeData2 : list byte := [x09; x0a; x0b; x0c].

Definition tenBytes : list byte :=
  [x01; x02; x03; x04; x05; x06; x07; x08; x09; x0a].

(** An empty buffer whose cursors stand at index 8 of 10. *)
Definition drained8 : BufferFlag.Buffer :=
  (BufferFlag.read (BufferFlag.write (BufferFlag.new 10) writeData1 8).1 8).1.1.

(** A capacity-10 buffer holding 8 bytes, in both versions. *)
Definition holding8 : BufferFlag.Buffer :=
  (BufferFlag.write (BufferFlag.new 10) writeData1 8).1.

Definition count_holding8 : BufferCount.Buffer :=
  (BufferCount.write (BufferCount.new 10) writeData1 8).1.

(** A thread that holds the mutex at the start of [tryPop], queue
    empty. *)
Definition polling : system Z :=
  {| mQueue := new; mMutex := Some 0%nat;
     threads := [ {| calls := [CallTryPop 7]; at_pc := Held;
                     received := []; notFound := 0 |} ] |}.

(** An interleaving of the test with three values, and the first steps of
    the test with 1000 values. *)
Definition interleaved3 : list nat :=
  [0; 0; 0; 1; 1; 1; 1; 1; 1; 1; 0; 0; 0; 1; 1; 1; 1]%nat.

Definition after_interleaved3 : system nat * list (event nat) :=
  default (init [], [])
    (run_schedule interleaved3 (init [producer 3; consumer 3])).

Definition after_first_steps : system nat * list (event nat) :=
  default (init [], [])
    (run_schedule [0; 0; 0; 1; 1; 1; 1]%nat
       (init [producer 1000; consumer 1000])).

End TestVocabulary.

(** ** Streams through a buffer *)

(** The bytes [write] accepted and the bytes [read] delivered, in call
    order, both counted from the last [clear()]. *)
Definition stream_step (acc : list byte * list byte) (o : op) (r : result)
  : list byte * list byte :=
  match o, r with
  | Write data _, Written n => (acc.1 ++ take (Z.to_nat n) data, acc.2)
  | Read _, Delivered dest _ => (acc.1, acc.2 ++ dest)
  | Clear, Cleared => ([], [])
  | _, _ => acc
  end.

Fixpoint streams (acc : list byte * list byte) (ops : list op)
    (t : list (result * Z)) : list byte * list byte :=
  match ops, t with
  | o :: ops', (r, _) :: t' => streams (stream_step acc o r) ops' t'
  | _, _ => acc
  end.

(** Two flag-version buffers that differ at most in the cells that hold no
    unread byte. *)
Definition same_view (b1 b2 : BufferFlag.Buffer) : Prop :=
  BufferFlag.mHead b1 = BufferFlag.mHead b2
  /\ BufferFlag.mTail b1 = BufferFlag.mTail b2
  /\ BufferFlag.mIsFull b1 = BufferFlag.mIsFull b2
  /\ BufferFlag.mCapacity b1 = BufferFlag.mCapacity b2
  /\ flag_wf b1 /\ flag_wf b2
  /\ flag_contents b1 = flag_contents b2.

(** ** The stress test of the buffer *)

(** What the test expects to receive: [static_cast<uint8_t>(i % 256)] for
    [i = 0 .. n-1]. *)
Definition expected (n : Z) : list byte :=
  (fun i => uint8_cast (i mod 256)) <$> seqZ 0 n.

(** What holds throughout the test: the bytes received followed by the
    bytes in the buffer are the first [bytesSent] expected bytes, the flag
    is set only when all bytes have been sent, and the consumer leaves its
    loop only with all of them. *)
Definition stress_inv (total : Z) (s : StressTest.state) : Prop :=
  flag_wf (StressTest.buffer s)
  /\ 0 <= StressTest.bytesSent s <= total
  /\ StressTest.receivedData s ++ flag_contents (StressTest.buffer s)
     = expected (StressTest.bytesSent s)
  /\ (StressTest.producerFinished s = true -> StressTest.bytesSent s = total)
  /\ (StressTest.at_consumer s = StressTest.AtAvailable ->
      StressTest.producerFinished s = true)
  /\ (StressTest.at_consumer s = StressTest.Left ->
      StressTest.receivedData s = expected total).

(** The schedule that lets one iteration of the producer alternate with
    one pass of the consumer through its loop, [n] times, and then lets
    both threads finish. *)
Definition alternate (n : nat) : list StressTest.thread_id :=
  concat (replicate n [StressTest.Producer; StressTest.Consumer;
                       StressTest.Consumer])
  ++ [StressTest.Producer; StressTest.Consumer; StressTest.Consumer;
      StressTest.Consumer].

(** ** More on the threads of a queue *)

Section QueueExtraVocabulary.
Import ThreadSafeQueue.
Context {T : Type}.

(** The positions inside a call, where the call is still at the head of
    [calls]. *)
Definition inside (p : pc T) : bool :=
  match p with
  | Held | Asleep | NonEmpty | Fetched _ => true
  | Start | Finishing => false
  end.

(** The mutex is held only by a thread inside a critical section, and a
    thread inside a call still has that call to complete. *)
Definition owner_ok (s : system T) : Prop :=
  (forall t, mMutex s = Some t ->
     exists th, threads s !! t = Some th /\ holds (at_pc th) = true)
  /\ (forall t th, threads s !! t = Some th ->
        inside (at_pc th) = true -> calls th <> []).

Definition is_pop (c : call T) : bool :=
  match c with CallPush _ => false | _ => true end.

Definition is_tryPop (c : call T) : bool :=
  match c with CallTryPop _ => true | _ => false end.

(** What holds throughout when no thread ever pushes: the queue is empty,
    and each thread has completed only calls of [tryPop], each of which
    returned [false]. *)
Definition starved (progs : list (list (call T))) (s : system T) : Prop :=
  mQueue s = []
  /\ forall t th, threads s !! t = Some th ->
       exists p done,
         progs !! t = Some p
         /\ p = done ++ calls th
         /\ forallb is_tryPop done = true
         /\ notFound th = length done
         /\ received th = []
         /\ at_pc th <> NonEmpty
         /\ (forall v, at_pc th <> Fetched v).

End QueueExtraVocabulary.

(** Two consumers and nobody to push: thread 1 has tried once, thread 0
    sleeps in [waitAndPop]. *)
Definition consumers_only : list (list (ThreadSafeQueue.call Z)) :=
  [ [ThreadSafeQueue.CallWaitAndPop 0; ThreadSafeQueue.CallTryPop 0];
    [ThreadSafeQueue.CallTryPop 0] ].

Definition after_consumers_only
  : ThreadSafeQueue.system Z * list (ThreadSafeQueue.event Z) :=
  default (ThreadSafeQueue.init [], [])
    (ThreadSafeQueue.run_schedule [1; 1; 1; 0; 0; 0; 0]%nat
       (ThreadSafeQueue.init consumers_only)).

(** ** The blocking test of the queue *)

Section BlockingVocabulary.
Import ThreadSafeQueue.
Context {T : Type}.

(** The two threads of the test BlockingBehavior: the consumer calls
    [waitAndPop(result)], the main thread calls [push(hello)]. *)
Definition blocking_test (result0 hello : T) : list (list (call T)) :=
  [[CallWaitAndPop result0]; [CallPush hello]].

(** The three stages of the test: nothing pushed yet; pushed and not yet
    popped; popped. *)
Definition blocking_inv (result0 hello : T) (s : system T) : Prop :=
  exists c m,
    threads s = [c; m]
    /\ ((calls m = [CallPush hello]
         /\ (at_pc m = Start \/ at_pc m = Held)
         /\ mQueue s = []
         /\ calls c = [CallWaitAndPop result0] /\ received c = []
         /\ (at_pc c = Start \/ at_pc c = Held \/ at_pc c = Asleep))
        \/ (calls m = []
            /\ (at_pc m = Finishing \/ at_pc m = Start)
            /\ mQueue s = [hello]
            /\ calls c = [CallWaitAndPop result0] /\ received c = []
            /\ (at_pc c = Start \/ at_pc c = Held \/ at_pc c = Asleep
                \/ at_pc c = NonEmpty \/ at_pc c = Fetched hello))
        \/ (calls m = []
            /\ (at_pc m = Finishing \/ at_pc m = Start)
            /\ mQueue s = []
            /\ calls c = [] /\ received c = [hello]
            /\ (at_pc c = Finishing \/ at_pc c = Start))).

(** The consumer first, until it sleeps; then the main thread; then the
    consumer again. *)
Definition consumer_sleeps : list nat := [0; 0]%nat.

Definition main_pushes : list nat := [1; 1; 1]%nat.

Definition consumer_wakes : list nat := [0; 0; 0; 0; 0]%nat.

End BlockingVocabulary.

(** ** The concurrency test of the queue *)

(** What holds throughout the test with [n] items. *)
Definition push_pop_inv (n : Z) (s : PushPopTest.state) : Prop :=
  0 <= PushPopTest.i s <= n
  /\ PushPopTest.receivedData s ++ PushPopTest.queue s
     = seqZ 0 (PushPopTest.i s)
  /\ (PushPopTest.producerFinished s = true -> PushPopTest.i s = n)
  /\ (PushPopTest.at_consumer s = PushPopTest.AtEmpty ->
      PushPopTest.producerFinished s = true)
  /\ (PushPopTest.at_consumer s = PushPopTest.Left ->
      PushPopTest.receivedData s = seqZ 0 n).

(** The consumer takes each value as soon as it is pushed and loads the
    flag before the producer stores it. *)
Definition eager_consumer (n : nat) : list PushPopTest.thread_id :=
  concat (replicate n [PushPopTest.Producer; PushPopTest.Consumer;
                       PushPopTest.Consumer])
  ++ [PushPopTest.Producer].

(** The producer runs to its end before the consumer starts. *)
Definition late_consumer (n : nat) : list PushPopTest.thread_id :=
  replicate (S n) PushPopTest.Producer
  ++ concat (replicate n [PushPopTest.Consumer; PushPopTest.Consumer;
                          PushPopTest.Consumer]).

(** ** Lines of the log *)

Section LoggerVocabulary.
Import Stdlib.Strings.String.
Import Logger.






End LoggerVocabulary.

(** * Part III: lemmas and theorems *)

(** ** Arithmetic of indices *)


Lemma sz_small z : 0 <= z < size_modulus -> sz z = z.
Proof. intros H. unfold sz. apply Z.mod_small. exact H. Qed.

Lemma mod_below c x : 0 <= x < c -> x mod c = x.
Proof. apply Z.mod_small. Qed.

Lemma mod_once c x : c <= x < 2 * c -> x mod c = x - c.
Proof.
  intros H. symmetry. apply (Z.mod_unique x c 1 (x - c)); lia.
Qed.

Lemma mod_neg_once c x : - c <= x < 0 -> x mod c = x + c.
Proof.
  intros H. symmetry. apply (Z.mod_unique x c (-1) (x + c)); lia.
Qed.


(** Case analysis on every comparison of the goal. *)
Ltac ltb_cases :=
  repeat match goal with
         | |- context [?a <? ?b] => destruct (Z.ltb_spec a b)
         | |- context [?a <=? ?b] => destruct (Z.leb_spec a b)
         | |- context [?a =? ?b] => destruct (Z.eqb_spec a b)
         end;
  try (exfalso; lia).

(** Settle a closed statement about concrete data by evaluating it. *)
Ltac evaluate :=
  vm_compute; repeat split; intros;
  first [reflexivity | discriminate | assumption].

(** Replace every [x mod c] of the goal whose value linear arithmetic can
    decide by that value. *)
Ltac mod_simpl :=
  repeat match goal with
         | |- context [?x mod ?c] =>
             first [ rewrite (mod_below c x) by lia
                   | rewrite (mod_once c x) by lia
                   | rewrite (mod_neg_once c x) by lia ]
         end.

Lemma advance_cases c k cap :
  0 <= c < cap -> 0 <= k <= cap ->
  advance c k cap = if c + k <? cap then c + k else c + k - cap.
Proof.
  intros Hc Hk. unfold advance. destruct (Z.ltb_spec (c + k) cap).
  - apply mod_below. lia.
  - apply mod_once. lia.
Qed.

Lemma advance_step c k cap :
  0 < cap -> advance (advance c 1 cap) k cap = advance c (1 + k) cap.
Proof.
  intros Hcap. unfold advance. rewrite Zplus_mod_idemp_l.
  f_equal. lia.
Qed.

Lemma vector_max_size_lt : 2 * vector_max_size < size_modulus.
Proof. reflexivity. Qed.



(** ** Storage: cells, block copies, walks around the ring *)

Lemma at_store_eq v i x :
  0 <= i < Z.of_nat (length v) -> at_ (store v i x) i = x.
Proof.
  intros Hi. unfold at_, store.
  apply list_lookup_total_insert_eq. lia.
Qed.

Lemma at_store_ne v i j x :
  0 <= i -> 0 <= j -> i <> j -> at_ (store v i x) j = at_ v j.
Proof.
  intros Hi Hj Hne. unfold at_, store.
  apply list_lookup_total_insert_ne. lia.
Qed.

Lemma length_store v i x : length (store v i x) = length v.
Proof. unfold store. apply length_insert. Qed.

Lemma length_memcpy_to dst off src n :
  0 <= off -> 0 <= n -> off + n <= Z.of_nat (length dst) ->
  n <= Z.of_nat (length src) ->
  length (memcpy_to dst off src n) = length dst.
Proof.
  intros Hoff Hn Hd Hs. unfold memcpy_to.
  rewrite !length_app, !length_take, length_drop. lia.
Qed.

Lemma at_memcpy_to dst off src n j :
  0 <= off -> 0 <= n -> off + n <= Z.of_nat (length dst) ->
  n <= Z.of_nat (length src) -> 0 <= j ->
  at_ (memcpy_to dst off src n) j
  = if (off <=? j) && (j <? off + n) then at_ src (j - off) else at_ dst j.
Proof.
  intros Hoff Hn Hd Hs Hj. unfold memcpy_to, at_.
  destruct (Z.leb_spec off j) as [Hlo|Hlo]; simpl.
  - rewrite lookup_total_app_r by (rewrite length_take; lia).
    rewrite length_take, Nat.min_l by lia.
    destruct (Z.ltb_spec j (off + n)) as [Hhi|Hhi].
    + rewrite lookup_total_app_l by (rewrite length_take; lia).
      rewrite lookup_total_take_lt by lia. f_equal. lia.
    + rewrite lookup_total_app_r by (rewrite length_take; lia).
      rewrite length_take, Nat.min_l by lia.
      rewrite lookup_total_drop. f_equal. lia.
  - rewrite lookup_total_app_l by (rewrite length_take; lia).
    rewrite lookup_total_take_lt by lia. reflexivity.
Qed.

Lemma at_drop v k j :
  0 <= k -> 0 <= j -> at_ (drop (Z.to_nat k) v) j = at_ v (k + j).
Proof.
  intros Hk Hj. unfold at_. rewrite lookup_total_drop. f_equal. lia.
Qed.

(** Two vectors of one size that agree at every index are equal. *)
Lemma vector_ext (v1 v2 : list byte) :
  length v1 = length v2 ->
  (forall j, 0 <= j < Z.of_nat (length v1) -> at_ v1 j = at_ v2 j) ->
  v1 = v2.
Proof.
  intros Hlen Hat. apply (list_eq_same_length _ _ (length v1));
    [symmetry; exact Hlen | reflexivity |].
  intros i x y Hi Hx Hy.
  apply list_lookup_total_correct in Hx, Hy.
  specialize (Hat (Z.of_nat i)). unfold at_ in Hat.
  rewrite Nat2Z.id in Hat. rewrite <- Hx, <- Hy. apply Hat. lia.
Qed.

Lemma lookup_memcpy_from src off n (i : nat) :
  0 <= off -> 0 <= n -> off + n <= Z.of_nat (length src) ->
  (i < Z.to_nat n)%nat ->
  memcpy_from src off n !! i = Some (at_ src (off + Z.of_nat i)).
Proof.
  intros Hoff Hn Hs Hi. unfold memcpy_from, at_.
  rewrite lookup_take_lt by exact Hi. rewrite lookup_drop.
  rewrite list_lookup_lookup_total_lt by lia. do 2 f_equal. lia.
Qed.

Lemma length_memcpy_from src off n :
  0 <= off -> 0 <= n -> off + n <= Z.of_nat (length src) ->
  length (memcpy_from src off n) = Z.to_nat n.
Proof.
  intros Hoff Hn Hs. unfold memcpy_from.
  rewrite length_take, length_drop. lia.
Qed.

Lemma length_ring v start cap n : length (ring v start cap n) = n.
Proof. unfold ring. rewrite length_fmap, length_seq. reflexivity. Qed.

Lemma lookup_ring v start cap n (i : nat) :
  (i < n)%nat ->
  ring v start cap n !! i = Some (at_ v (advance start (Z.of_nat i) cap)).
Proof.
  intros Hi. unfold ring. rewrite list_lookup_fmap, lookup_seq_lt by exact Hi.
  reflexivity.
Qed.

Lemma ring_S v start cap n :
  0 < cap -> 0 <= start < cap ->
  ring v start cap (S n) = at_ v start :: ring v (advance start 1 cap) cap n.
Proof.
  intros Hcap Hs. unfold ring. simpl. f_equal.
  - unfold advance. rewrite Z.add_0_r, mod_below by lia. reflexivity.
  - rewrite <- fmap_S_seq, <- list_fmap_compose.
    apply list_fmap_ext. intros _ i _. simpl.
    rewrite advance_step by exact Hcap. do 2 f_equal. lia.
Qed.

Lemma take_ring v start cap n m :
  (m <= n)%nat -> take m (ring v start cap n) = ring v start cap m.
Proof.
  intros Hm. unfold ring. rewrite <- fmap_take, take_seq.
  rewrite Nat.min_l by exact Hm. reflexivity.
Qed.

Lemma drop_ring v start cap n m :
  0 < cap -> (m <= n)%nat ->
  drop m (ring v start cap n)
  = ring v (advance start (Z.of_nat m) cap) cap (n - m).
Proof.
  intros Hcap Hm. unfold ring. rewrite <- fmap_drop, drop_seq. simpl.
  rewrite <- (Nat.add_0_r m) at 1. rewrite <- fmap_add_seq.
  rewrite <- list_fmap_compose. apply list_fmap_ext. intros _ i _. simpl.
  unfold advance. rewrite Zplus_mod_idemp_l. do 2 f_equal. lia.
Qed.

(** ** The loops of the full-flag version *)

Section FlagLoops.
Import BufferFlag.

Lemma read_loop_ring n : forall buf tail cap,
  0 < cap < size_modulus -> 0 <= tail < cap ->
  read_loop n buf tail cap
  = (ring buf tail cap n, advance tail (Z.of_nat n) cap).
Proof.
  induction n as [|n IH]; intros buf tail cap Hcap Ht.
  - simpl. unfold advance. rewrite Z.add_0_r, mod_below by lia. reflexivity.
  - cbn [read_loop]. rewrite sz_small by lia.
    assert (Hadv : 0 <= advance tail 1 cap < cap)
      by (apply Z.mod_pos_bound; lia).
    change ((tail + 1) mod cap) with (advance tail 1 cap).
    rewrite IH by (exact Hcap || exact Hadv).
    rewrite ring_S by lia. rewrite advance_step by lia.
    do 2 f_equal. lia.
Qed.

(** What the storage holds after the loop of [write]: the [n] cells
    from [head] on (cyclically) hold [data[i .. i + n)], the others are
    unchanged. *)
Lemma write_loop_spec n : forall i data buf head cap,
  0 < cap < size_modulus -> 0 <= head < cap ->
  Z.of_nat (length buf) = cap -> Z.of_nat n <= cap ->
  (write_loop n i data buf head cap).2 = advance head (Z.of_nat n) cap
  /\ length (write_loop n i data buf head cap).1 = length buf
  /\ forall j, 0 <= j < cap ->
       at_ (write_loop n i data buf head cap).1 j
       = if (j - head) mod cap <? Z.of_nat n
         then data !!! (i + Z.to_nat ((j - head) mod cap))%nat
         else at_ buf j.
Proof.
  induction n as [|n IH]; intros i data buf head cap Hcap Hh Hlen Hn.
  - simpl. split; [|split; [reflexivity|]].
    + unfold advance. rewrite Z.add_0_r, mod_below by lia. reflexivity.
    + intros j Hj.
      destruct (Z.ltb_spec ((j - head) mod cap) (Z.of_nat 0)); [|reflexivity].
      pose proof (Z.mod_pos_bound (j - head) cap). lia.
  - cbn [write_loop]. rewrite sz_small by lia.
    change ((head + 1) mod cap) with (advance head 1 cap).
    assert (Hadv : 0 <= advance head 1 cap < cap)
      by (apply Z.mod_pos_bound; lia).
    set (x := data !!! i).
    destruct (IH (S i) data (store buf head x) (advance head 1 cap) cap)
      as (IHh & IHl & IHat);
      [lia | exact Hadv | rewrite length_store; exact Hlen | lia |].
    split; [|split].
    + rewrite IHh, advance_step by lia. f_equal. lia.
    + rewrite IHl. apply length_store.
    + intros j Hj. rewrite IHat by exact Hj. unfold advance.
      destruct (Z.eq_dec j head) as [->|Hne].
      * rewrite at_store_eq by lia.
        destruct (Z.ltb_spec (head + 1) cap); mod_simpl; ltb_cases;
          subst x; f_equal; lia.
      * rewrite at_store_ne by lia.
        destruct (Z.ltb_spec (head + 1) cap), (Z.ltb_spec j head);
          mod_simpl; ltb_cases; try reflexivity; f_equal; lia.
Qed.

Lemma write_loop_head_range n : forall i data buf head cap,
  0 < cap < size_modulus -> 0 <= head < cap ->
  0 <= (write_loop n i data buf head cap).2 < cap.
Proof.
  induction n as [|n IH]; intros i data buf head cap Hcap Hh; [exact Hh|].
  cbn [write_loop]. apply IH; [exact Hcap|].
  apply Z.mod_pos_bound. lia.
Qed.

End FlagLoops.

(** ** The full-flag version: what [write], [read] and [clear] do *)

Section FlagFacts.
Import BufferFlag.

Lemma flag_avail_explicit b :
  flag_wf b ->
  getAvailableInternal b
  = if mIsFull b then mCapacity b
    else if mTail b <=? mHead b then mHead b - mTail b
    else mCapacity b - mTail b + mHead b.
Proof.
  intros (Hc & _ & Hh & Ht & H0 & Hpos & Hfull).
  unfold getAvailableInternal. destruct (mIsFull b); [reflexivity|].
  destruct (Z.leb_spec (mTail b) (mHead b)).
  - apply sz_small. lia.
  - rewrite (sz_small (mCapacity b - mTail b)) by lia. apply sz_small. lia.
Qed.

Lemma flag_avail_range b :
  flag_wf b -> 0 <= getAvailableInternal b <= mCapacity b.
Proof.
  intros Hwf. rewrite flag_avail_explicit by exact Hwf.
  destruct Hwf as (Hc & _ & Hh & Ht & H0 & Hpos & Hfull).
  destruct (mIsFull b); [lia|].
  destruct (Z.leb_spec (mTail b) (mHead b)); lia.
Qed.

Lemma flag_new_wf c : 0 <= c < size_modulus -> flag_wf (new c).
Proof.
  intros Hc. unfold flag_wf, new. simpl.
  rewrite length_replicate. repeat split; try lia; discriminate.
Qed.

Lemma flag_new_avail c : getAvailableInternal (new c) = 0.
Proof. reflexivity. Qed.

Lemma flag_clear_wf b : flag_wf b -> flag_wf (clear b).
Proof.
  intros (Hc & Hl & Hh & Ht & H0 & Hpos & Hfull).
  unfold flag_wf, clear. simpl. repeat split; try lia; discriminate.
Qed.

Lemma flag_clear_avail b : getAvailableInternal (clear b) = 0.
Proof. reflexivity. Qed.

Lemma flag_write_count b data len :
  flag_wf b -> (write b data len).2 = flag_toWrite b len.
Proof.
  intros Hwf. pose proof (flag_avail_range b Hwf) as Ha.
  destruct Hwf as (Hc & _). unfold write, flag_toWrite.
  rewrite sz_small by lia.
  destruct (Z.eqb_spec (Z.min len (mCapacity b - getAvailableInternal b)) 0)
    as [->|Hne]; [reflexivity|].
  destruct (write_loop _ _ _ _ _ _). reflexivity.
Qed.

Lemma flag_write_capacity b data len :
  mCapacity (write b data len).1 = mCapacity b.
Proof.
  unfold write. destruct (_ =? 0); [reflexivity|].
  destruct (write_loop _ _ _ _ _ _). reflexivity.
Qed.

(** The state [write] leaves when it copies at least one byte. *)
Lemma flag_write_state b data len :
  flag_wf b -> 0 < flag_toWrite b len ->
  let w := flag_toWrite b len in
  let r := write_loop (Z.to_nat w) 0 data (mBuffer b) (mHead b)
             (mCapacity b) in
  (write b data len).1
  = {| mBuffer := r.1;
       mHead := advance (mHead b) w (mCapacity b);
       mTail := mTail b;
       mIsFull := bool_decide (getAvailableInternal b + w = mCapacity b);
       mCapacity := mCapacity b |}.
Proof.
  intros Hwf Hw w r. pose proof (flag_avail_range b Hwf) as Ha.
  pose proof (flag_avail_explicit b Hwf) as He.
  destruct Hwf as (Hc & Hl & Hh & Ht & H0 & Hpos & Hfull).
  assert (Hwle : w <= mCapacity b - getAvailableInternal b)
    by (unfold w, flag_toWrite; lia).
  destruct (write_loop_spec (Z.to_nat w) 0 data (mBuffer b) (mHead b)
              (mCapacity b)) as (Hhead & _); [lia..|].
  fold r in Hhead. rewrite Z2Nat.id in Hhead by lia.
  unfold write. rewrite sz_small by lia. fold (flag_toWrite b len). fold w.
  destruct (Z.eqb_spec w 0) as [|_]; [lia|].
  fold r. destruct r as [buf head]. simpl in Hhead. subst head. simpl.
  f_equal.
  assert (Hnf : mIsFull b = false).
  { destruct (mIsFull b); [|reflexivity]. lia. }
  rewrite Hnf in *.
  rewrite (advance_cases (mHead b) w (mCapacity b)) by lia.
  destruct (Z.leb_spec (mTail b) (mHead b));
    ltb_cases; case_bool_decide; simpl; try reflexivity; lia.
Qed.

Lemma flag_write_noop b data len :
  flag_wf b -> flag_toWrite b len = 0 -> (write b data len).1 = b.
Proof.
  intros Hwf Hw. pose proof (flag_avail_range b Hwf) as Ha.
  destruct Hwf as (Hc & _). unfold write. rewrite sz_small by lia.
  fold (flag_toWrite b len). rewrite Hw. reflexivity.
Qed.

Lemma flag_write_wf b data len :
  flag_wf b -> 0 <= len -> flag_wf (write b data len).1.
Proof.
  intros Hwf Hlen. pose proof (flag_avail_range b Hwf) as Ha.
  destruct (Z.eq_dec (flag_toWrite b len) 0) as [Hz|Hnz].
  { rewrite flag_write_noop by assumption. exact Hwf. }
  assert (Hw : 0 < flag_toWrite b len) by (unfold flag_toWrite in *; lia).
  rewrite flag_write_state by assumption.
  pose proof (flag_avail_explicit b Hwf) as He.
  destruct Hwf as (Hc & Hl & Hh & Ht & H0 & Hpos & Hfull).
  set (w := flag_toWrite b len) in *.
  assert (Hwle : w <= mCapacity b - getAvailableInternal b)
    by (unfold w, flag_toWrite; lia).
  destruct (write_loop_spec (Z.to_nat w) 0 data (mBuffer b) (mHead b)
              (mCapacity b)) as (_ & Hlen' & _); [lia..|].
  unfold flag_wf. simpl. rewrite Hlen'.
  rewrite (advance_cases (mHead b) w (mCapacity b)) by lia.
  assert (Hnf : mIsFull b = false).
  { destruct (mIsFull b); [|reflexivity]. lia. }
  rewrite Hnf in *.
  repeat split; try lia; try (ltb_cases; lia).
  rewrite bool_decide_eq_true. intros Heq.
  destruct (Z.leb_spec (mTail b) (mHead b)); ltb_cases; lia.
Qed.

Lemma flag_write_avail b data len :
  flag_wf b -> 0 <= len ->
  getAvailableInternal (write b data len).1
  = getAvailableInternal b + flag_toWrite b len.
Proof.
  intros Hwf Hlen. pose proof (flag_avail_range b Hwf) as Ha.
  destruct (Z.eq_dec (flag_toWrite b len) 0) as [Hz|Hnz].
  { rewrite flag_write_noop by assumption. lia. }
  assert (Hw : 0 < flag_toWrite b len) by (unfold flag_toWrite in *; lia).
  rewrite flag_avail_explicit by (apply flag_write_wf; assumption).
  rewrite flag_write_state by assumption.
  pose proof (flag_avail_explicit b Hwf) as He.
  destruct Hwf as (Hc & Hl & Hh & Ht & H0 & Hpos & Hfull).
  set (w := flag_toWrite b len) in *.
  assert (Hwle : w <= mCapacity b - getAvailableInternal b)
    by (unfold w, flag_toWrite; lia).
  simpl. rewrite (advance_cases (mHead b) w (mCapacity b)) by lia.
  assert (Hnf : mIsFull b = false).
  { destruct (mIsFull b); [|reflexivity]. lia. }
  rewrite Hnf in *.
  case_bool_decide; [lia|].
  destruct (Z.leb_spec (mTail b) (mHead b)); ltb_cases; lia.
Qed.

Lemma flag_write_contents b data len :
  flag_wf b -> 0 <= len <= Z.of_nat (length data) ->
  flag_contents (write b data len).1
  = flag_contents b ++ take (Z.to_nat (flag_toWrite b len)) data.
Proof.
  intros Hwf Hlen. pose proof (flag_avail_range b Hwf) as Ha.
  destruct (Z.eq_dec (flag_toWrite b len) 0) as [Hz|Hnz].
  { rewrite flag_write_noop, Hz by assumption. simpl.
    rewrite app_nil_r. reflexivity. }
  assert (Hw : 0 < flag_toWrite b len) by (unfold flag_toWrite in *; lia).
  unfold flag_contents at 1.
  rewrite flag_write_avail by (assumption || lia).
  rewrite flag_write_state by assumption.
  pose proof (flag_avail_explicit b Hwf) as He.
  destruct Hwf as (Hc & Hl & Hh & Ht & H0 & Hpos & Hfull).
  set (w := flag_toWrite b len) in *.
  assert (Hwle : w <= mCapacity b - getAvailableInternal b)
    by (unfold w, flag_toWrite; lia).
  assert (Hwlen : w <= len) by (unfold w, flag_toWrite; lia).
  destruct (write_loop_spec (Z.to_nat w) 0 data (mBuffer b) (mHead b)
              (mCapacity b)) as (_ & _ & Hat); [lia..|].
  simpl. unfold flag_contents.
  set (a := getAvailableInternal b) in *.
  assert (Hnf : mIsFull b = false).
  { destruct (mIsFull b); [|reflexivity]. lia. }
  rewrite Hnf in *.
  apply (list_eq_same_length _ _ (Z.to_nat (a + w))).
  { rewrite length_app, length_ring, length_take. lia. }
  { apply length_ring. }
  intros i x y Hi. rewrite lookup_ring by exact Hi.
  intros [= <-]. rewrite Hat by (apply Z.mod_pos_bound; lia).
  rewrite Z2Nat.id by lia.
  destruct (Z.ltb_spec (Z.of_nat i) a) as [Hia|Hia].
  - rewrite lookup_app_l by (rewrite length_ring; lia).
    rewrite lookup_ring by lia. intros [= <-].
    rewrite (advance_cases (mTail b) (Z.of_nat i) (mCapacity b)) by lia.
    destruct (Z.leb_spec (mTail b) (mHead b));
      destruct (Z.ltb_spec (mTail b + Z.of_nat i) (mCapacity b));
      mod_simpl; ltb_cases; reflexivity.
  - rewrite lookup_app_r by (rewrite length_ring; lia).
    rewrite length_ring, lookup_take_lt by lia.
    intros Hy. apply list_lookup_total_correct in Hy. subst y.
    rewrite (advance_cases (mTail b) (Z.of_nat i) (mCapacity b)) by lia.
    destruct (Z.leb_spec (mTail b) (mHead b));
      destruct (Z.ltb_spec (mTail b + Z.of_nat i) (mCapacity b));
      mod_simpl; ltb_cases; f_equal; lia.
Qed.

Lemma flag_read_noop b len :
  flag_toRead b len = 0 -> read b len = (b, [], 0).
Proof.
  intros Hr. unfold read. fold (flag_toRead b len). rewrite Hr. reflexivity.
Qed.

Lemma flag_read_state b len :
  flag_wf b -> 0 < flag_toRead b len ->
  let r := flag_toRead b len in
  read b len
  = ({| mBuffer := mBuffer b; mHead := mHead b;
        mTail := advance (mTail b) r (mCapacity b);
        mIsFull := false; mCapacity := mCapacity b |},
     ring (mBuffer b) (mTail b) (mCapacity b) (Z.to_nat r), r).
Proof.
  intros Hwf Hr r. pose proof (flag_avail_range b Hwf) as Ha.
  destruct Hwf as (Hc & Hl & Hh & Ht & H0 & Hpos & Hfull).
  assert (Hrle : r <= getAvailableInternal b)
    by (unfold r, flag_toRead; lia).
  unfold read. fold (flag_toRead b len). fold r.
  destruct (Z.eqb_spec r 0) as [|_]; [lia|].
  rewrite read_loop_ring by lia. rewrite Z2Nat.id by lia. reflexivity.
Qed.

Lemma flag_read_count b len :
  flag_wf b -> 0 <= len -> (read b len).2 = flag_toRead b len.
Proof.
  intros Hwf Hlen. pose proof (flag_avail_range b Hwf) as Ha.
  destruct (Z.eq_dec (flag_toRead b len) 0) as [Hz|Hnz].
  - rewrite flag_read_noop, Hz by assumption. reflexivity.
  - rewrite flag_read_state by (unfold flag_toRead in *; assumption || lia).
    reflexivity.
Qed.

Lemma flag_read_capacity b len : mCapacity (read b len).1.1 = mCapacity b.
Proof.
  unfold read. destruct (_ =? 0); [reflexivity|].
  destruct (read_loop _ _ _ _). reflexivity.
Qed.

Lemma flag_read_wf b len :
  flag_wf b -> 0 <= len -> flag_wf (read b len).1.1.
Proof.
  intros Hwf Hlen. pose proof (flag_avail_range b Hwf) as Ha.
  destruct (Z.eq_dec (flag_toRead b len) 0) as [Hz|Hnz].
  { rewrite flag_read_noop by assumption. exact Hwf. }
  rewrite flag_read_state by (unfold flag_toRead in *; assumption || lia).
  destruct Hwf as (Hc & Hl & Hh & Ht & H0 & Hpos & Hfull).
  assert (Hr : 0 < flag_toRead b len <= mCapacity b)
    by (unfold flag_toRead in *; lia).
  unfold flag_wf. simpl.
  pose proof (Z.mod_pos_bound (mTail b + flag_toRead b len) (mCapacity b)).
  unfold advance. repeat split; try lia; discriminate.
Qed.

Lemma flag_read_avail b len :
  flag_wf b -> 0 <= len ->
  getAvailableInternal (read b len).1.1
  = getAvailableInternal b - flag_toRead b len.
Proof.
  intros Hwf Hlen. pose proof (flag_avail_range b Hwf) as Ha.
  destruct (Z.eq_dec (flag_toRead b len) 0) as [Hz|Hnz].
  { rewrite flag_read_noop by assumption. simpl. lia. }
  rewrite flag_avail_explicit by (apply flag_read_wf; assumption).
  rewrite flag_read_state by (unfold flag_toRead in *; assumption || lia).
  pose proof (flag_avail_explicit b Hwf) as He.
  destruct Hwf as (Hc & Hl & Hh & Ht & H0 & Hpos & Hfull).
  set (r := flag_toRead b len) in *.
  assert (Hr : 0 < r <= getAvailableInternal b)
    by (unfold r, flag_toRead in *; lia).
  simpl. rewrite (advance_cases (mTail b) r (mCapacity b)) by lia.
  destruct (mIsFull b).
  - specialize (Hfull eq_refl). ltb_cases; lia.
  - destruct (Z.leb_spec (mTail b) (mHead b)); ltb_cases; lia.
Qed.

(** [read] delivers the oldest bytes and keeps the rest. *)
Lemma flag_read_dest b len :
  flag_wf b -> 0 <= len ->
  (read b len).1.2 = take (Z.to_nat (flag_toRead b len)) (flag_contents b).
Proof.
  intros Hwf Hlen. pose proof (flag_avail_range b Hwf) as Ha.
  destruct (Z.eq_dec (flag_toRead b len) 0) as [Hz|Hnz].
  { rewrite flag_read_noop, Hz by assumption. reflexivity. }
  rewrite flag_read_state by (unfold flag_toRead in *; assumption || lia).
  simpl. unfold flag_contents. rewrite take_ring; [reflexivity|].
  unfold flag_toRead. lia.
Qed.

Lemma flag_read_contents b len :
  flag_wf b -> 0 <= len ->
  flag_contents (read b len).1.1
  = drop (Z.to_nat (flag_toRead b len)) (flag_contents b).
Proof.
  intros Hwf Hlen. pose proof (flag_avail_range b Hwf) as Ha.
  destruct (Z.eq_dec (flag_toRead b len) 0) as [Hz|Hnz].
  { rewrite flag_read_noop, Hz by assumption. reflexivity. }
  unfold flag_contents at 1. rewrite flag_read_avail by assumption.
  rewrite flag_read_state by (unfold flag_toRead in *; assumption || lia).
  simpl. unfold flag_contents.
  assert (Hr : 0 < flag_toRead b len <= getAvailableInternal b)
    by (unfold flag_toRead in *; lia).
  destruct Hwf as (Hc & Hl & Hh & Ht & H0 & Hpos & Hfull).
  rewrite drop_ring by lia. rewrite Z2Nat.id by lia.
  f_equal. lia.
Qed.


Lemma flag_new_contents c : flag_contents (new c) = [].
Proof. reflexivity. Qed.

Lemma flag_clear_contents b : flag_contents (clear b) = [].
Proof. reflexivity. Qed.

Lemma flag_inv_of_cursors b :
  0 <= mCapacity b < size_modulus ->
  0 <= mHead b < mCapacity b -> 0 <= mTail b < mCapacity b ->
  flag_inv b.
Proof.
  intros Hc Hh Ht.
  unfold flag_inv, available, capacity, isFullInternal, isEmptyInternal,
    getAvailableInternal.
  split; [exact Hc|].
  assert (Hgoal : forall av e f : Prop,
    av -> f -> e -> av /\ 0 <= mHead b < mCapacity b
    /\ 0 <= mTail b < mCapacity b /\ f /\ e) by tauto.
  destruct (mIsFull b); simpl.
  - apply Hgoal; [lia | tauto | split; [discriminate | lia]].
  - destruct (Z.leb_spec (mTail b) (mHead b)).
    + rewrite sz_small by lia.
      apply Hgoal; [lia | split; [discriminate | lia] |].
      rewrite Z.eqb_eq. lia.
    + rewrite (sz_small (mCapacity b - mTail b)) by lia.
      rewrite sz_small by lia.
      apply Hgoal; [lia | split; [discriminate | lia] |].
      rewrite Z.eqb_eq. lia.
Qed.

Lemma flag_inv_cursors b :
  flag_inv b ->
  0 <= mCapacity b < size_modulus
  /\ 0 <= mHead b < mCapacity b /\ 0 <= mTail b < mCapacity b.
Proof. unfold flag_inv, capacity. tauto. Qed.

End FlagFacts.

(** ** The two versions of Buffer.cpp, side by side *)

Section Simulation.
Import BufferFlag BufferCount.

Lemma sim_new c :
  0 <= c <= vector_max_size -> sim (BufferCount.new c) (BufferFlag.new c).
Proof.
  intros Hc. pose proof vector_max_size_lt.
  unfold sim. simpl. do 5 (split; [reflexivity|]).
  split; [apply flag_new_wf; lia | lia].
Qed.

Lemma sim_clear a b :
  sim a b -> sim (BufferCount.clear a) (BufferFlag.clear b).
Proof.
  intros (Hb & Hr & Hw & Hc & Ha & Hwf & Hmax).
  unfold sim. simpl. split; [exact Hb|]. do 2 (split; [reflexivity|]).
  split; [exact Hc|]. split; [reflexivity|].
  split; [apply flag_clear_wf; exact Hwf | exact Hmax].
Qed.

Lemma sim_write a b data len :
  sim a b -> 0 <= len <= Z.of_nat (length data) ->
  (BufferCount.write a data len).2 = (BufferFlag.write b data len).2
  /\ sim (BufferCount.write a data len).1 (BufferFlag.write b data len).1.
Proof.
  intros (Hb & Hr & Hw & Hc & Ha & Hwf & Hmax) Hlen.
  pose proof vector_max_size_lt as Hvm.
  pose proof (flag_avail_range b Hwf) as Hav.
  pose proof (flag_write_wf b data len Hwf (proj1 Hlen)) as Hwf'.
  pose proof (flag_write_avail b data len Hwf (proj1 Hlen)) as Hav'.
  rewrite flag_write_count by exact Hwf.
  destruct (Z.eq_dec (flag_toWrite b len) 0) as [Hz|Hnz].
  { rewrite flag_write_noop by assumption.
    unfold BufferCount.write. rewrite Hc, Ha, sz_small by lia.
    fold (flag_toWrite b len). rewrite Hz. simpl.
    split; [reflexivity|]. unfold sim. tauto. }
  assert (Hpos : 0 < flag_toWrite b len) by (unfold flag_toWrite in *; lia).
  rewrite flag_write_state in * by assumption.
  set (w := flag_toWrite b len) in *.
  assert (Hwle : w <= mCapacity b - getAvailableInternal b)
    by (unfold w, flag_toWrite; lia).
  assert (Hwlen : w <= len) by (unfold w, flag_toWrite; lia).
  destruct Hwf as (Hcap & Hl & Hh & Ht & H0 & Hp & Hfull).
  destruct (write_loop_spec (Z.to_nat w) 0 data (mBuffer b) (mHead b)
              (mCapacity b)) as (_ & Hlen' & Hat); [lia..|].
  unfold BufferCount.write. rewrite Hc, Ha, Hw, Hb.
  rewrite (sz_small (mCapacity b - getAvailableInternal b)) by lia.
  fold (flag_toWrite b len). fold w.
  destruct (Z.eqb_spec w 0) as [|_]; [lia|]. simpl.
  split; [reflexivity|].
  unfold sim. simpl. rewrite Hr.
  rewrite !sz_small by lia.
  split; [|do 3 (split; [reflexivity|]);
            split; [lia | split; [exact Hwf' | exact Hmax]]].
  set (c1 := Z.min w (mCapacity b - mHead b)).
  set (buf1 := memcpy_to (mBuffer b) (mHead b) data c1).
  assert (Hl1 : length buf1 = length (mBuffer b))
    by (apply length_memcpy_to; lia).
  assert (Hl2 : length (memcpy_to buf1 0 (drop (Z.to_nat c1) data) (w - c1))
                = length (mBuffer b)).
  { rewrite <- Hl1. apply length_memcpy_to; rewrite ?length_drop; lia. }
  apply vector_ext.
  - rewrite Hlen'. destruct (c1 <? w); assumption.
  - intros j Hj.
    assert (Hj' : 0 <= j < mCapacity b) by (destruct (c1 <? w); lia).
    clear Hj. rewrite Hat by exact Hj'. rewrite Z2Nat.id by lia.
    destruct (Z.ltb_spec c1 w) as [Hc1|Hc1].
    + rewrite at_memcpy_to by (rewrite ?length_drop; lia).
      rewrite at_drop by lia. unfold buf1.
      rewrite at_memcpy_to by lia.
      destruct (Z.ltb_spec j (mHead b)); mod_simpl; ltb_cases;
        simpl; unfold at_; try reflexivity; f_equal; lia.
    + unfold buf1. rewrite at_memcpy_to by lia.
      destruct (Z.ltb_spec j (mHead b)); mod_simpl; ltb_cases;
        simpl; unfold at_; try reflexivity; f_equal; lia.
Qed.

Lemma sim_read a b len :
  sim a b -> 0 <= len ->
  (BufferCount.read a len).2 = (BufferFlag.read b len).2
  /\ (BufferCount.read a len).1.2 = (BufferFlag.read b len).1.2
  /\ sim (BufferCount.read a len).1.1 (BufferFlag.read b len).1.1.
Proof.
  intros (Hb & Hr & Hw & Hc & Ha & Hwf & Hmax) Hlen.
  pose proof vector_max_size_lt as Hvm.
  pose proof (flag_avail_range b Hwf) as Hav.
  pose proof (flag_read_wf b len Hwf Hlen) as Hwf'.
  pose proof (flag_read_avail b len Hwf Hlen) as Hav'.
  destruct (Z.eq_dec (flag_toRead b len) 0) as [Hz|Hnz].
  { rewrite flag_read_noop by assumption.
    unfold BufferCount.read. rewrite Ha.
    fold (flag_toRead b len). rewrite Hz. simpl.
    do 2 (split; [reflexivity|]). unfold sim. tauto. }
  assert (Hpos : 0 < flag_toRead b len) by (unfold flag_toRead in *; lia).
  rewrite flag_read_state in * by assumption.
  set (r := flag_toRead b len) in *.
  assert (Hrle : r <= getAvailableInternal b)
    by (unfold r, flag_toRead; lia).
  destruct Hwf as (Hcap & Hl & Hh & Ht & H0 & Hp & Hfull).
  unfold BufferCount.read. rewrite Hc, Ha, Hr, Hw, Hb.
  fold (flag_toRead b len). fold r.
  destruct (Z.eqb_spec r 0) as [|_]; [lia|]. simpl.
  rewrite !sz_small by lia.
  split; [reflexivity|]. split.
  - set (c1 := Z.min r (mCapacity b - mTail b)).
    apply (list_eq_same_length _ _ (Z.to_nat r)).
    { apply length_ring. }
    { rewrite length_app, length_memcpy_from by lia.
      destruct (Z.ltb_spec c1 r); [rewrite length_memcpy_from|simpl]; lia. }
    intros i x y Hi Hx. rewrite lookup_ring by exact Hi. intros [= <-].
    rewrite (advance_cases (mTail b) (Z.of_nat i) (mCapacity b)) by lia.
    destruct (Z.ltb_spec (Z.of_nat i) c1) as [Hi1|Hi1].
    + rewrite lookup_app_l in Hx by (rewrite length_memcpy_from; lia).
      rewrite lookup_memcpy_from in Hx by lia.
      injection Hx as <-. ltb_cases. reflexivity.
    + rewrite lookup_app_r in Hx by (rewrite length_memcpy_from; lia).
      rewrite length_memcpy_from in Hx by lia.
      destruct (Z.ltb_spec c1 r); [|simpl in Hx; discriminate].
      rewrite lookup_memcpy_from in Hx by lia.
      injection Hx as <-. ltb_cases. f_equal. lia.
  - unfold sim. do 4 (split; [reflexivity|]).
    split; [symmetry; exact Hav' | split; [exact Hwf' | exact Hmax]].
Qed.

Lemma count_wf_sim a : count_wf a -> sim a (to_flag a).
Proof.
  intros (Hc & Hl & Hr & Hw & Ha & H0 & Hp).
  pose proof vector_max_size_lt as Hvm.
  assert (Hwf : flag_wf (to_flag a)).
  { unfold flag_wf, to_flag. simpl.
    split; [lia|]. split; [exact Hl|]. split; [exact Hw|].
    split; [exact Hr|]. split; [|split].
    - intros Hz. rewrite Hz. simpl. split; [|split]; [lia..|reflexivity].
    - intros Hpos. destruct (Hp Hpos) as [Hrp Hwp]. split; [|lia].
      rewrite Hwp. apply Z.mod_pos_bound. lia.
    - intros Hfull. apply andb_true_iff in Hfull as [Hpos Heq].
      apply Z.ltb_lt in Hpos. apply Z.eqb_eq in Heq.
      destruct (Hp Hpos) as [Hrp Hwp]. rewrite Hwp, Heq.
      unfold advance. mod_simpl. lia. }
  unfold sim. do 4 (split; [reflexivity|]).
  split; [|split; [exact Hwf | simpl; lia]].
  rewrite flag_avail_explicit by exact Hwf. unfold to_flag. simpl.
  destruct (Z.ltb_spec 0 (m_capacity a)) as [Hpos|Hpos]; simpl.
  - destruct (Hp Hpos) as [Hrp Hwp].
    destruct (Z.eqb_spec (m_dataAvailable a) (m_capacity a)); [lia|].
    rewrite Hwp.
    rewrite (advance_cases (m_readPos a) (m_dataAvailable a)) by lia.
    ltb_cases; lia.
  - destruct H0 as [-> ->]; [lia|]. simpl. lia.
Qed.

Lemma sim_count_wf a b : sim a b -> count_wf a.
Proof.
  intros (Hb & Hr & Hw & Hc & Ha & Hwf & Hmax).
  pose proof (flag_avail_range b Hwf) as Hav.
  pose proof (flag_avail_explicit b Hwf) as He.
  destruct Hwf as (Hcap & Hl & Hh & Ht & H0 & Hp & Hfull).
  unfold count_wf. rewrite Hb, Hr, Hw, Hc, Ha.
  split; [lia|]. split; [exact Hl|]. split; [exact Ht|].
  split; [exact Hh|]. split; [exact Hav|]. split; [tauto|].
  intros Hpos. split; [lia|].
  rewrite (advance_cases (mTail b) (getAvailableInternal b)) by lia.
  rewrite He. destruct (mIsFull b).
  - specialize (Hfull eq_refl). ltb_cases; lia.
  - ltb_cases; lia.
Qed.

Lemma sim_contents a b : sim a b -> count_contents a = flag_contents b.
Proof.
  intros (Hb & Hr & Hw & Hc & Ha & _).
  unfold count_contents, flag_contents. rewrite Hb, Hr, Hc, Ha.
  reflexivity.
Qed.

End Simulation.

(** ** Sequences of calls *)

Section Runs.

Lemma flag_step_wf b o :
  flag_wf b -> op_ok o -> flag_wf (flag_step b o).1.
Proof.
  intros Hwf Hok. destruct o as [data len|len|]; simpl in *.
  - pose proof (flag_write_wf b data len Hwf (proj1 Hok)) as H.
    destruct (BufferFlag.write b data len). exact H.
  - pose proof (flag_read_wf b len Hwf Hok) as H.
    destruct (BufferFlag.read b len) as [[b' d] n]. exact H.
  - apply flag_clear_wf. exact Hwf.
Qed.

Lemma flag_step_capacity b o :
  BufferFlag.mCapacity (flag_step b o).1 = BufferFlag.mCapacity b.
Proof.
  destruct o as [data len|len|]; simpl.
  - pose proof (flag_write_capacity b data len) as H.
    destruct (BufferFlag.write b data len). exact H.
  - pose proof (flag_read_capacity b len) as H.
    destruct (BufferFlag.read b len) as [[b' d] n]. exact H.
  - reflexivity.
Qed.

Lemma flag_step_ledger b o :
  flag_wf b -> op_ok o ->
  BufferFlag.available (flag_step b o).1
  = ledger_step (BufferFlag.available b) (flag_step b o).2.
Proof.
  intros Hwf Hok. unfold BufferFlag.available.
  destruct o as [data len|len|]; simpl in *.
  - pose proof (flag_write_avail b data len Hwf (proj1 Hok)) as H.
    pose proof (flag_write_count b data len Hwf) as Hn.
    destruct (BufferFlag.write b data len). simpl in *. lia.
  - pose proof (flag_read_avail b len Hwf Hok) as H.
    pose proof (flag_read_count b len Hwf Hok) as Hn.
    destruct (BufferFlag.read b len) as [[b' d] n]. simpl in *. lia.
  - reflexivity.
Qed.

Lemma flag_run_wf ops : forall b,
  flag_wf b -> Forall op_ok ops -> flag_wf (flag_run b ops).1.
Proof.
  induction ops as [|o ops IH]; intros b Hwf Hok; [exact Hwf|].
  apply Forall_cons in Hok as [Ho Hok]. simpl.
  pose proof (flag_step_wf b o Hwf Ho) as H1.
  destruct (flag_step b o) as [b' r]. simpl in H1.
  specialize (IH b' H1 Hok).
  destruct (flag_run b' ops). exact IH.
Qed.


Lemma flag_run_ledger ops : forall b,
  flag_wf b -> Forall op_ok ops ->
  BufferFlag.available (flag_run b ops).1
  = ledger_from (BufferFlag.available b) (flag_run b ops).2.
Proof.
  induction ops as [|o ops IH]; intros b Hwf Hok; [reflexivity|].
  apply Forall_cons in Hok as [Ho Hok]. simpl.
  pose proof (flag_step_wf b o Hwf Ho) as H1.
  pose proof (flag_step_ledger b o Hwf Ho) as H2.
  destruct (flag_step b o) as [b' r]. simpl in H1, H2.
  specialize (IH b' H1 Hok).
  destruct (flag_run b' ops) as [b'' t]. simpl in *.
  unfold ledger_from in *. simpl. rewrite <- H2. exact IH.
Qed.

Lemma sim_step a b o :
  sim a b -> op_ok o ->
  (count_step a o).2 = (flag_step b o).2
  /\ sim (count_step a o).1 (flag_step b o).1.
Proof.
  intros Hsim Hok. destruct o as [data len|len|]; simpl in *.
  - destruct (sim_write a b data len Hsim Hok) as [Hn Hs].
    destruct (BufferCount.write a data len), (BufferFlag.write b data len).
    simpl in *. subst. split; [reflexivity | exact Hs].
  - destruct (sim_read a b len Hsim Hok) as (Hn & Hd & Hs).
    destruct (BufferCount.read a len) as [[a' d] n].
    destruct (BufferFlag.read b len) as [[b' d'] n'].
    simpl in *. subst. split; [reflexivity | exact Hs].
  - split; [reflexivity | apply sim_clear; exact Hsim].
Qed.

Lemma sim_run ops : forall a b,
  sim a b -> Forall op_ok ops ->
  (count_run a ops).2 = (flag_run b ops).2
  /\ sim (count_run a ops).1 (flag_run b ops).1.
Proof.
  induction ops as [|o ops IH]; intros a b Hsim Hok.
  - split; [reflexivity | exact Hsim].
  - apply Forall_cons in Hok as [Ho Hok]. simpl.
    destruct (sim_step a b o Hsim Ho) as [Hr Hs].
    destruct (count_step a o) as [a' r], (flag_step b o) as [b' r'].
    simpl in Hr, Hs. subst r'.
    destruct (IH a' b' Hs Hok) as [Ht Hs'].
    destruct (count_run a' ops) as [a'' t], (flag_run b' ops) as [b'' t'].
    simpl in *. subst t'. split; [|exact Hs'].
    f_equal. f_equal. unfold BufferFlag.available.
    destruct Hs as (_ & _ & _ & _ & Ha & _). exact Ha.
Qed.

Lemma flag_run_ledger_at ops : forall b k r av,
  flag_wf b -> Forall op_ok ops ->
  (flag_run b ops).2 !! k = Some (r, av) ->
  av = ledger_from (BufferFlag.available b) (take (S k) (flag_run b ops).2).
Proof.
  induction ops as [|o ops IH]; intros b k r av Hwf Hok Hk;
    [discriminate|].
  apply Forall_cons in Hok as [Ho Hok]. simpl in Hk |- *.
  pose proof (flag_step_wf b o Hwf Ho) as H1.
  pose proof (flag_step_ledger b o Hwf Ho) as H2.
  destruct (flag_step b o) as [b' r0]. simpl in H1, H2.
  specialize (IH b'). destruct (flag_run b' ops) as [b'' t]. simpl in *.
  unfold ledger_from in *. destruct k as [|k]; simpl in *.
  - injection Hk as <- <-. destruct t; simpl; exact H2.
  - rewrite <- H2. apply (IH k r av H1 Hok Hk).
Qed.

End Runs.

(** ** Section 8 of the specification: the circular buffer *)

Section BufferProperties.
Import BufferFlag.



Lemma roundtrip_on_empty (b : Buffer) (data : list byte) :
  flag_wf b -> getAvailableInternal b = 0 ->
  Z.of_nat (length data) <= mCapacity b ->
  let n := Z.of_nat (length data) in
  (write b data n).2 = n /\ (read (write b data n).1 n).2 = n
  /\ (read (write b data n).1 n).1.2 = data.
Proof.
  intros Hwf Hempty Hn n.
  assert (Hlen : 0 <= n <= Z.of_nat (length data)) by lia.
  assert (Hw : flag_toWrite b n = n) by (unfold flag_toWrite; lia).
  pose proof (flag_write_wf b data n Hwf (proj1 Hlen)) as Hwf'.
  pose proof (flag_write_avail b data n Hwf (proj1 Hlen)) as Hav.
  pose proof (flag_write_contents b data n Hwf Hlen) as Hct.
  rewrite Hw, Hempty in Hav. rewrite Hw in Hct.
  unfold flag_contents at 2 in Hct. rewrite Hempty in Hct. simpl in Hct.
  assert (Hr : flag_toRead (write b data n).1 n = n)
    by (unfold flag_toRead; lia).
  split; [|split].
  - rewrite flag_write_count by exact Hwf. exact Hw.
  - rewrite flag_read_count by (exact Hwf' || lia). exact Hr.
  - rewrite flag_read_dest by (exact Hwf' || lia).
    rewrite Hr, Hct. unfold n. rewrite Nat2Z.id.
    rewrite take_take, Nat.min_id. apply firstn_all.
Qed.

Lemma flag_step_inv b o : flag_inv b -> flag_inv (flag_step b o).1.
Proof.
  intros Hinv. destruct (flag_inv_cursors b Hinv) as (Hc & Hh & Ht).
  destruct o as [data len|len|]; simpl.
  - unfold write. destruct (_ =? 0); [exact Hinv|].
    pose proof (write_loop_head_range
      (Z.to_nat (Z.min len (sz (mCapacity b - getAvailableInternal b))))
      0 data (mBuffer b) (mHead b) (mCapacity b)) as Hr.
    destruct (write_loop _ _ _ _ _ _) as [buf head]. simpl in *.
    apply flag_inv_of_cursors; simpl; [assumption | apply Hr; lia | assumption].
  - unfold read. destruct (_ =? 0); [exact Hinv|].
    rewrite read_loop_ring by lia. simpl.
    apply flag_inv_of_cursors; simpl; [assumption | assumption |].
    apply Z.mod_pos_bound. lia.
  - apply flag_inv_of_cursors; simpl; [assumption | lia | lia].
Qed.

Lemma write_all_spec chunks : forall b,
  flag_wf b ->
  getAvailableInternal b + Z.of_nat (length (concat chunks)) <= mCapacity b ->
  (write_all b chunks).2 = (fun d => Z.of_nat (length d)) <$> chunks
  /\ flag_wf (write_all b chunks).1
  /\ getAvailableInternal (write_all b chunks).1
     = getAvailableInternal b + Z.of_nat (length (concat chunks))
  /\ flag_contents (write_all b chunks).1 = flag_contents b ++ concat chunks.
Proof.
  induction chunks as [|d chunks IH]; intros b Hwf Hroom; simpl in *.
  - split; [reflexivity|]. split; [exact Hwf|]. split; [lia|].
    rewrite app_nil_r. reflexivity.
  - rewrite length_app in Hroom.
    pose proof (flag_avail_range b Hwf) as Ha.
    assert (Hlen : 0 <= Z.of_nat (length d) <= Z.of_nat (length d)) by lia.
    assert (Hw : flag_toWrite b (Z.of_nat (length d)) = Z.of_nat (length d))
      by (unfold flag_toWrite; lia).
    pose proof (flag_write_count b d (Z.of_nat (length d)) Hwf) as Hn.
    pose proof (flag_write_wf b d _ Hwf (proj1 Hlen)) as Hwf'.
    pose proof (flag_write_avail b d _ Hwf (proj1 Hlen)) as Hav.
    pose proof (flag_write_contents b d _ Hwf Hlen) as Hct.
    pose proof (flag_write_capacity b d (Z.of_nat (length d))) as Hcap.
    rewrite Hw in Hn, Hav, Hct. rewrite Nat2Z.id, firstn_all in Hct.
    destruct (write b d (Z.of_nat (length d))) as [b' n]. simpl in *.
    destruct (IH b' Hwf') as (I1 & I2 & I3 & I4); [lia|].
    destruct (write_all b' chunks) as [b'' ns]. simpl in *.
    split; [f_equal; assumption|]. split; [exact I2|].
    split; [rewrite length_app; lia|].
    rewrite I4, Hct, app_assoc. reflexivity.
Qed.

(** C1. No loss, no duplication: on an empty buffer (fresh or not:
    the cursors may be anywhere), one [write] of [n <= capacity] bytes
    followed by one [read] of [n] bytes returns [n] both times and
    delivers exactly the bytes written, in order; and the same when the
    bytes are written in several chunks of total length [<= capacity] and
    read back in one call. *)
Theorem write_then_read_roundtrip (b : Buffer) (data : list byte)
    (chunks : list (list byte)) :
  flag_wf b -> available b = 0 ->
  Z.of_nat (length data) <= capacity b ->
  Z.of_nat (length (concat chunks)) <= capacity b ->
  let n := Z.of_nat (length data) in
  let w := write b data n in
  let r := read w.1 n in
  let total := Z.of_nat (length (concat chunks)) in
  let ws := write_all b chunks in
  let rs := read ws.1 total in
  (w.2 = n /\ r.2 = n /\ r.1.2 = data)
  /\ (ws.2 = (fun d => Z.of_nat (length d)) <$> chunks
      /\ rs.2 = total /\ rs.1.2 = concat chunks).
Proof.
  intros Hwf Hempty Hn Htotal n w r total ws rs.
  split; [apply roundtrip_on_empty; assumption|].
  unfold available, capacity in *.
  destruct (write_all_spec chunks b Hwf) as (W1 & W2 & W3 & W4); [lia|].
  fold ws in W1, W2, W3, W4. fold total in W3.
  unfold flag_contents at 2 in W4. rewrite Hempty in W4. simpl in W4.
  assert (Hr : flag_toRead ws.1 total = total)
    by (unfold flag_toRead; lia).
  split; [exact W1|]. split.
  - unfold rs. rewrite flag_read_count by (exact W2 || lia). exact Hr.
  - unfold rs. rewrite flag_read_dest by (exact W2 || lia).
    rewrite Hr, W4. unfold total. rewrite Nat2Z.id. apply firstn_all.
Qed.

Lemma write_then_read_roundtrip_witness :
  let w := write drained8 [x0a; x0b; x0c; x0d; x0e] 5 in
  let r := read w.1 5 in
  let ws := write_all drained8 [writeData2; []; [x0d; x0e; x0f]] in
  let rs := read ws.1 7 in
  (w.2 = 5 /\ r.2 = 5 /\ r.1.2 = [x0a; x0b; x0c; x0d; x0e])
  /\ (ws.2 = [4; 0; 3] /\ rs.2 = 7
      /\ rs.1.2 = [x09; x0a; x0b; x0c; x0d; x0e; x0f]).
Proof.
  apply (write_then_read_roundtrip drained8 [x0a; x0b; x0c; x0d; x0e]
           [writeData2; []; [x0d; x0e; x0f]]).
  - evaluate.
  - evaluate.
  - evaluate.
  - evaluate.
Defined.

(** C2. The wrap-around scenario of the specification and of
    testBuffer.cpp (CircularWrapAround), run on both versions of the
    buffer: capacity 10, write [1..8], read 6, write [9..12], read 6. *)
Theorem wrap_around_scenario :
  (let '(b1, w1) := BufferFlag.write (BufferFlag.new 10) writeData1 8 in
   let '(b2, d1, r1) := BufferFlag.read b1 6 in
   let '(b3, w2) := BufferFlag.write b2 writeData2 4 in
   let '(b4, d2, r2) := BufferFlag.read b3 6 in
   (w1, d1, r1, BufferFlag.available b2, w2, BufferFlag.available b3,
    d2, r2, BufferFlag.mHead b3)
   = (8, [x01; x02; x03; x04; x05; x06], 6, 2, 4, 6,
      [x07; x08; x09; x0a; x0b; x0c], 6, 2))
  /\ (let '(a1, w1) := BufferCount.write (BufferCount.new 10) writeData1 8 in
      let '(a2, d1, r1) := BufferCount.read a1 6 in
      let '(a3, w2) := BufferCount.write a2 writeData2 4 in
      let '(a4, d2, r2) := BufferCount.read a3 6 in
      (w1, d1, r1, BufferCount.getAvailable a2, w2,
       BufferCount.getAvailable a3, d2, r2, BufferCount.m_writePos a3)
      = (8, [x01; x02; x03; x04; x05; x06], 6, 2, 4, 6,
         [x07; x08; x09; x0a; x0b; x0c], 6, 2)).
Proof. split; vm_compute; reflexivity. Qed.

(** C3. [write] copies the first [min(len, capacity - occupied)] bytes of
    [data] behind the bytes already stored and returns that count, which
    lies between 0 and [len]; with capacity 10 and 8 bytes stored, a write
    of 5 bytes returns 2 and leaves [available() = 10]. Both versions of
    the buffer. *)
Theorem write_is_partial (b : BufferFlag.Buffer) (a : BufferCount.Buffer)
    (data : list byte) (len : Z) :
  flag_wf b -> count_wf a -> 0 <= len <= Z.of_nat (length data) ->
  let n := Z.min len (capacity b - available b) in
  let m := Z.min len (BufferCount.m_capacity a - BufferCount.getAvailable a) in
  ((write b data len).2 = n /\ 0 <= n <= len
   /\ flag_contents (write b data len).1
      = flag_contents b ++ take (Z.to_nat n) data
   /\ available (write b data len).1 = available b + n
   /\ (capacity b = 10 -> available b = 8 -> len = 5 ->
       (write b data len).2 = 2 /\ available (write b data len).1 = 10))
  /\ ((BufferCount.write a data len).2 = m /\ 0 <= m <= len
      /\ count_contents (BufferCount.write a data len).1
         = count_contents a ++ take (Z.to_nat m) data
      /\ BufferCount.getAvailable (BufferCount.write a data len).1
         = BufferCount.getAvailable a + m
      /\ (BufferCount.m_capacity a = 10 -> BufferCount.getAvailable a = 8 ->
          len = 5 ->
          (BufferCount.write a data len).2 = 2
          /\ BufferCount.getAvailable (BufferCount.write a data len).1 = 10)).
Proof.
  intros Hwf Hcwf Hlen n m.
  assert (Hflag : forall b', flag_wf b' ->
    let n' := Z.min len (capacity b' - available b') in
    (write b' data len).2 = n' /\ 0 <= n' <= len
    /\ flag_contents (write b' data len).1
       = flag_contents b' ++ take (Z.to_nat n') data
    /\ available (write b' data len).1 = available b' + n').
  { intros b' Hwf' n'. pose proof (flag_avail_range b' Hwf') as Ha.
    unfold available, capacity in *.
    change n' with (flag_toWrite b' len).
    split; [apply flag_write_count; exact Hwf'|].
    split; [unfold flag_toWrite; lia|].
    split; [apply flag_write_contents; assumption|].
    apply flag_write_avail; [exact Hwf' | lia]. }
  split.
  - destruct (Hflag b Hwf) as (H1 & H2 & H3 & H4). fold n in H1, H2, H3, H4.
    do 4 (split; [assumption|]).
    intros Hc Ha Hl. rewrite H4, H1. unfold n. lia.
  - pose proof (count_wf_sim a Hcwf) as Hsim.
    destruct (sim_write a (to_flag a) data len Hsim Hlen) as [Hn Hs].
    destruct (Hflag (to_flag a) (proj1 (proj2 (proj2 (proj2 (proj2
               (proj2 Hsim))))))) as (H1 & H2 & H3 & H4).
    destruct Hsim as (_ & _ & _ & Hc & Ha & _).
    unfold available, capacity, BufferCount.getAvailable in *.
    rewrite <- Hc, <- Ha in H1, H2, H3, H4. fold m in H1, H2, H3, H4.
    rewrite (sim_contents _ _ Hs), (sim_contents _ _ (count_wf_sim a Hcwf)).
    destruct Hs as (_ & _ & _ & _ & Ha' & _).
    rewrite Hn, Ha'.
    do 4 (split; [assumption|]).
    intros Hc10 Ha8 Hl. rewrite H4, H1. unfold m. lia.
Qed.

Lemma write_is_partial_witness :
  (write holding8 [x09; x0a; x0b; x0c; x0d] 5).2 = 2
  /\ available (write holding8 [x09; x0a; x0b; x0c; x0d] 5).1 = 10
  /\ (BufferCount.write count_holding8 [x09; x0a; x0b; x0c; x0d] 5).2 = 2
  /\ BufferCount.getAvailable
       (BufferCount.write count_holding8 [x09; x0a; x0b; x0c; x0d] 5).1
     = 10.
Proof.
  destruct (write_is_partial holding8 count_holding8
              [x09; x0a; x0b; x0c; x0d] 5)
    as [(_ & _ & _ & _ & Hf) (_ & _ & _ & _ & Hc)].
  - evaluate.
  - evaluate.
  - evaluate.
  - destruct Hf as [Hf1 Hf2]; [reflexivity..|].
    destruct Hc as [Hc1 Hc2]; [reflexivity..|].
    repeat split; assumption.
Defined.

(** C4. Empty versus full: filling a fresh buffer to its capacity makes
    [available() = capacity()], draining it makes [available() = 0], and
    [mHead = mTail] in both states; after [clear()], on any buffer, a full
    fill returns the capacity and the drain delivers the bytes written. *)
Theorem fill_then_drain (c : Z) (data : list byte) (b : Buffer)
    (data' : list byte) :
  0 <= c < size_modulus -> Z.of_nat (length data) = c ->
  flag_wf b -> Z.of_nat (length data') = capacity b ->
  let filled := (write (new c) data c).1 in
  let drained := (read filled c).1.1 in
  let refill := write (clear b) data' (capacity b) in
  let redrain := read refill.1 (capacity b) in
  (available filled = capacity filled /\ capacity filled = c
   /\ mHead filled = mTail filled
   /\ available drained = 0 /\ mHead drained = mTail drained)
  /\ (refill.2 = capacity b /\ available refill.1 = capacity b
      /\ redrain.2 = capacity b /\ redrain.1.2 = data'
      /\ available redrain.1.1 = 0).
Proof.
  intros Hc Hdata Hwf Hdata' filled drained refill redrain.
  assert (Hcycle : forall e d, flag_wf e -> available e = 0 ->
    mHead e = mTail e -> Z.of_nat (length d) = capacity e ->
    let f := write e d (capacity e) in
    let g := read f.1 (capacity e) in
    f.2 = capacity e /\ available f.1 = capacity e
    /\ mHead f.1 = mTail f.1 /\ capacity f.1 = capacity e
    /\ g.2 = capacity e /\ g.1.2 = d /\ available g.1.1 = 0
    /\ mHead g.1.1 = mTail g.1.1).
  { intros e d He Hempty Hcur Hd f g.
    unfold available, capacity in *.
    destruct (roundtrip_on_empty e d He Hempty) as (W1 & W2 & W3);
      [unfold capacity; lia|]. rewrite Hd in W1, W2, W3. fold f in W1, W2, W3.
    fold g in W2, W3.
    assert (Hl : 0 <= mCapacity e) by lia.
    pose proof (flag_write_wf e d (mCapacity e) He Hl) as Hwf1.
    pose proof (flag_write_avail e d (mCapacity e) He Hl) as Ha1.
    pose proof (flag_write_capacity e d (mCapacity e)) as Hc1.
    pose proof (flag_write_count e d (mCapacity e) He) as Hn1.
    fold f in Hwf1, Ha1, Hc1, Hn1. rewrite W1 in Hn1. rewrite <- Hn1 in Ha1.
    pose proof (flag_read_wf f.1 (mCapacity e) Hwf1 Hl) as Hwf2.
    pose proof (flag_read_avail f.1 (mCapacity e) Hwf1 Hl) as Ha2.
    pose proof (flag_read_count f.1 (mCapacity e) Hwf1 Hl) as Hn2.
    fold g in Hwf2, Ha2, Hn2. rewrite W2 in Hn2. rewrite <- Hn2 in Ha2.
    assert (Hfull : mHead f.1 = mTail f.1).
    { destruct Hwf1 as (_ & _ & Hh1 & Ht1 & H0 & Hp & Hfl).
      pose proof (flag_avail_explicit f.1
        (flag_write_wf e d (mCapacity e) He Hl)) as Hex.
      fold f in Hex.
      destruct (Z.eq_dec (mCapacity f.1) 0) as [Hz|Hnz];
        [destruct (H0 Hz) as (-> & -> & _); reflexivity|].
      destruct (mIsFull f.1); [apply Hfl; reflexivity|].
      destruct (Z.leb_spec (mTail f.1) (mHead f.1)); lia. }
    assert (Hemp : mHead g.1.1 = mTail g.1.1).
    { pose proof (flag_avail_explicit g.1.1 Hwf2) as Hex.
      destruct Hwf2 as (_ & _ & Hh2 & Ht2 & H0 & Hp & Hfl).
      destruct (mIsFull g.1.1); [apply Hfl; reflexivity|].
      destruct (Z.leb_spec (mTail g.1.1) (mHead g.1.1)); lia. }
    repeat split; try assumption; lia. }
  split.
  - destruct (Hcycle (new c) data) as (H1 & H2 & H3 & H4 & H5 & H6 & H7 & H8);
      [apply flag_new_wf; exact Hc | reflexivity | reflexivity
      | exact Hdata |].
    change (capacity (new c)) with c in *.
    fold filled in H1, H2, H3, H4, H5, H6, H7, H8.
    fold drained in H7, H8.
    repeat split; try assumption; lia.
  - destruct (Hcycle (clear b) data')
      as (H1 & H2 & H3 & H4 & H5 & H6 & H7 & H8);
      [apply flag_clear_wf; exact Hwf | reflexivity | reflexivity
      | exact Hdata' |].
    change (capacity (clear b)) with (capacity b) in *.
    fold refill in H1, H2, H3, H4, H5, H6, H7, H8.
    fold redrain in H5, H6, H7, H8.
    repeat split; assumption.
Qed.

Lemma fill_then_drain_witness :
  let filled := (write (new 10) tenBytes 10).1 in
  let drained := (read filled 10).1.1 in
  let refill := write (clear holding8) tenBytes (capacity holding8) in
  let redrain := read refill.1 (capacity holding8) in
  (available filled = capacity filled /\ capacity filled = 10
   /\ mHead filled = mTail filled
   /\ available drained = 0 /\ mHead drained = mTail drained)
  /\ (refill.2 = capacity holding8 /\ available refill.1 = capacity holding8
      /\ redrain.2 = capacity holding8 /\ redrain.1.2 = tenBytes
      /\ available redrain.1.1 = 0).
Proof.
  apply (fill_then_drain 10 tenBytes holding8 tenBytes).
  - evaluate.
  - evaluate.
  - evaluate.
  - evaluate.
Defined.

Lemma flag_new_inv c : 0 < c < size_modulus -> flag_inv (new c).
Proof. intros Hc. apply flag_inv_of_cursors; simpl; lia. Qed.

Lemma flag_run_inv ops : forall b, flag_inv b -> flag_inv (flag_run b ops).1.
Proof.
  induction ops as [|o ops IH]; intros b Hinv; [exact Hinv|]. simpl.
  pose proof (flag_step_inv b o Hinv) as H1.
  destruct (flag_step b o) as [b' r]. simpl in H1.
  specialize (IH b' H1). destruct (flag_run b' ops). exact IH.
Qed.

(** C5. Each of [write], [read] and [clear] preserves the invariants
    [0 <= occupied <= C], [mHead] and [mTail] in [[0, C)], full iff
    [occupied = C], empty iff [occupied = 0]; they hold after any sequence
    of calls on a fresh buffer of capacity [c > 0]; and for every capacity,
    after any sequence of calls, [available() <= capacity()]. *)
Theorem invariants_preserved (b : Buffer) (o : op) (c : Z)
    (ops : list op) :
  flag_inv b -> 0 <= c < size_modulus -> Forall op_ok ops ->
  flag_inv (flag_step b o).1
  /\ (0 < c -> flag_inv (flag_run (new c) ops).1)
  /\ available (flag_run (new c) ops).1
     <= capacity (flag_run (new c) ops).1.
Proof.
  intros Hinv Hc Hok. split; [apply flag_step_inv; exact Hinv|].
  split; [intros Hpos; apply flag_run_inv, flag_new_inv; lia|].
  unfold available, capacity.
  apply flag_avail_range, flag_run_wf; [|exact Hok].
  apply flag_new_wf. exact Hc.
Qed.

Lemma invariants_preserved_witness :
  flag_inv (flag_step holding8 (Read 6)).1
  /\ flag_inv
       (flag_run (new 10) [Write writeData1 8; Read 6; Write writeData2 4]).1
  /\ available
       (flag_run (new 10) [Write writeData1 8; Read 6; Write writeData2 4]).1
     <= capacity
          (flag_run (new 10)
             [Write writeData1 8; Read 6; Write writeData2 4]).1.
Proof.
  destruct (invariants_preserved holding8 (Read 6) 10
              [Write writeData1 8; Read 6; Write writeData2 4])
    as (H1 & H2 & H3).
  - evaluate.
  - evaluate.
  - repeat constructor; evaluate.
  - split; [exact H1|]. split; [apply H2; evaluate | exact H3].
Defined.

(** C8. The occupied-count version (block copies) and the full-flag
    version (byte-by-byte copies) cannot be told apart: after construction
    with the same capacity, every sequence of [write], [read] and [clear]
    calls yields the same counts, the same delivered bytes and the same
    occupied-byte count after each call. The capacity is one that
    [std::vector] accepts; with a larger one neither constructor returns. *)
Theorem implementations_equivalent (c : Z) (ops : list op) :
  0 <= c <= vector_max_size -> Forall op_ok ops ->
  (count_run (BufferCount.new c) ops).2
  = (flag_run (BufferFlag.new c) ops).2.
Proof.
  intros Hc Hok. apply sim_run; [|exact Hok]. apply sim_new. exact Hc.
Qed.

Lemma implementations_equivalent_witness :
  (count_run (BufferCount.new 10)
     [Write writeData1 8; Read 6; Write writeData2 4; Clear; Read 1]).2
  = (flag_run (BufferFlag.new 10)
       [Write writeData1 8; Read 6; Write writeData2 4; Clear; Read 1]).2.
Proof.
  apply (implementations_equivalent 10).
  - evaluate.
  - repeat constructor; evaluate.
Defined.

(** C10. The ledger: after every call of any sequence of calls on a
    fresh buffer, [available()] is the sum of the counts [write] returned
    minus the sum of the counts [read] returned since construction or the
    last [clear()]. Both versions of the buffer; [k] is the position of a
    call in the sequence. *)
Theorem ledger_invariant (c : Z) (ops : list op) (k : nat) (r : result)
    (av : Z) :
  0 <= c <= vector_max_size -> Forall op_ok ops ->
  (available (flag_run (new c) ops).1 = ledger (flag_run (new c) ops).2
   /\ ((flag_run (new c) ops).2 !! k = Some (r, av) ->
       av = ledger (take (S k) (flag_run (new c) ops).2)))
  /\ (BufferCount.getAvailable (count_run (BufferCount.new c) ops).1
      = ledger (count_run (BufferCount.new c) ops).2
      /\ ((count_run (BufferCount.new c) ops).2 !! k = Some (r, av) ->
          av = ledger (take (S k) (count_run (BufferCount.new c) ops).2))).
Proof.
  intros Hc Hok. pose proof vector_max_size_lt as Hvm.
  assert (Hwf : flag_wf (new c)) by (apply flag_new_wf; lia).
  assert (Hflag :
    available (flag_run (new c) ops).1 = ledger (flag_run (new c) ops).2
    /\ ((flag_run (new c) ops).2 !! k = Some (r, av) ->
        av = ledger (take (S k) (flag_run (new c) ops).2))).
  { split.
    - apply (flag_run_ledger ops (new c) Hwf Hok).
    - intros Hk. apply (flag_run_ledger_at ops (new c) k r av Hwf Hok Hk). }
  split; [exact Hflag|].
  destruct (sim_run ops (BufferCount.new c) (new c) (sim_new c Hc) Hok)
    as [Ht Hs].
  rewrite Ht. destruct Hs as (_ & _ & _ & _ & Ha & _).
  unfold BufferCount.getAvailable. rewrite Ha. exact Hflag.
Qed.

Lemma ledger_invariant_witness :
  let ops := [Write writeData1 8; Read 6; Write writeData2 4; Clear;
              Write tenBytes 10; Read 3] in
  (available (flag_run (new 10) ops).1 = 7
   /\ ledger (take 3 (flag_run (new 10) ops).2) = 6)
  /\ (BufferCount.getAvailable (count_run (BufferCount.new 10) ops).1 = 7
      /\ ledger (take 3 (count_run (BufferCount.new 10) ops).2) = 6).
Proof.
  intros ops.
  destruct (ledger_invariant 10 ops 2 (Written 4) 6)
    as [[Hf1 Hf2] [Hc1 Hc2]].
  - evaluate.
  - repeat constructor; evaluate.
  - rewrite Hf1, Hc1. rewrite <- Hf2, <- Hc2 by reflexivity.
    repeat split; reflexivity.
Defined.

End BufferProperties.

(** ** Threads on the queue: the lock and what it protects *)

Section QueueThreads.
Import ThreadSafeQueue.
Context {T : Type}.
Implicit Types (s : system T) (th : thread T) (tr : list (event T)).

Ltac step_cases H th Hth Hpc Hcs :=
  unfold step_thread in H;
  match type of H with
  | match ?x with _ => _ end = _ =>
      destruct x as [th|] eqn:Hth; [|discriminate H];
      destruct (at_pc th) eqn:Hpc; destruct (calls th) as [|[?|?|?] ?] eqn:Hcs;
      repeat match type of H with
             | match ?y with _ => _ end = _ => destruct y eqn:?
             | (if ?y then _ else _) = _ => destruct y eqn:?
             end;
      try discriminate H; injection H as <- <-
  end.

Lemma others_outside s t' th' :
  lock_ok s -> mMutex s <> Some t' -> threads s !! t' = Some th' ->
  holds (at_pc th') = false.
Proof.
  intros Hok Hm Hl. destruct (Hok t' th' Hl) as (Hown & _).
  destruct (holds (at_pc th')); [|reflexivity].
  exfalso. apply Hm, Hown. reflexivity.
Qed.

Lemma outside_ok (p : pc T) (A B : Prop) (C : T -> Prop) :
  holds p = false ->
  (holds p = true -> A) /\ (p = NonEmpty -> B)
  /\ (forall v, p = Fetched v -> C v).
Proof.
  intros Hout. split; [|split].
  - rewrite Hout. discriminate.
  - intros ->. discriminate.
  - intros v ->. discriminate.
Qed.

Lemma step_lock_ok t s s' e :
  lock_ok s -> step_thread t s = Some (s', e) -> lock_ok s'.
Proof.
  intros Hok Hstep. step_cases Hstep th0 Hth Hpc Hcs.
  all: intros t' th' Hl; unfold set_thread in Hl; simpl in Hl |- *.
  all: pose proof (lookup_lt_Some _ _ _ Hth) as Hlt.
  all: destruct (Hok t th0 Hth) as (Hown & Hne & Hfe);
       rewrite ?Hpc in Hown, Hne, Hfe; simpl in Hown.
  all: destruct (decide (t' = t)) as [->|Hneq];
    [ rewrite list_lookup_insert_eq in Hl by exact Hlt;
      injection Hl as <-; simpl
    | rewrite list_lookup_insert_ne in Hl by congruence;
      apply outside_ok; apply (others_outside s t' th' Hok); [|exact Hl];
      first [ rewrite Hown by reflexivity; congruence
            | congruence ] ].
  all: split; [|split]; intros; try discriminate; try reflexivity;
    try congruence; auto.
  all: match goal with
       | H : empty ?q = false |- _ =>
           destruct q; [discriminate H | discriminate]
       end.
Qed.

(** One step neither loses nor duplicates: what was in the queue plus
    what the step pushes is what the step pops plus what is in the queue
    afterwards. *)
Lemma step_conserves t s s' e :
  lock_ok s -> step_thread t s = Some (s', e) ->
  mQueue s ++ pushes [e] = pops [e] ++ mQueue s'.
Proof.
  intros Hok Hstep. step_cases Hstep th0 Hth Hpc Hcs.
  all: destruct (Hok t th0 Hth) as (_ & _ & Hfe).
  all: simpl; rewrite ?app_nil_r; try reflexivity.
  all: specialize (Hfe _ Hpc); destruct (mQueue s); [discriminate Hfe|];
    injection Hfe as ->; reflexivity.
Qed.

Lemma step_received t s s' e t' th' :
  step_thread t s = Some (s', e) -> threads s' !! t' = Some th' ->
  exists th, threads s !! t' = Some th
             /\ received th' = received th ++ pops_by t' [e].
Proof.
  intros Hstep Hl. step_cases Hstep th0 Hth Hpc Hcs.
  all: unfold set_thread in Hl; simpl in Hl.
  all: pose proof (lookup_lt_Some _ _ _ Hth) as Hlt.
  all: destruct (decide (t' = t)) as [->|Hneq];
    [ rewrite list_lookup_insert_eq in Hl by exact Hlt;
      injection Hl as <-; exists th0; split; [exact Hth|]; simpl;
      rewrite ?Nat.eqb_refl, ?app_nil_r; reflexivity
    | rewrite list_lookup_insert_ne in Hl by congruence;
      exists th'; split; [exact Hl|]; simpl;
      try (destruct (Nat.eqb_spec t' t); [congruence|]);
      simpl; rewrite app_nil_r; reflexivity ].
Qed.

Lemma init_lock_ok (progs : list (list (call T))) : lock_ok (init progs).
Proof.
  intros t th Hl. unfold init in Hl. simpl in Hl.
  rewrite list_lookup_fmap in Hl.
  destruct (progs !! t); [|discriminate]. injection Hl as <-. simpl.
  split; [|split]; intros; discriminate.
Qed.

Lemma exec_lock_ok s tr s' : lock_ok s -> exec s tr s' -> lock_ok s'.
Proof.
  intros Hok Hex. induction Hex as [|tr s1 t s2 e _ IH Hstep];
    [exact Hok|]. exact (step_lock_ok t s1 s2 e IH Hstep).
Qed.

Lemma pushes_app tr1 tr2 : pushes (tr1 ++ tr2) = pushes tr1 ++ pushes tr2.
Proof. apply omap_app. Qed.

Lemma pops_app tr1 tr2 : pops (tr1 ++ tr2) = pops tr1 ++ pops tr2.
Proof. apply omap_app. Qed.

Lemma pops_by_app t tr1 tr2 :
  pops_by t (tr1 ++ tr2) = pops_by t tr1 ++ pops_by t tr2.
Proof. apply omap_app. Qed.

Lemma exec_conserves s tr s' :
  lock_ok s -> exec s tr s' ->
  mQueue s ++ pushes tr = pops tr ++ mQueue s'.
Proof.
  intros Hok Hex. induction Hex as [|tr s1 t s2 e Hex IH Hstep].
  - simpl. apply app_nil_r.
  - rewrite pushes_app, pops_app, app_assoc, IH, <- !app_assoc.
    f_equal. apply (step_conserves t); [|exact Hstep].
    exact (exec_lock_ok s tr s1 Hok Hex).
Qed.

Lemma exec_received s tr s' t th' :
  exec s tr s' -> threads s' !! t = Some th' ->
  exists th, threads s !! t = Some th
             /\ received th' = received th ++ pops_by t tr.
Proof.
  intros Hex. revert th'.
  induction Hex as [|tr s1 t0 s2 e Hex IH Hstep]; intros th' Hl.
  - exists th'. split; [exact Hl|]. simpl. rewrite app_nil_r. reflexivity.
  - destruct (step_received t0 s1 s2 e t th' Hstep Hl) as (th1 & Hl1 & Hr1).
    destruct (IH th1 Hl1) as (th & Hl0 & Hr0).
    exists th. split; [exact Hl0|].
    rewrite Hr1, Hr0, pops_by_app, app_assoc. reflexivity.
Qed.

Lemma run_schedule_exec sched : forall s s' tr,
  run_schedule sched s = Some (s', tr) -> exec s tr s'.
Proof.
  assert (Hcons : forall s t s1 e tr s',
    step_thread t s = Some (s1, e) -> exec s1 tr s' -> exec s (e :: tr) s').
  { intros s t s1 e tr s' Hstep Hex.
    induction Hex as [|tr s2 t' s3 e' Hex IH Hstep'].
    - apply (exec_more s [] s t s1 e); [constructor | exact Hstep].
    - change (e :: tr ++ [e']) with ((e :: tr) ++ [e']).
      apply (exec_more s (e :: tr) s2 t' s3 e' IH Hstep'). }
  induction sched as [|t sched IH]; intros s s' tr Hrun; simpl in Hrun.
  - injection Hrun as <- <-. constructor.
  - destruct (step_thread t s) as [[s1 e]|] eqn:Hstep; [|discriminate].
    destruct (run_schedule sched s1) as [[s2 tr']|] eqn:Hrest;
      [|discriminate].
    injection Hrun as <- <-.
    apply (Hcons s t s1 e tr' s2 Hstep). apply IH. exact Hrest.
Qed.

End QueueThreads.

(** ** One producer, one consumer *)

Section ProducerConsumer.
Import ThreadSafeQueue.

Lemma scenario_init n : scenario_inv n (init [producer n; consumer n]).
Proof.
  exists 0%nat, n, {| calls := producer n; at_pc := Start; received := [];
                      notFound := 0 |},
    {| calls := consumer n; at_pc := Start; received := [];
       notFound := 0 |}.
  simpl. rewrite Nat.sub_0_r.
  repeat split; try reflexivity; try lia; auto. congruence.
Qed.

Lemma scenario_step n t s s' e :
  scenario_inv n s -> lock_ok s -> step_thread t s = Some (s', e) ->
  scenario_inv n s'.
Proof.
  intros (k & m & p & c & Hthr & Hk & Hp & Hppc & Hc & Hlen & Hrq & Hm)
    Hok Hstep.
  unfold step_thread, set_thread in Hstep. rewrite Hthr in Hstep.
  destruct t as [|[|t]]; simpl in Hstep; [| |discriminate].
  - (* the producer moves *)
    destruct Hppc as [Hpc|[Hpc|Hpc]]; rewrite Hpc, Hp in Hstep.
    all: cbn [fmap list_fmap] in Hstep.
    + destruct (n - k)%nat as [|j] eqn:Hj; simpl in Hstep; [discriminate|].
      destruct (mMutex s); [discriminate|]. injection Hstep as <- <-.
      eexists k, m, _, c. simpl.
      split; [reflexivity|]. split; [exact Hk|]. simpl.
      rewrite ?Hp, ?Hj. split; [reflexivity|]. split; [tauto|]. tauto.
    + destruct (n - k)%nat as [|j] eqn:Hj; simpl in Hstep; [discriminate|].
      injection Hstep as <- <-.
      eexists (S k), m, _, c. simpl.
      split; [reflexivity|]. split; [lia|]. simpl.
      replace (n - S k)%nat with j by lia.
      split; [reflexivity|]. split; [tauto|].
      split; [exact Hc|]. split; [exact Hlen|].
      split; [|exact Hm].
      unfold push. change (0%nat :: seq 1 k) with (seq 0 (S k)).
      rewrite app_assoc, Hrq, seq_S. reflexivity.
    + destruct (fmap CallPush (seq k (n - k))) eqn:Hcs;
        injection Hstep as <- <-;
        eexists k, m, _, c; simpl;
        (split; [reflexivity|]); (split; [exact Hk|]); simpl;
        (split; [symmetry; exact Hcs|]); (split; [tauto|]); tauto.
  - (* the consumer moves *)
    destruct (Hok 1%nat c) as (_ & _ & Hfe); [rewrite Hthr; reflexivity|].
    assert (Hkeep : forall c' q',
      calls c' = calls c -> received c' = received c -> q' = mQueue s ->
      (at_pc c' <> Start -> at_pc c' <> Finishing -> (0 < m)%nat) ->
      scenario_inv n {| mQueue := q'; mMutex := mMutex s';
                        threads := [p; c'] |}).
    { intros c' q' Hcs Hrc -> Hm'. exists k, m, p, c'. simpl.
      rewrite Hcs, Hrc. tauto. }
    destruct (at_pc c) eqn:Hpc.
    + (* Start *)
      destruct (calls c) eqn:Hcs; [discriminate|].
      destruct (mMutex s); [discriminate|]. injection Hstep as <- <-.
      apply Hkeep; simpl; try reflexivity.
      intros _ _. destruct m; [simpl in Hc; congruence | lia].
    + (* Held *)
      destruct (calls c) as [|[?|?|?] ?] eqn:Hcs; try discriminate;
        destruct m; try discriminate.
      destruct (empty (mQueue s)); injection Hstep as <- <-;
        apply Hkeep; simpl; try reflexivity; try congruence; intros; lia.
    + (* Asleep *)
      assert (0 < m)%nat by (apply Hm; discriminate).
      destruct (calls c) eqn:Hcs;
        (destruct (mMutex s); [discriminate|]); injection Hstep as <- <-;
        apply Hkeep; simpl; try reflexivity; try congruence; intros; lia.
    + (* NonEmpty *)
      assert (0 < m)%nat by (apply Hm; discriminate).
      destruct (calls c) eqn:Hcs;
        (destruct (mQueue s) eqn:Hq; [discriminate|]);
        injection Hstep as <- <-;
        apply Hkeep; simpl; try reflexivity; try congruence; intros; lia.
    + (* Fetched *)
      assert (0 < m)%nat by (apply Hm; discriminate).
      specialize (Hfe _ eq_refl).
      destruct (mQueue s) as [|front q] eqn:Hq; [discriminate|].
      injection Hfe as ->.
      destruct m as [|m]; [lia|].
      assert (Hstep' : s' = {| mQueue := q; mMutex := mMutex s;
                threads := [p; {| calls := tail (calls c);
                                  at_pc := Finishing;
                                  received := received c ++ [value];
                                  notFound := notFound c |}] |}).
      { destruct (calls c); injection Hstep as <- <-; reflexivity. }
      subst s'. eexists k, m, p, _. simpl.
      do 4 (split; [assumption || reflexivity|]). simpl. rewrite Hc.
      split; [reflexivity|]. rewrite length_app. simpl.
      split; [lia|]. split; [|intros; congruence].
      rewrite <- app_assoc. exact Hrq.
    + (* Finishing *)
      destruct (calls c) eqn:Hcs; injection Hstep as <- <-;
        apply Hkeep; simpl; try reflexivity; try congruence.
Qed.

Lemma scenario_exec n tr s :
  exec (init [producer n; consumer n]) tr s ->
  scenario_inv n s /\ lock_ok s.
Proof.
  intros Hex.
  split; [|exact (exec_lock_ok _ _ _ (init_lock_ok _) Hex)].
  induction Hex as [|tr s1 t s2 e Hex IH Hstep]; [apply scenario_init|].
  apply (scenario_step n t s1 s2 e IH); [|exact Hstep].
  exact (exec_lock_ok _ _ _ (init_lock_ok _) Hex).
Qed.

(** What the consumer has received is always an initial segment of
    [0 .. n-1], and all of it once its [n] pops are done. *)
Lemma scenario_received n tr s c :
  exec (init [producer n; consumer n]) tr s ->
  threads s !! 1%nat = Some c ->
  received c = take (length (received c)) (seq 0 n)
  /\ (length (received c) = n -> received c = seq 0 n)
  /\ (calls c = [] -> received c = seq 0 n).
Proof.
  intros Hex Hl.
  destruct (scenario_exec n tr s Hex)
    as [(k & m & p & c' & Hthr & Hk & Hp & Hppc & Hc & Hlen & Hrq & Hm) _].
  rewrite Hthr in Hl. injection Hl as ->.
  assert (Hpre : received c = take (length (received c)) (seq 0 n)).
  { replace (seq 0 n) with (seq 0 (k + (n - k))) by (f_equal; lia).
    rewrite seq_app, <- Hrq, <- app_assoc.
    rewrite take_app_length. reflexivity. }
  assert (Hfull : length (received c) = n -> received c = seq 0 n).
  { intros Hn. rewrite Hpre, Hn. apply take_ge. rewrite length_seq. lia. }
  split; [exact Hpre|]. split; [exact Hfull|].
  intros Hcs. apply Hfull. rewrite Hcs in Hc. destruct m; [lia|discriminate].
Qed.

Lemma integrity_test_completes :
  exists tr s c,
    exec (init [producer 1000; consumer 1000]) tr s
    /\ threads s !! 1%nat = Some c
    /\ calls c = [] /\ received c = seq 0 1000.
Proof.
  pose (r := run_schedule (producer_first 1000)
               (init [producer 1000; consumer 1000])).
  assert (Hr : match r with
               | Some (s, _) =>
                   match threads s !! 1%nat with
                   | Some c => Some (calls c, received c)
                   | None => None
                   end
               | None => None
               end = Some ([], seq 0 1000))
    by (vm_compute; reflexivity).
  destruct r as [[s tr]|] eqn:Hrun; [|discriminate].
  destruct (threads s !! 1%nat) as [c|] eqn:Hl; [|discriminate].
  injection Hr as Hcs Hrc.
  exists tr, s, c. split; [|auto].
  apply (run_schedule_exec (producer_first 1000)). exact Hrun.
Qed.

End ProducerConsumer.

(** ** Section 8 of the specification: the thread-safe queue *)

Section QueueProperties.
Import ThreadSafeQueue.

Lemma run_calls_conserves {T : Type} (cs : list (call T)) :
  forall h : history T,
    h_popped h ++ h_queue h = h_pushed h ->
    h_popped (run_calls h cs) ++ h_queue (run_calls h cs)
    = h_pushed (run_calls h cs).
Proof.
  induction cs as [|[v|v|v] cs IH]; intros h Hh; simpl.
  - exact Hh.
  - apply IH. simpl. unfold push. rewrite app_assoc, Hh. reflexivity.
  - destruct (h_queue h) as [|front rest] eqn:Hq; simpl; apply IH; simpl.
    + exact Hh.
    + rewrite <- app_assoc. exact Hh.
  - destruct (h_queue h) as [|front rest] eqn:Hq; simpl.
    + rewrite Hq. exact Hh.
    + apply IH. simpl. rewrite <- app_assoc. exact Hh.
Qed.

(** C6. Strict FIFO: three pushes of 1, 2, 3 followed by three pops (by
    [tryPop] or by [waitAndPop]) deliver 1, 2, 3 in that order; and for
    every sequence of calls made by one thread on a fresh queue, the
    values delivered so far followed by the values still queued are the
    values pushed so far, in the order of the pushes. *)
Theorem queue_is_fifo (T : Type) (cs : list (call T)) :
  h_popped (run_calls fresh
    [CallPush 1; CallPush 2; CallPush 3;
     CallTryPop 0; CallTryPop 0; CallTryPop 0]) = [1; 2; 3]
  /\ h_popped (run_calls fresh
       [CallPush 1; CallPush 2; CallPush 3;
        CallWaitAndPop 0; CallTryPop 0; CallWaitAndPop 0]) = [1; 2; 3]
  /\ h_popped (run_calls fresh cs) ++ h_queue (run_calls fresh cs)
     = h_pushed (run_calls fresh cs).
Proof.
  split; [reflexivity|]. split; [reflexivity|].
  apply run_calls_conserves. reflexivity.
Qed.

(** C7. On a fresh queue [tryPop] returns [false], removes nothing and
    leaves the caller's variable as it was; on a non-empty queue it
    removes the front value, stores it in the caller's variable and
    returns [true]; and a thread inside [tryPop] never enters the wait of
    the condition variable. *)
Theorem tryPop_never_waits (T : Type) (value front : T) (rest : list T)
    (t : nat) (s s' : system T) (e : event T) (th th' : thread T)
    (v : T) (cs : list (call T)) :
  step_thread t s = Some (s', e) ->
  threads s !! t = Some th -> threads s' !! t = Some th' ->
  calls th = CallTryPop v :: cs -> at_pc th <> Asleep ->
  tryPop new value = (new, value, false)
  /\ tryPop (front :: rest) value = (rest, front, true)
  /\ at_pc th' <> Asleep.
Proof.
  intros Hstep Hl Hl' Hcs Hpc.
  split; [reflexivity|]. split; [reflexivity|].
  pose proof (lookup_lt_Some _ _ _ Hl) as Hlt.
  unfold step_thread in Hstep. rewrite Hl, Hcs in Hstep.
  destruct (at_pc th) eqn:Hat; try congruence;
    repeat match type of Hstep with
           | match ?y with _ => _ end = _ => destruct y eqn:?
           | (if ?y then _ else _) = _ => destruct y eqn:?
           end;
    try discriminate Hstep; injection Hstep as <- <-;
    unfold set_thread in Hl'; simpl in Hl';
    rewrite list_lookup_insert_eq in Hl' by exact Hlt;
    injection Hl' as <-; simpl; discriminate.
Qed.

Lemma tryPop_never_waits_witness :
  tryPop new 7 = (new, 7, false)
  /\ tryPop [4; 5] 7 = ([5], 4, true)
  /\ at_pc {| calls := @nil (call Z); at_pc := Finishing; received := [];
             notFound := 1 |} <> Asleep.
Proof.
  apply (tryPop_never_waits Z 7 4 [5] 0%nat polling
           {| mQueue := new; mMutex := Some 0%nat;
              threads := [ {| calls := []; at_pc := Finishing;
                              received := []; notFound := 1 |} ] |}
           EvSilent
           {| calls := [CallTryPop 7]; at_pc := Held;
              received := []; notFound := 0 |}
           _ 7 []).
  - reflexivity.
  - reflexivity.
  - reflexivity.
  - reflexivity.
  - simpl. discriminate.
Defined.

(** C9. Under every interleaving of threads calling [push], [tryPop] and
    [waitAndPop], no value is lost or delivered twice: the values pushed
    so far are, in the order of the pushes, the values popped so far
    followed by the values still queued, and each thread has received
    exactly the values its own pops removed. With one thread pushing
    0 .. 999 and one thread calling [waitAndPop] 1000 times, the consumer
    always holds an initial segment of 0 .. 999, holds 0 .. 999 once it
    has 1000 values, and some interleaving gets it there. *)
Theorem no_loss_under_interleaving (T : Type) (progs : list (list (call T)))
    (tr : list (event T)) (s : system T)
    (tr' : list (event nat)) (s' : system nat) (c : thread nat) :
  exec (init progs) tr s ->
  exec (init [producer 1000; consumer 1000]) tr' s' ->
  threads s' !! 1%nat = Some c ->
  (pushes tr = pops tr ++ mQueue s
   /\ forall t th, threads s !! t = Some th -> received th = pops_by t tr)
  /\ (received c = take (length (received c)) (seq 0 1000)
      /\ (length (received c) = 1000%nat -> received c = seq 0 1000))
  /\ (exists trf sf cf,
        exec (init [producer 1000; consumer 1000]) trf sf
        /\ threads sf !! 1%nat = Some cf
        /\ calls cf = [] /\ received cf = seq 0 1000).
Proof.
  intros Hex Hex' Hl. split; [|split].
  - split.
    + apply (exec_conserves (init progs) tr s (init_lock_ok progs) Hex).
    + intros t th Hth.
      destruct (exec_received _ _ _ t th Hex Hth) as (th0 & Hl0 & Hr).
      unfold init in Hl0. simpl in Hl0. rewrite list_lookup_fmap in Hl0.
      destruct (progs !! t); [|discriminate]. injection Hl0 as <-.
      exact Hr.
  - destruct (scenario_received 1000 tr' s' c Hex' Hl) as (H1 & H2 & _).
    split; assumption.
  - exact integrity_test_completes.
Qed.

Lemma no_loss_under_interleaving_witness :
  pushes after_interleaved3.2
  = pops after_interleaved3.2 ++ mQueue after_interleaved3.1
  /\ (received <$> threads after_first_steps.1 !! 1%nat) = Some [0%nat].
Proof.
  assert (Hl : exists c, threads after_first_steps.1 !! 1%nat = Some c
                         /\ length (received c) = 1%nat).
  { eexists. split; vm_compute; reflexivity. }
  destruct Hl as (c & Hl & Hlen).
  destruct (no_loss_under_interleaving nat [producer 3; consumer 3]
              after_interleaved3.2 after_interleaved3.1
              after_first_steps.2 after_first_steps.1 c)
    as [[Hcons _] [[Hpre _] _]].
  - apply (run_schedule_exec interleaved3). vm_compute. reflexivity.
  - apply (run_schedule_exec [0; 0; 0; 1; 1; 1; 1]%nat).
    vm_compute. reflexivity.
  - exact Hl.
  - split; [exact Hcons|]. rewrite Hl. simpl. rewrite Hpre, Hlen.
    reflexivity.
Defined.

End QueueProperties.

(** ** Further properties of the circular buffer *)

Section BufferExtras.
Import BufferFlag.

(** [read] copies out of the storage and never writes into it. *)
Lemma flag_read_storage b len : mBuffer (read b len).1.1 = mBuffer b.
Proof.
  unfold read. destruct (_ =? 0); [reflexivity|].
  destruct (read_loop _ _ _ _). reflexivity.
Qed.

(** X1. [read] is partial in the same way as [write]: in every reachable
    state it returns [min(len, available())], delivers exactly the oldest
    that many unread bytes in the order they were written, leaves the
    others in the buffer in their order, lowers the number of available
    bytes by the count returned and does not touch the storage. Both
    versions. *)
Theorem read_is_partial (b : BufferFlag.Buffer) (a : BufferCount.Buffer)
    (len : Z) :
  flag_wf b -> count_wf a -> 0 <= len ->
  let n := Z.min len (available b) in
  let m := Z.min len (BufferCount.getAvailable a) in
  ((read b len).2 = n /\ 0 <= n <= len
   /\ (read b len).1.2 = take (Z.to_nat n) (flag_contents b)
   /\ flag_contents (read b len).1.1 = drop (Z.to_nat n) (flag_contents b)
   /\ available (read b len).1.1 = available b - n
   /\ mBuffer (read b len).1.1 = mBuffer b)
  /\ ((BufferCount.read a len).2 = m /\ 0 <= m <= len
      /\ (BufferCount.read a len).1.2 = take (Z.to_nat m) (count_contents a)
      /\ count_contents (BufferCount.read a len).1.1
         = drop (Z.to_nat m) (count_contents a)
      /\ BufferCount.getAvailable (BufferCount.read a len).1.1
         = BufferCount.getAvailable a - m
      /\ BufferCount.m_buffer (BufferCount.read a len).1.1
         = BufferCount.m_buffer a).
Proof.
  intros Hwf Hcwf Hlen n m.
  assert (Hflag : forall b', flag_wf b' ->
    let n' := Z.min len (available b') in
    (read b' len).2 = n' /\ 0 <= n' <= len
    /\ (read b' len).1.2 = take (Z.to_nat n') (flag_contents b')
    /\ flag_contents (read b' len).1.1 = drop (Z.to_nat n') (flag_contents b')
    /\ available (read b' len).1.1 = available b' - n'
    /\ mBuffer (read b' len).1.1 = mBuffer b').
  { intros b' Hwf' n'. pose proof (flag_avail_range b' Hwf') as Ha.
    unfold available in *. change n' with (flag_toRead b' len).
    split; [apply flag_read_count; assumption|].
    split; [unfold flag_toRead; lia|].
    split; [apply flag_read_dest; assumption|].
    split; [apply flag_read_contents; assumption|].
    split; [apply flag_read_avail; assumption|].
    apply flag_read_storage. }
  split; [exact (Hflag b Hwf)|].
  pose proof (count_wf_sim a Hcwf) as Hsim.
  destruct (sim_read a (to_flag a) len Hsim Hlen) as (Hn & Hd & Hs).
  destruct (Hflag (to_flag a)) as (H1 & H2 & H3 & H4 & H5 & H6).
  { destruct Hsim as (_ & _ & _ & _ & _ & Hw & _). exact Hw. }
  pose proof (sim_contents _ _ Hsim) as Hc0.
  pose proof (sim_contents _ _ Hs) as Hc1.
  destruct Hsim as (_ & _ & _ & _ & Ha & _).
  destruct Hs as (Hb' & _ & _ & _ & Ha' & _).
  unfold available, BufferCount.getAvailable in *.
  rewrite <- Ha in H1, H2, H3, H4, H5. fold m in H1, H2, H3, H4, H5.
  rewrite Hn, Hd, Hc0, Hc1, Ha', Hb', H6.
  repeat split; try assumption; lia.
Qed.

Lemma read_is_partial_witness :
  (read holding8 10).2 = 8
  /\ (read holding8 10).1.2 = writeData1
  /\ (BufferCount.read count_holding8 10).2 = 8.
Proof.
  destruct (read_is_partial holding8 count_holding8 10)
    as [(Hf & _ & Hd & _) (Hc & _)].
  - evaluate.
  - evaluate.
  - evaluate.
  - split; [exact Hf|]. split; [exact Hd | exact Hc].
Defined.

(** X2. At the bounds nothing happens: [write] on a full buffer returns
    0 and [read] on an empty one returns 0, each leaving the whole state
    (cursors, flag or count, storage) as it was and delivering no byte; so
    do a [write] and a [read] of length 0 in any state. Both versions. *)
Theorem bounds_are_noops (b : BufferFlag.Buffer) (a : BufferCount.Buffer)
    (data : list byte) (len : Z) :
  flag_wf b -> count_wf a -> 0 <= len ->
  ((available b = capacity b -> write b data len = (b, 0))
   /\ (available b = 0 -> read b len = (b, [], 0))
   /\ write b data 0 = (b, 0) /\ read b 0 = (b, [], 0))
  /\ ((BufferCount.getAvailable a = BufferCount.m_capacity a ->
       BufferCount.write a data len = (a, 0))
      /\ (BufferCount.getAvailable a = 0 ->
          BufferCount.read a len = (a, [], 0))
      /\ BufferCount.write a data 0 = (a, 0)
      /\ BufferCount.read a 0 = (a, [], 0)).
Proof.
  intros Hwf Hcwf Hlen. pose proof (flag_avail_range b Hwf) as Ha.
  pose proof vector_max_size_lt as Hvm.
  split.
  - unfold available, capacity.
    assert (Hc : 0 <= mCapacity b < size_modulus) by (destruct Hwf; assumption).
    split; [|split; [|split]].
    + intros Hfull. unfold write. rewrite Hfull, Z.sub_diag.
      unfold sz. rewrite Z.mod_0_l by (unfold size_modulus; discriminate).
      rewrite Z.min_r by lia. reflexivity.
    + intros Hempty. unfold read. rewrite Hempty, Z.min_r by lia. reflexivity.
    + unfold write. rewrite sz_small by lia. rewrite Z.min_l by lia.
      reflexivity.
    + unfold read. rewrite Z.min_l by lia. reflexivity.
  - destruct Hcwf as (Hc & _ & _ & _ & Hav & _).
    unfold BufferCount.getAvailable.
    split; [|split; [|split]].
    + intros Hfull. unfold BufferCount.write. rewrite Hfull, Z.sub_diag.
      unfold sz. rewrite Z.mod_0_l by (unfold size_modulus; discriminate).
      rewrite Z.min_r by lia. reflexivity.
    + intros Hempty. unfold BufferCount.read.
      rewrite Hempty, Z.min_r by lia. reflexivity.
    + unfold BufferCount.write. rewrite sz_small by lia.
      rewrite Z.min_l by lia. reflexivity.
    + unfold BufferCount.read. rewrite Z.min_l by lia. reflexivity.
Qed.

Lemma bounds_are_noops_witness :
  read drained8 5 = (drained8, [], 0)
  /\ BufferCount.write count_holding8 writeData2 0 = (count_holding8, 0).
Proof.
  destruct (bounds_are_noops drained8 count_holding8 writeData2 5)
    as [(_ & He & _) (_ & _ & Hw & _)].
  - evaluate.
  - evaluate.
  - evaluate.
  - split; [apply He; reflexivity | exact Hw].
Defined.

(** One call keeps the two streams and the contents in step. *)
Lemma flag_step_streams b o acc :
  flag_wf b -> op_ok o ->
  acc.2 ++ flag_contents b = acc.1 ->
  (stream_step acc o (flag_step b o).2).2 ++ flag_contents (flag_step b o).1
  = (stream_step acc o (flag_step b o).2).1.
Proof.
  intros Hwf Hok Hacc. destruct o as [data len|len|]; simpl in *.
  - pose proof (flag_write_contents b data len Hwf Hok) as Hct.
    pose proof (flag_write_count b data len Hwf) as Hn.
    destruct (write b data len) as [b' n]. simpl in *. subst n.
    rewrite Hct, app_assoc, Hacc. reflexivity.
  - pose proof (flag_read_contents b len Hwf Hok) as Hct.
    pose proof (flag_read_dest b len Hwf Hok) as Hd.
    destruct (read b len) as [[b' d] n]. simpl in *.
    rewrite Hct, Hd, <- app_assoc, take_drop. exact Hacc.
  - reflexivity.
Qed.

Lemma flag_run_streams ops : forall b acc,
  flag_wf b -> Forall op_ok ops ->
  acc.2 ++ flag_contents b = acc.1 ->
  (streams acc ops (flag_run b ops).2).2 ++ flag_contents (flag_run b ops).1
  = (streams acc ops (flag_run b ops).2).1.
Proof.
  induction ops as [|o ops IH]; intros b acc Hwf Hok Hacc; [exact Hacc|].
  apply Forall_cons in Hok as [Ho Hok]. simpl.
  pose proof (flag_step_wf b o Hwf Ho) as H1.
  pose proof (flag_step_streams b o acc Hwf Ho Hacc) as H2.
  destruct (flag_step b o) as [b' r]. simpl in H1, H2.
  specialize (IH b' (stream_step acc o r) H1 Hok H2).
  destruct (flag_run b' ops) as [b'' t]. simpl in *. exact IH.
Qed.

(** X3. The buffer is a faithful pipe: after any sequence of calls on a
    fresh buffer, the bytes delivered by the reads since the last
    [clear()], followed by the bytes still in the buffer, are exactly the
    bytes the writes accepted since that [clear()], in the order they were
    accepted; in particular what has been read is an initial segment of
    what has been written. Both versions. *)
Theorem stream_is_preserved (c : Z) (ops : list op) :
  0 <= c <= vector_max_size -> Forall op_ok ops ->
  let f := flag_run (new c) ops in
  let a := count_run (BufferCount.new c) ops in
  (streams ([], []) ops f.2).2 ++ flag_contents f.1
  = (streams ([], []) ops f.2).1
  /\ (streams ([], []) ops a.2).2 ++ count_contents a.1
     = (streams ([], []) ops a.2).1
  /\ (streams ([], []) ops f.2).2 `prefix_of` (streams ([], []) ops f.2).1.
Proof.
  intros Hc Hok f a. pose proof vector_max_size_lt as Hvm.
  assert (Hf : (streams ([], []) ops f.2).2 ++ flag_contents f.1
               = (streams ([], []) ops f.2).1).
  { apply flag_run_streams;
      [apply flag_new_wf; lia | exact Hok | reflexivity]. }
  split; [exact Hf|]. split.
  - destruct (sim_run ops (BufferCount.new c) (new c) (sim_new c Hc) Hok)
      as [Ht Hs].
    fold a in Ht, Hs. fold f in Ht, Hs.
    rewrite Ht, (sim_contents _ _ Hs). exact Hf.
  - rewrite <- Hf. apply prefix_app_r. reflexivity.
Qed.

Lemma stream_is_preserved_witness :
  (streams ([], []) [Write writeData1 8; Read 6; Write writeData2 4; Read 3]
     (flag_run (new 10)
        [Write writeData1 8; Read 6; Write writeData2 4; Read 3]).2).2
  ++ flag_contents
       (flag_run (new 10)
          [Write writeData1 8; Read 6; Write writeData2 4; Read 3]).1
  = (streams ([], []) [Write writeData1 8; Read 6; Write writeData2 4; Read 3]
       (flag_run (new 10)
          [Write writeData1 8; Read 6; Write writeData2 4; Read 3]).2).1.
Proof.
  destruct (stream_is_preserved 10
              [Write writeData1 8; Read 6; Write writeData2 4; Read 3])
    as (H & _).
  - evaluate.
  - repeat constructor; evaluate.
  - exact H.
Defined.

Lemma same_view_avail b1 b2 :
  same_view b1 b2 -> getAvailableInternal b1 = getAvailableInternal b2.
Proof.
  intros (Hh & Ht & Hf & Hc & _). unfold getAvailableInternal.
  rewrite Hh, Ht, Hf, Hc. reflexivity.
Qed.

(** Two buffers with the same cursors and the same unread bytes answer a
    call alike and stay alike. *)
Lemma same_view_step b1 b2 o :
  same_view b1 b2 -> op_ok o ->
  (flag_step b1 o).2 = (flag_step b2 o).2
  /\ same_view (flag_step b1 o).1 (flag_step b2 o).1.
Proof.
  intros Hv Hok. pose proof (same_view_avail b1 b2 Hv) as Ha.
  destruct Hv as (Hh & Ht & Hf & Hc & Hw1 & Hw2 & Hct).
  destruct o as [data len|len|]; simpl in *.
  - pose proof (flag_write_count b1 data len Hw1) as Hn1.
    pose proof (flag_write_count b2 data len Hw2) as Hn2.
    pose proof (flag_write_wf b1 data len Hw1 (proj1 Hok)) as Hwf1.
    pose proof (flag_write_wf b2 data len Hw2 (proj1 Hok)) as Hwf2.
    pose proof (flag_write_contents b1 data len Hw1 Hok) as Hc1.
    pose proof (flag_write_contents b2 data len Hw2 Hok) as Hc2.
    assert (Hw : flag_toWrite b1 len = flag_toWrite b2 len)
      by (unfold flag_toWrite; rewrite Hc, Ha; reflexivity).
    assert (Hcur : mHead (write b1 data len).1 = mHead (write b2 data len).1
                   /\ mTail (write b1 data len).1 = mTail (write b2 data len).1
                   /\ mIsFull (write b1 data len).1
                      = mIsFull (write b2 data len).1
                   /\ mCapacity (write b1 data len).1
                      = mCapacity (write b2 data len).1).
    { pose proof (flag_avail_range b1 Hw1) as Hr1.
      destruct (Z.eq_dec (flag_toWrite b1 len) 0) as [Hz|Hnz].
      - rewrite (flag_write_noop b1) by assumption.
        rewrite (flag_write_noop b2) by (assumption || congruence). tauto.
      - assert (0 < flag_toWrite b1 len) by (unfold flag_toWrite in *; lia).
        rewrite (flag_write_state b1) by assumption.
        rewrite (flag_write_state b2) by (assumption || lia). simpl.
        rewrite Hh, Ht, Hc, Ha, Hw. tauto. }
    destruct (write b1 data len) as [b1' n1], (write b2 data len) as [b2' n2].
    simpl in *. split; [congruence|].
    unfold same_view. rewrite Hc1, Hc2, Hct, Hw. tauto.
  - pose proof (flag_read_count b1 len Hw1 Hok) as Hn1.
    pose proof (flag_read_count b2 len Hw2 Hok) as Hn2.
    pose proof (flag_read_wf b1 len Hw1 Hok) as Hwf1.
    pose proof (flag_read_wf b2 len Hw2 Hok) as Hwf2.
    pose proof (flag_read_contents b1 len Hw1 Hok) as Hc1.
    pose proof (flag_read_contents b2 len Hw2 Hok) as Hc2.
    pose proof (flag_read_dest b1 len Hw1 Hok) as Hd1.
    pose proof (flag_read_dest b2 len Hw2 Hok) as Hd2.
    assert (Hr : flag_toRead b1 len = flag_toRead b2 len)
      by (unfold flag_toRead; rewrite Ha; reflexivity).
    assert (Hcur : mHead (read b1 len).1.1 = mHead (read b2 len).1.1
                   /\ mTail (read b1 len).1.1 = mTail (read b2 len).1.1
                   /\ mIsFull (read b1 len).1.1 = mIsFull (read b2 len).1.1
                   /\ mCapacity (read b1 len).1.1
                      = mCapacity (read b2 len).1.1).
    { pose proof (flag_avail_range b1 Hw1) as Hr1.
      destruct (Z.eq_dec (flag_toRead b1 len) 0) as [Hz|Hnz].
      - rewrite (flag_read_noop b1) by assumption.
        rewrite (flag_read_noop b2) by congruence. tauto.
      - assert (0 < flag_toRead b1 len) by (unfold flag_toRead in *; lia).
        rewrite (flag_read_state b1) by assumption.
        rewrite (flag_read_state b2) by (assumption || lia). simpl.
        rewrite Hh, Ht, Hc, Hr. tauto. }
    destruct (read b1 len) as [[b1' d1] n1], (read b2 len) as [[b2' d2] n2].
    simpl in *. split; [congruence|].
    unfold same_view. rewrite Hc1, Hc2, Hct, Hr. tauto.
  - split; [reflexivity|]. unfold same_view. simpl.
    do 3 (split; [reflexivity|]). split; [exact Hc|].
    split; [apply flag_clear_wf; exact Hw1|].
    split; [apply flag_clear_wf; exact Hw2 | reflexivity].
Qed.

Lemma same_view_run ops : forall b1 b2,
  same_view b1 b2 -> Forall op_ok ops ->
  (flag_run b1 ops).2 = (flag_run b2 ops).2.
Proof.
  induction ops as [|o ops IH]; intros b1 b2 Hv Hok; [reflexivity|].
  apply Forall_cons in Hok as [Ho Hok]. simpl.
  destruct (same_view_step b1 b2 o Hv Ho) as [Hr Hv'].
  pose proof (same_view_avail _ _ Hv') as Ha.
  destruct (flag_step b1 o) as [b1' r1], (flag_step b2 o) as [b2' r2].
  simpl in *. subst r2. specialize (IH b1' b2' Hv' Hok).
  destruct (flag_run b1' ops), (flag_run b2' ops). simpl in *.
  unfold available. rewrite Ha, IH. reflexivity.
Qed.

(** X4. [clear()] forgets everything but the capacity: from a cleared
    buffer every sequence of calls returns the same counts and delivers the
    same bytes as from a newly constructed buffer of the same capacity,
    whatever the storage still holds. Both versions. *)
Theorem clear_is_as_new (b : BufferFlag.Buffer) (a : BufferCount.Buffer)
    (ops : list op) :
  flag_wf b -> count_wf a -> Forall op_ok ops ->
  (flag_run (clear b) ops).2 = (flag_run (new (capacity b)) ops).2
  /\ (count_run (BufferCount.clear a) ops).2
     = (count_run (BufferCount.new (BufferCount.m_capacity a)) ops).2.
Proof.
  intros Hwf Hcwf Hok.
  assert (Hflag : forall b', flag_wf b' ->
    (flag_run (clear b') ops).2 = (flag_run (new (capacity b')) ops).2).
  { intros b' Hwf'. apply same_view_run; [|exact Hok].
    unfold same_view, capacity. simpl.
    do 4 (split; [reflexivity|]).
    split; [apply flag_clear_wf; exact Hwf'|].
    split; [|reflexivity]. apply flag_new_wf. destruct Hwf'; assumption. }
  split; [exact (Hflag b Hwf)|].
  pose proof (count_wf_sim a Hcwf) as Hsim.
  destruct (sim_run ops _ _ (sim_clear _ _ Hsim) Hok) as [Ht _].
  rewrite Ht. destruct Hsim as (_ & _ & _ & Hc & _ & Hw & Hmax).
  rewrite (Hflag (to_flag a) Hw). unfold capacity. rewrite <- Hc.
  symmetry. apply sim_run; [|exact Hok]. apply sim_new.
  destruct Hcwf as (Hcap & _). exact Hcap.
Qed.

Lemma clear_is_as_new_witness :
  (flag_run (clear holding8) [Read 2; Write writeData2 4; Read 9]).2
  = (flag_run (new (capacity holding8))
       [Read 2; Write writeData2 4; Read 9]).2.
Proof.
  destruct (clear_is_as_new holding8 count_holding8
              [Read 2; Write writeData2 4; Read 9]) as (H & _).
  - evaluate.
  - evaluate.
  - repeat constructor; evaluate.
  - exact H.
Defined.

Lemma flag_run_capacity ops : forall b,
  mCapacity (flag_run b ops).1 = mCapacity b.
Proof.
  induction ops as [|o ops IH]; intros b; [reflexivity|]. simpl.
  pose proof (flag_step_capacity b o) as H1.
  destruct (flag_step b o) as [b' r]. simpl in H1.
  specialize (IH b'). destruct (flag_run b' ops). simpl in *. lia.
Qed.

(** X5. The capacity is fixed at construction: after any sequence of
    calls on a buffer constructed with capacity [c], [capacity()] is still
    [c] and the storage still has [c] cells; no call resizes it. Both
    versions. *)
Theorem capacity_is_fixed (c : Z) (ops : list op) :
  0 <= c <= vector_max_size -> Forall op_ok ops ->
  let f := (flag_run (new c) ops).1 in
  let a := (count_run (BufferCount.new c) ops).1 in
  (capacity f = c /\ Z.of_nat (length (mBuffer f)) = c)
  /\ (BufferCount.m_capacity a = c
      /\ Z.of_nat (length (BufferCount.m_buffer a)) = c).
Proof.
  intros Hc Hok f a. pose proof vector_max_size_lt as Hvm.
  assert (Hwf : flag_wf f)
    by (apply flag_run_wf; [apply flag_new_wf; lia | exact Hok]).
  assert (Hcap : capacity f = c) by (apply (flag_run_capacity ops (new c))).
  assert (Hlen : Z.of_nat (length (mBuffer f)) = c).
  { destruct Hwf as (_ & Hl & _). unfold capacity in Hcap. lia. }
  split; [split; assumption|].
  destruct (sim_run ops (BufferCount.new c) (new c) (sim_new c Hc) Hok)
    as [_ (Hb & _ & _ & Hc' & _)].
  fold a in Hb, Hc'. fold f in Hb, Hc'. unfold capacity in Hcap.
  rewrite Hb, Hc'. split; assumption.
Qed.

Lemma capacity_is_fixed_witness :
  capacity (flag_run (new 10) [Write tenBytes 10; Read 4; Clear]).1 = 10
  /\ BufferCount.m_capacity
       (count_run (BufferCount.new 10) [Write tenBytes 10; Read 4; Clear]).1
     = 10.
Proof.
  destruct (capacity_is_fixed 10 [Write tenBytes 10; Read 4; Clear])
    as ((Hf & _) & (Hc & _)).
  - evaluate.
  - repeat constructor; evaluate.
  - split; [exact Hf | exact Hc].
Defined.

(** X6. [getFreeSpace()] of the occupied-count version is the
    complement of [getAvailable()]: the two always add up to the capacity,
    [write] returns [min(len, getFreeSpace())], and the free space goes
    down by what a [write] returns and up by what a [read] returns. *)
Theorem free_space_is_the_rest (a : BufferCount.Buffer) (data : list byte)
    (len : Z) :
  count_wf a -> 0 <= len <= Z.of_nat (length data) ->
  BufferCount.getFreeSpace a + BufferCount.getAvailable a
  = BufferCount.m_capacity a
  /\ (BufferCount.write a data len).2
     = Z.min len (BufferCount.getFreeSpace a)
  /\ BufferCount.getFreeSpace (BufferCount.write a data len).1
     = BufferCount.getFreeSpace a - (BufferCount.write a data len).2
  /\ BufferCount.getFreeSpace (BufferCount.read a len).1.1
     = BufferCount.getFreeSpace a + (BufferCount.read a len).2.
Proof.
  intros Hcwf Hlen. pose proof vector_max_size_lt as Hvm.
  pose proof (count_wf_sim a Hcwf) as Hsim.
  destruct (sim_write a _ data len Hsim Hlen) as [Hn Hs].
  destruct (sim_read a _ len Hsim (proj1 Hlen)) as (Hrn & _ & Hrs).
  apply sim_count_wf in Hs, Hrs.
  assert (Hfree : forall x, count_wf x ->
    BufferCount.getFreeSpace x
    = BufferCount.m_capacity x - BufferCount.m_dataAvailable x).
  { intros x (Hc & _ & _ & _ & Hav & _). unfold BufferCount.getFreeSpace.
    apply sz_small. lia. }
  rewrite !Hfree by assumption. unfold BufferCount.getAvailable.
  destruct Hcwf as (Hc & _ & _ & _ & Hav & _).
  split; [lia|].
  assert (Hw : (BufferCount.write a data len).2
               = Z.min len (BufferCount.m_capacity a
                            - BufferCount.m_dataAvailable a)).
  { unfold BufferCount.write. rewrite (sz_small (_ - _)) by lia.
    destruct (Z.eqb_spec (Z.min len (BufferCount.m_capacity a
                                     - BufferCount.m_dataAvailable a)) 0)
      as [->|_]; reflexivity. }
  split; [exact Hw|]. split.
  - unfold BufferCount.write in *. rewrite (sz_small (_ - _)) in * by lia.
    destruct (_ =? 0); simpl in *; [lia|]. rewrite sz_small by lia. lia.
  - unfold BufferCount.read in *.
    destruct (Z.eqb_spec (Z.min len (BufferCount.m_dataAvailable a)) 0);
      simpl in *; [lia|]. rewrite sz_small by lia. lia.
Qed.

Lemma free_space_is_the_rest_witness :
  BufferCount.getFreeSpace count_holding8
  + BufferCount.getAvailable count_holding8 = 10
  /\ (BufferCount.write count_holding8 writeData2 4).2 = 2.
Proof.
  destruct (free_space_is_the_rest count_holding8 writeData2 4)
    as (Hsum & Hw & _).
  - evaluate.
  - evaluate.
  - split; [exact Hsum | exact Hw].
Defined.

(** The loop of [write], cut in two. *)
Lemma write_loop_app n1 : forall n2 i data buf head cap,
  write_loop (n1 + n2) i data buf head cap
  = write_loop n2 (i + n1) data (write_loop n1 i data buf head cap).1
      (write_loop n1 i data buf head cap).2 cap.
Proof.
  induction n1 as [|n1 IH]; intros n2 i data buf head cap; simpl.
  - rewrite Nat.add_0_r. reflexivity.
  - rewrite IH. replace (S i + n1)%nat with (i + S n1)%nat by lia.
    reflexivity.
Qed.

Lemma write_loop_drop n : forall i k data buf head cap,
  write_loop n i (drop k data) buf head cap
  = write_loop n (k + i) data buf head cap.
Proof.
  induction n as [|n IH]; intros i k data buf head cap; simpl; [reflexivity|].
  rewrite lookup_total_drop, IH.
  replace (k + S i)%nat with (S (k + i)) by lia. reflexivity.
Qed.

(** Only the count actually transferred matters to a call. *)
Lemma write_by_count b data l1 l2 :
  flag_wf b -> flag_toWrite b l1 = flag_toWrite b l2 ->
  write b data l1 = write b data l2.
Proof.
  intros Hwf Heq. pose proof (flag_avail_range b Hwf) as Ha.
  destruct Hwf as (Hc & _). unfold write. rewrite sz_small by lia.
  fold (flag_toWrite b l1). fold (flag_toWrite b l2). rewrite Heq.
  reflexivity.
Qed.

Lemma read_by_count b l1 l2 :
  flag_toRead b l1 = flag_toRead b l2 -> read b l1 = read b l2.
Proof.
  intros Heq. unfold read.
  fold (flag_toRead b l1). fold (flag_toRead b l2). rewrite Heq.
  reflexivity.
Qed.

(** A walk around the ring, cut in two. *)
Lemma ring_app v start cap n1 n2 :
  0 < cap ->
  ring v start cap (n1 + n2)
  = ring v start cap n1 ++ ring v (advance start (Z.of_nat n1) cap) cap n2.
Proof.
  intros Hcap.
  rewrite <- (take_drop n1 (ring v start cap (n1 + n2))).
  rewrite take_ring, drop_ring by lia. do 3 f_equal. lia.
Qed.

Lemma advance_advance c k1 k2 cap :
  advance (advance c k1 cap) k2 cap = advance c (k1 + k2) cap.
Proof.
  unfold advance. rewrite Zplus_mod_idemp_l. f_equal. lia.
Qed.

Lemma flag_reads_split b n1 n2 :
  flag_wf b -> 0 <= n1 -> 0 <= n2 ->
  (read b (n1 + n2)).1.1 = (read (read b n1).1.1 n2).1.1
  /\ (read b (n1 + n2)).1.2 = (read b n1).1.2 ++ (read (read b n1).1.1 n2).1.2
  /\ (read b (n1 + n2)).2 = (read b n1).2 + (read (read b n1).1.1 n2).2.
Proof.
  intros Hwf H1 H2. pose proof (flag_avail_range b Hwf) as Ha.
  pose proof (flag_read_wf b n1 Hwf H1) as Hwf1.
  pose proof (flag_read_avail b n1 Hwf H1) as Hav1.
  destruct (Z.eq_dec (flag_toRead b n1) 0) as [Hz1|Hnz1].
  { rewrite (flag_read_noop b n1) by exact Hz1. simpl.
    rewrite (read_by_count b (n1 + n2) n2) by (unfold flag_toRead in *; lia).
    tauto. }
  assert (Hp1 : 0 < flag_toRead b n1) by (unfold flag_toRead in *; lia).
  destruct (Z.eq_dec (flag_toRead (read b n1).1.1 n2) 0) as [Hz2|Hnz2].
  { rewrite (flag_read_noop _ n2) by exact Hz2. simpl.
    rewrite (read_by_count b (n1 + n2) n1)
      by (unfold flag_toRead in *; lia).
    rewrite app_nil_r. split; [reflexivity|]. split; [reflexivity|lia]. }
  assert (Hp2 : 0 < flag_toRead (read b n1).1.1 n2)
    by (unfold flag_toRead in *; lia).
  assert (Hsum : flag_toRead b (n1 + n2)
                 = flag_toRead b n1 + flag_toRead (read b n1).1.1 n2)
    by (unfold flag_toRead in *; lia).
  assert (Hcpos : 0 < mCapacity b) by (unfold flag_toRead in *; lia).
  rewrite (flag_read_state (read b n1).1.1 n2) by assumption.
  rewrite (flag_read_state b (n1 + n2)) by (assumption || lia).
  revert Hsum Hp2. rewrite (flag_read_state b n1) by assumption. simpl.
  intros Hsum Hp2. rewrite Hsum.
  destruct Hwf as (Hc & _).
  rewrite advance_advance. split; [reflexivity|]. split; [|reflexivity].
  rewrite Z2Nat.inj_add by lia. rewrite ring_app by lia.
  rewrite Z2Nat.id by lia. reflexivity.
Qed.

Lemma flag_writes_split b data n1 n2 :
  flag_wf b -> 0 <= n1 -> 0 <= n2 ->
  n1 + n2 <= Z.of_nat (length data) ->
  (write b data (n1 + n2)).1
  = (write (write b data n1).1 (drop (Z.to_nat n1) data) n2).1
  /\ (write b data (n1 + n2)).2
     = (write b data n1).2
       + (write (write b data n1).1 (drop (Z.to_nat n1) data) n2).2.
Proof.
  intros Hwf H1 H2 Hlen. pose proof (flag_avail_range b Hwf) as Ha.
  pose proof (flag_write_wf b data n1 Hwf H1) as Hwf1.
  pose proof (flag_write_avail b data n1 Hwf H1) as Hav1.
  pose proof (flag_write_capacity b data n1) as Hcap1.
  rewrite !flag_write_count by assumption.
  destruct (Z.eq_dec (flag_toWrite b n1) 0) as [Hz1|Hnz1].
  { rewrite (flag_write_noop b data n1) by assumption.
    destruct (Z.eq_dec n1 0) as [->|Hn1].
    - rewrite Z.add_0_l. simpl. rewrite drop_0.
      split; [reflexivity|]. rewrite Hz1. lia.
    - assert (Hfull : getAvailableInternal b = mCapacity b)
        by (unfold flag_toWrite in *; lia).
      rewrite (flag_write_noop b _ n2)
        by (assumption || unfold flag_toWrite; lia).
      rewrite (flag_write_noop b data)
        by (assumption || unfold flag_toWrite; lia).
      split; [reflexivity|]. unfold flag_toWrite. lia. }
  assert (Hp1 : 0 < flag_toWrite b n1) by (unfold flag_toWrite in *; lia).
  destruct (Z.eq_dec (flag_toWrite (write b data n1).1 n2) 0) as [Hz2|Hnz2].
  { rewrite (flag_write_noop _ _ n2) by assumption.
    rewrite (write_by_count b data (n1 + n2) n1)
      by (assumption || unfold flag_toWrite in *; lia).
    split; [reflexivity|]. unfold flag_toWrite in *. lia. }
  assert (Hp2 : 0 < flag_toWrite (write b data n1).1 n2)
    by (unfold flag_toWrite in *; lia).
  assert (Hw1 : flag_toWrite b n1 = n1) by (unfold flag_toWrite in *; lia).
  assert (Hsum : flag_toWrite b (n1 + n2)
                 = n1 + flag_toWrite (write b data n1).1 n2)
    by (unfold flag_toWrite in *; lia).
  split; [|lia].
  assert (Hcpos : 0 < mCapacity b) by (unfold flag_toWrite in *; lia).
  assert (Hroom : n1 <= mCapacity b - getAvailableInternal b)
    by (unfold flag_toWrite in *; lia).
  pose proof (flag_write_state b data n1 Hwf Hp1) as Hst.
  simpl in Hst. rewrite Hw1 in Hst.
  set (b1 := (write b data n1).1) in *.
  set (w2 := flag_toWrite b1 n2) in *.
  assert (Hb1 : mBuffer b1 = (write_loop (Z.to_nat n1) 0 data (mBuffer b)
                                (mHead b) (mCapacity b)).1)
    by (rewrite Hst; reflexivity).
  assert (Hh1 : mHead b1 = advance (mHead b) n1 (mCapacity b))
    by (rewrite Hst; reflexivity).
  assert (Ht1 : mTail b1 = mTail b) by (rewrite Hst; reflexivity).
  rewrite (flag_write_state b1 _ n2) by assumption.
  rewrite (flag_write_state b data (n1 + n2)) by (assumption || lia).
  simpl. fold w2. rewrite Hsum, Hb1, Hh1, Ht1, Hcap1, Hav1, Hw1.
  rewrite advance_advance.
  destruct Hwf as (Hc & Hl & Hh & Ht & H0 & Hpos & Hfull).
  destruct (write_loop_spec (Z.to_nat n1) 0 data (mBuffer b) (mHead b)
              (mCapacity b)) as (Hhd & _); [lia..|].
  assert (Hbuf :
    (write_loop (Z.to_nat (n1 + w2)) 0 data (mBuffer b) (mHead b)
       (mCapacity b)).1
    = (write_loop (Z.to_nat w2) 0 (drop (Z.to_nat n1) data)
         (write_loop (Z.to_nat n1) 0 data (mBuffer b) (mHead b)
            (mCapacity b)).1
         (advance (mHead b) n1 (mCapacity b)) (mCapacity b)).1).
  { rewrite Z2Nat.inj_add by lia. rewrite write_loop_app, write_loop_drop.
    rewrite Hhd, Z2Nat.id by lia. rewrite Nat.add_0_r. reflexivity. }
  rewrite Hbuf. f_equal.
  apply bool_decide_ext. lia.
Qed.

(** A state of the full-flag version has one counterpart only. *)
Lemma sim_functional a a' b : sim a b -> sim a' b -> a = a'.
Proof.
  intros (H1 & H2 & H3 & H4 & H5 & _) (H1' & H2' & H3' & H4' & H5' & _).
  destruct a, a'. simpl in *. congruence.
Qed.

(** X7. Reading in two calls or in one is the same: in every reachable
    state [read(n1 + n2)] leaves the buffer in the state [read(n1)]
    followed by [read(n2)] leaves it in, delivers the bytes of the first
    call followed by the bytes of the second, and returns the sum of their
    counts. Both versions. *)
Theorem reads_compose (b : BufferFlag.Buffer) (a : BufferCount.Buffer)
    (n1 n2 : Z) :
  flag_wf b -> count_wf a -> 0 <= n1 -> 0 <= n2 ->
  ((read b (n1 + n2)).1.1 = (read (read b n1).1.1 n2).1.1
   /\ (read b (n1 + n2)).1.2
      = (read b n1).1.2 ++ (read (read b n1).1.1 n2).1.2
   /\ (read b (n1 + n2)).2 = (read b n1).2 + (read (read b n1).1.1 n2).2)
  /\ ((BufferCount.read a (n1 + n2)).1.1
      = (BufferCount.read (BufferCount.read a n1).1.1 n2).1.1
      /\ (BufferCount.read a (n1 + n2)).1.2
         = (BufferCount.read a n1).1.2
           ++ (BufferCount.read (BufferCount.read a n1).1.1 n2).1.2
      /\ (BufferCount.read a (n1 + n2)).2
         = (BufferCount.read a n1).2
           + (BufferCount.read (BufferCount.read a n1).1.1 n2).2).
Proof.
  intros Hwf Hcwf H1 H2.
  split; [apply flag_reads_split; assumption|].
  pose proof (count_wf_sim a Hcwf) as Hsim.
  destruct (sim_read a _ (n1 + n2) Hsim) as (Hn & Hd & Hs); [lia|].
  destruct (sim_read a _ n1 Hsim H1) as (Hn1 & Hd1 & Hs1).
  destruct (sim_read _ _ n2 Hs1 H2) as (Hn2 & Hd2 & Hs2).
  destruct (flag_reads_split (to_flag a) n1 n2) as (F1 & F2 & F3);
    [destruct Hsim as (_ & _ & _ & _ & _ & Hw & _); exact Hw | lia | lia |].
  rewrite F1 in Hs. rewrite Hn, Hd, Hn1, Hd1, Hn2, Hd2.
  split; [exact (sim_functional _ _ _ Hs Hs2)|]. split; assumption.
Qed.

Lemma reads_compose_witness :
  (read holding8 7).1.2
  = (read holding8 3).1.2 ++ (read (read holding8 3).1.1 4).1.2
  /\ (BufferCount.read count_holding8 7).2
     = (BufferCount.read count_holding8 3).2
       + (BufferCount.read (BufferCount.read count_holding8 3).1.1 4).2.
Proof.
  destruct (reads_compose holding8 count_holding8 3 4)
    as [(_ & Hf & _) (_ & _ & Hc)].
  - evaluate.
  - evaluate.
  - evaluate.
  - evaluate.
  - split; [exact Hf | exact Hc].
Defined.

(** X8. Writing in two calls or in one is the same: in every reachable
    state [write(data, n1 + n2)] leaves the buffer in the state in which
    [write(data, n1)] followed by [write(data + n1, n2)] leaves it, and
    returns the sum of their counts, also when the buffer fills up on the
    way. Both versions. *)
Theorem writes_compose (b : BufferFlag.Buffer) (a : BufferCount.Buffer)
    (data : list byte) (n1 n2 : Z) :
  flag_wf b -> count_wf a -> 0 <= n1 -> 0 <= n2 ->
  n1 + n2 <= Z.of_nat (length data) ->
  ((write b data (n1 + n2)).1
   = (write (write b data n1).1 (drop (Z.to_nat n1) data) n2).1
   /\ (write b data (n1 + n2)).2
      = (write b data n1).2
        + (write (write b data n1).1 (drop (Z.to_nat n1) data) n2).2)
  /\ ((BufferCount.write a data (n1 + n2)).1
      = (BufferCount.write (BufferCount.write a data n1).1
           (drop (Z.to_nat n1) data) n2).1
      /\ (BufferCount.write a data (n1 + n2)).2
         = (BufferCount.write a data n1).2
           + (BufferCount.write (BufferCount.write a data n1).1
                (drop (Z.to_nat n1) data) n2).2).
Proof.
  intros Hwf Hcwf H1 H2 Hlen.
  split; [apply flag_writes_split; assumption|].
  pose proof (count_wf_sim a Hcwf) as Hsim.
  destruct (sim_write a _ data (n1 + n2) Hsim) as (Hn & Hs); [lia|].
  destruct (sim_write a _ data n1 Hsim) as (Hn1 & Hs1); [lia|].
  destruct (sim_write _ _ (drop (Z.to_nat n1) data) n2 Hs1) as (Hn2 & Hs2).
  { rewrite length_drop. lia. }
  destruct (flag_writes_split (to_flag a) data n1 n2) as (F1 & F2);
    [destruct Hsim as (_ & _ & _ & _ & _ & Hw & _); exact Hw | lia..|].
  rewrite F1 in Hs. rewrite Hn, Hn1, Hn2.
  split; [exact (sim_functional _ _ _ Hs Hs2) | exact F2].
Qed.

Lemma writes_compose_witness :
  (write drained8 tenBytes 10).1
  = (write (write drained8 tenBytes 4).1 (drop 4 tenBytes) 6).1
  /\ (BufferCount.write count_holding8 tenBytes 10).2
     = (BufferCount.write count_holding8 tenBytes 4).2
       + (BufferCount.write (BufferCount.write count_holding8 tenBytes 4).1
            (drop 4 tenBytes) 6).2.
Proof.
  destruct (writes_compose drained8 count_holding8 tenBytes 4 6)
    as [(Hf & _) (_ & Hc)].
  - evaluate.
  - evaluate.
  - evaluate.
  - evaluate.
  - evaluate.
  - split; [exact Hf | exact Hc].
Defined.

End BufferExtras.

(** ** The stress test of the buffer *)

Section StressFacts.
Import StressTest.

Lemma sz_mod_256 x : sz x mod 256 = x mod 256.
Proof.
  unfold sz. apply Z.mod_mod_divide. exists (2 ^ 56). reflexivity.
Qed.

Lemma expected_app n w :
  0 <= n -> 0 <= w ->
  expected (n + w)
  = expected n ++ ((fun i => uint8_cast (sz (n + i) mod 256)) <$> seqZ 0 w).
Proof.
  intros Hn Hw. unfold expected. rewrite seqZ_app, fmap_app by lia.
  f_equal. rewrite Z.add_0_l.
  replace (seqZ n w) with (Z.add n <$> seqZ 0 w)
    by (rewrite fmap_add_seqZ, Z.add_0_r; reflexivity).
  rewrite <- list_fmap_compose. apply list_fmap_ext. intros _ i _. simpl.
  rewrite sz_mod_256. reflexivity.
Qed.

Lemma take_chunk n w :
  0 <= w <= 100 ->
  take (Z.to_nat w) (chunk n)
  = (fun i => uint8_cast (sz (n + i) mod 256)) <$> seqZ 0 w.
Proof.
  intros Hw. unfold chunk. rewrite <- fmap_take. f_equal.
  replace 100 with (w + (100 - w)) by lia. rewrite seqZ_app by lia.
  rewrite take_app_length'; [reflexivity|]. rewrite length_seqZ. reflexivity.
Qed.

Lemma length_chunk n : length (chunk n) = 100%nat.
Proof. unfold chunk. rewrite length_fmap, length_seqZ. reflexivity. Qed.

Lemma stress_init_inv capacity total :
  0 <= capacity < size_modulus -> 0 <= total ->
  stress_inv total (init capacity).
Proof.
  intros Hc Ht. unfold stress_inv, init. simpl.
  split; [apply flag_new_wf; exact Hc|]. split; [lia|].
  split; [reflexivity|]. repeat split; discriminate.
Qed.

Lemma stress_step_inv total t s s' :
  0 <= total < size_modulus ->
  stress_inv total s -> step total t s = Some s' -> stress_inv total s'.
Proof.
  intros Htot (Hwf & Hbs & Hdata & Hfin & Hav & Hleft) Hstep.
  pose proof (flag_avail_range _ Hwf) as Ha.
  destruct t; simpl in Hstep.
  - (* producer *)
    unfold producer_step in Hstep.
    destruct (producerFinished s) eqn:Hpf; [discriminate|].
    destruct (Z.ltb_spec (bytesSent s) total) as [Hlt|Hge].
    + rewrite (sz_small (total - bytesSent s)) in Hstep by lia.
      set (toWrite := Z.min 100 (total - bytesSent s)) in *.
      assert (Hlen : 0 <= toWrite <= Z.of_nat (length (chunk (bytesSent s))))
        by (rewrite length_chunk; unfold toWrite; lia).
      pose proof (flag_write_wf _ (chunk (bytesSent s)) toWrite Hwf
                    (proj1 Hlen)) as Hwf'.
      pose proof (flag_write_count _ (chunk (bytesSent s)) toWrite Hwf) as Hn.
      pose proof (flag_write_contents _ (chunk (bytesSent s)) toWrite Hwf Hlen)
        as Hct.
      assert (Hw : 0 <= flag_toWrite (buffer s) toWrite <= toWrite)
        by (unfold flag_toWrite; lia).
      destruct (BufferFlag.write _ _ _) as [b written]. simpl in *.
      subst written. injection Hstep as <-. unfold stress_inv. simpl.
      assert (Htw : toWrite <= total - bytesSent s /\ toWrite <= 100)
        by (unfold toWrite; lia).
      rewrite sz_small by lia.
      split; [exact Hwf'|]. split; [lia|].
      split; [|split; [discriminate|split; assumption]].
      rewrite Hct, app_assoc, Hdata, take_chunk by lia.
      symmetry. apply expected_app; lia.
    + injection Hstep as <-. unfold stress_inv. simpl.
      split; [exact Hwf|]. split; [exact Hbs|]. split; [exact Hdata|].
      split; [intros _; lia|]. split; [reflexivity | exact Hleft].
  - (* consumer *)
    unfold consumer_step in Hstep.
    destruct (at_consumer s) eqn:Hpc.
    + assert (Hlen : 0 <= 100) by lia.
      pose proof (flag_read_wf _ 100 Hwf Hlen) as Hwf'.
      pose proof (flag_read_dest _ 100 Hwf Hlen) as Hd.
      pose proof (flag_read_count _ 100 Hwf Hlen) as Hn.
      pose proof (flag_read_contents _ 100 Hwf Hlen) as Hct.
      destruct (BufferFlag.read _ _) as [[b readBuf] bytesRead].
      simpl in *. injection Hstep as <-. unfold stress_inv. simpl.
      split; [exact Hwf'|]. split; [exact Hbs|].
      split; [|split; [exact Hfin | split; discriminate]].
      rewrite Hct, Hd, Hn, take_take, Nat.min_id, <- app_assoc, take_drop.
      exact Hdata.
    + injection Hstep as <-. unfold stress_inv. simpl.
      split; [exact Hwf|]. split; [exact Hbs|]. split; [exact Hdata|].
      split; [exact Hfin|].
      destruct (producerFinished s); split; try discriminate; reflexivity.
    + injection Hstep as <-. unfold stress_inv. simpl.
      split; [exact Hwf|]. split; [exact Hbs|]. split; [exact Hdata|].
      split; [exact Hfin|].
      destruct (Z.eqb_spec (BufferFlag.available (buffer s)) 0) as [Hz|Hnz];
        split; try discriminate.
      intros _. rewrite <- (Hfin (Hav eq_refl)), <- Hdata.
      unfold flag_contents. unfold BufferFlag.available in Hz. rewrite Hz.
      simpl. rewrite app_nil_r. reflexivity.
    + discriminate.
Qed.

Lemma stress_run_inv total sched : forall s s',
  0 <= total < size_modulus ->
  stress_inv total s -> run total sched s = Some s' -> stress_inv total s'.
Proof.
  induction sched as [|t sched IH]; intros s s' Htot Hinv Hrun; simpl in Hrun.
  - injection Hrun as <-. exact Hinv.
  - destruct (step total t s) as [s1|] eqn:Hstep; [|discriminate].
    apply (IH s1 s' Htot); [|exact Hrun].
    exact (stress_step_inv total t s s1 Htot Hinv Hstep).
Qed.

Lemma stress_run_app total a : forall b s,
  run total (a ++ b) s = match run total a s with
                         | Some s' => run total b s'
                         | None => None
                         end.
Proof.
  induction a as [|t a IH]; intros b s; simpl; [reflexivity|].
  destruct (step total t s); [apply IH | reflexivity].
Qed.

(** One iteration of the producer followed by one pass of the consumer,
    from an empty buffer: the bytes written are all read. *)
Lemma stress_round total s :
  0 <= total < size_modulus -> stress_inv total s ->
  BufferFlag.getAvailableInternal (buffer s) = 0 ->
  producerFinished s = false -> at_consumer s = AtRead ->
  bytesSent s < total ->
  exists s',
    run total [Producer; Consumer; Consumer] s = Some s'
    /\ bytesSent s'
       = Z.min (bytesSent s + Z.min 100 (BufferFlag.mCapacity (buffer s)))
           total
    /\ BufferFlag.getAvailableInternal (buffer s') = 0
    /\ producerFinished s' = false /\ at_consumer s' = AtRead
    /\ BufferFlag.mCapacity (buffer s') = BufferFlag.mCapacity (buffer s).
Proof.
  intros Htot (Hwf & Hbs & _) Hav Hpf Hpc Hlt.
  pose proof (flag_avail_range _ Hwf) as Ha.
  cbn [run step]. unfold producer_step. rewrite Hpf.
  destruct (Z.ltb_spec (bytesSent s) total) as [_|Hge]; [|lia].
  rewrite (sz_small (total - bytesSent s)) by lia.
  set (toWrite := Z.min 100 (total - bytesSent s)).
  assert (Htw : 0 <= toWrite /\ toWrite <= 100
                /\ toWrite <= total - bytesSent s)
    by (unfold toWrite; lia).
  pose proof (flag_write_wf _ (chunk (bytesSent s)) toWrite Hwf (proj1 Htw))
    as Hwf1.
  pose proof (flag_write_count _ (chunk (bytesSent s)) toWrite Hwf) as Hn.
  pose proof (flag_write_avail _ (chunk (bytesSent s)) toWrite Hwf
                (proj1 Htw)) as Hav1.
  pose proof (flag_write_capacity (buffer s) (chunk (bytesSent s)) toWrite)
    as Hcap1.
  destruct (BufferFlag.write _ _ _) as [b1 written].
  simpl in Hwf1, Hn, Hav1, Hcap1.
  assert (Hw : written = Z.min toWrite (BufferFlag.mCapacity (buffer s)))
    by (rewrite Hn; unfold flag_toWrite; rewrite Hav; lia).
  rewrite Hav in Hav1. rewrite <- Hn in Hav1. simpl in Hav1.
  unfold consumer_step. cbn [at_consumer buffer]. rewrite Hpc.
  assert (H100 : 0 <= 100) by lia.
  pose proof (flag_read_avail b1 100 Hwf1 H100) as Hav2.
  pose proof (flag_read_capacity b1 100) as Hcap2.
  destruct (BufferFlag.read b1 100) as [[b2 readBuf] bytesRead].
  simpl in Hav2, Hcap2. cbn [at_consumer producerFinished].
  eexists. split; [reflexivity|]. cbn.
  rewrite sz_small by lia.
  split; [unfold toWrite in *; lia|].
  split; [unfold flag_toRead in Hav2; lia|].
  split; [reflexivity|]. split; [reflexivity|]. congruence.
Qed.

Lemma stress_rounds capacity total (k : nat) :
  0 < capacity < size_modulus -> 0 <= total < size_modulus ->
  (k = 0%nat \/ (Z.of_nat k - 1) * Z.min 100 capacity < total) ->
  exists s,
    run total (concat (replicate k [Producer; Consumer; Consumer]))
      (init capacity) = Some s
    /\ bytesSent s = Z.min (Z.of_nat k * Z.min 100 capacity) total
    /\ BufferFlag.getAvailableInternal (buffer s) = 0
    /\ producerFinished s = false /\ at_consumer s = AtRead
    /\ BufferFlag.mCapacity (buffer s) = capacity.
Proof.
  intros Hc Ht. induction k as [|k IH]; intros Hk.
  - exists (init capacity). simpl. repeat split; lia.
  - destruct IH as (s & Hrun & Hbs & Hav & Hpf & Hpc & Hcap); [lia|].
    assert (Hinv : stress_inv total s).
    { refine (stress_run_inv total _ (init capacity) s Ht _ Hrun).
      apply stress_init_inv; lia. }
    destruct (stress_round total s Ht Hinv Hav Hpf Hpc)
      as (s' & Hrun' & Hbs' & Hav' & Hpf' & Hpc' & Hcap'); [lia|].
    exists s'. rewrite replicate_S_end, concat_app, stress_run_app, Hrun.
    simpl concat. split; [exact Hrun'|].
    split; [rewrite Hbs', Hcap, Hbs; lia|].
    split; [exact Hav'|]. split; [exact Hpf'|]. split; [exact Hpc'|].
    congruence.
Qed.

(** Once everything has been sent and read, both threads finish. *)
Lemma stress_finish total s :
  stress_inv total s ->
  BufferFlag.getAvailableInternal (buffer s) = 0 ->
  producerFinished s = false -> at_consumer s = AtRead ->
  bytesSent s = total ->
  exists s',
    run total [Producer; Consumer; Consumer; Consumer] s = Some s'
    /\ at_consumer s' = Left.
Proof.
  intros (Hwf & _) Hav Hpf Hpc Hbs.
  cbn [run step]. unfold producer_step. rewrite Hpf, Hbs, Z.ltb_irrefl.
  unfold consumer_step. cbn [at_consumer buffer producerFinished].
  rewrite Hpc.
  rewrite (flag_read_noop (buffer s) 100)
    by (unfold flag_toRead; rewrite Hav; reflexivity).
  cbn [at_consumer buffer producerFinished].
  unfold BufferFlag.available. rewrite Hav. simpl.
  eexists. split; reflexivity.
Qed.

(** With no room at all nothing is ever sent. *)
Lemma stress_no_room total t s s' :
  0 < total ->
  (flag_wf (buffer s) /\ BufferFlag.mCapacity (buffer s) = 0
   /\ bytesSent s = 0 /\ producerFinished s = false
   /\ (at_consumer s = AtRead \/ at_consumer s = AtFlag)) ->
  step total t s = Some s' ->
  flag_wf (buffer s') /\ BufferFlag.mCapacity (buffer s') = 0
  /\ bytesSent s' = 0 /\ producerFinished s' = false
  /\ (at_consumer s' = AtRead \/ at_consumer s' = AtFlag).
Proof.
  intros Htot (Hwf & Hcap & Hbs & Hpf & Hpc) Hstep.
  pose proof (flag_avail_range _ Hwf) as Ha.
  destruct t; simpl in Hstep.
  - unfold producer_step in Hstep. rewrite Hpf, Hbs in Hstep.
    destruct (Z.ltb_spec 0 total) as [_|Hge]; [|lia].
    assert (Hz : forall len, flag_toWrite (buffer s) len = 0 \/ len < 0)
      by (intros len; unfold flag_toWrite; lia).
    pose proof (flag_write_count (buffer s) (chunk 0)
                  (Z.min 100 (sz (total - 0))) Hwf) as Hn.
    assert (Hw0 : flag_toWrite (buffer s) (Z.min 100 (sz (total - 0))) = 0).
    { unfold flag_toWrite. unfold sz.
      pose proof (Z.mod_pos_bound (total - 0) size_modulus eq_refl). lia. }
    pose proof (flag_write_noop (buffer s) (chunk 0)
                  (Z.min 100 (sz (total - 0))) Hwf Hw0) as Hb.
    destruct (BufferFlag.write _ _ _) as [b written]. simpl in Hn, Hb.
    subst b. rewrite Hn, Hw0 in Hstep. injection Hstep as <-. simpl.
    split; [exact Hwf|]. split; [exact Hcap|]. split; [reflexivity|].
    split; [reflexivity | exact Hpc].
  - unfold consumer_step in Hstep. destruct Hpc as [Hpc|Hpc];
      rewrite Hpc in Hstep.
    + rewrite (flag_read_noop (buffer s) 100) in Hstep
        by (unfold flag_toRead; lia).
      injection Hstep as <-. simpl.
      split; [exact Hwf|]. split; [exact Hcap|]. split; [exact Hbs|].
      split; [exact Hpf | tauto].
    + rewrite Hpf in Hstep. injection Hstep as <-. simpl.
      split; [exact Hwf|]. split; [exact Hcap|]. split; [exact Hbs|].
      split; [reflexivity | tauto].
Qed.

Lemma stress_no_room_run total sched : forall s s',
  0 < total ->
  (flag_wf (buffer s) /\ BufferFlag.mCapacity (buffer s) = 0
   /\ bytesSent s = 0 /\ producerFinished s = false
   /\ (at_consumer s = AtRead \/ at_consumer s = AtFlag)) ->
  run total sched s = Some s' ->
  bytesSent s' = 0 /\ producerFinished s' = false /\ at_consumer s' <> Left.
Proof.
  induction sched as [|t sched IH]; intros s s' Htot Hs Hrun; simpl in Hrun.
  - injection Hrun as <-. destruct Hs as (_ & _ & Hbs & Hpf & [Hpc|Hpc]);
      rewrite Hpc; repeat split; try assumption; discriminate.
  - destruct (step total t s) as [s1|] eqn:Hstep; [|discriminate].
    apply (IH s1 s' Htot); [|exact Hrun].
    exact (stress_no_room total t s s1 Htot Hs Hstep).
Qed.

(** X9. The producer-consumer test of testBuffer.cpp, for every capacity
    and every number of bytes, under every interleaving of the calls of
    the two threads: the bytes the consumer has received followed by the
    bytes in the buffer are always the first [bytesSent] bytes of the
    expected sequence, no byte lost, repeated or out of order, and the
    consumer leaves its loop only when it has received all [TOTAL_BYTES]
    bytes, which is what the test then checks. With a capacity above 0,
    letting the two threads take turns brings the consumer to that exit
    after [k] turns, [k] being the number of chunks of
    [min(100, capacity)] bytes needed; with capacity 0 nothing is ever
    sent and the consumer never leaves. *)
Theorem stress_test_delivers (capacity total : Z)
    (sched : list thread_id) (s : state) :
  0 <= capacity < size_modulus -> 0 <= total < size_modulus ->
  run total sched (init capacity) = Some s ->
  receivedData s ++ flag_contents (buffer s) = expected (bytesSent s)
  /\ bytesSent s <= total
  /\ (at_consumer s = Left -> receivedData s = expected total)
  /\ (forall k : nat,
        0 < capacity ->
        (Z.of_nat k - 1) * Z.min 100 capacity < total
          <= Z.of_nat k * Z.min 100 capacity ->
        exists s', run total (alternate k) (init capacity) = Some s'
                   /\ at_consumer s' = Left
                   /\ receivedData s' = expected total)
  /\ (capacity = 0 -> 0 < total ->
      bytesSent s = 0 /\ producerFinished s = false
      /\ at_consumer s <> Left).
Proof.
  intros Hc Ht Hrun.
  pose proof (stress_init_inv capacity total Hc (proj1 Ht)) as Hinit.
  destruct (stress_run_inv total sched (init capacity) s Ht Hinit Hrun)
    as (_ & Hbs & Hdata & _ & _ & Hleft).
  split; [exact Hdata|]. split; [lia|]. split; [exact Hleft|]. split.
  - intros k Hpos Hk.
    destruct (stress_rounds capacity total k) as
      (s1 & Hrun1 & Hbs1 & Hav1 & Hpf1 & Hpc1 & _); [lia | exact Ht | lia |].
    assert (Hinv1 : stress_inv total s1)
      by exact (stress_run_inv total _ _ s1 Ht Hinit Hrun1).
    destruct (stress_finish total s1 Hinv1 Hav1 Hpf1 Hpc1)
      as (s2 & Hrun2 & Hl2); [lia|].
    exists s2. unfold alternate. rewrite stress_run_app, Hrun1.
    split; [exact Hrun2|]. split; [exact Hl2|].
    assert (Hrun12 : run total (alternate k) (init capacity) = Some s2)
      by (unfold alternate; rewrite stress_run_app, Hrun1; exact Hrun2).
    destruct (stress_run_inv total _ _ s2 Ht Hinit Hrun12)
      as (_ & _ & _ & _ & _ & Hleft2).
    exact (Hleft2 Hl2).
  - intros Hc0 Htot. subst capacity.
    apply (stress_no_room_run total sched (init 0) s Htot); [|exact Hrun].
    split; [apply flag_new_wf; lia|]. simpl. tauto.
Qed.


Lemma stress_test_delivers_witness :
  exists s,
    run 10 [Producer; Consumer; Producer; Consumer] (init 4) = Some s
    /\ receivedData s ++ flag_contents (buffer s) = expected (bytesSent s).
Proof.
  assert (Hr : exists s,
             run 10 [Producer; Consumer; Producer; Consumer] (init 4)
             = Some s)
    by (eexists; vm_compute; reflexivity).
  destruct Hr as [s Hs]. exists s. split; [exact Hs|].
  destruct (stress_test_delivers 4 10
              [Producer; Consumer; Producer; Consumer] s) as (H & _).
  - evaluate.
  - evaluate.
  - exact Hs.
  - exact H.
Defined.

End StressFacts.

(** ** Further properties of the thread-safe queue *)

Section QueueExtras.
Import ThreadSafeQueue.
Context {T : Type}.
Implicit Types (s : system T) (th : thread T) (tr : list (event T)).

Ltac step_split H th Hth Hpc Hcs :=
  unfold step_thread in H;
  match type of H with
  | match ?x with _ => _ end = _ =>
      destruct x as [th|] eqn:Hth; [|discriminate H];
      destruct (at_pc th) eqn:Hpc; destruct (calls th) as [|[?|?|?] ?] eqn:Hcs;
      repeat match type of H with
             | match ?y with _ => _ end = _ => destruct y eqn:?
             | (if ?y then _ else _) = _ => destruct y eqn:?
             end;
      try discriminate H; injection H as <- <-
  end.

Lemma step_owner_ok t s s' e :
  lock_ok s -> owner_ok s -> step_thread t s = Some (s', e) -> owner_ok s'.
Proof.
  intros Hok [Hown Hin] Hstep. step_split Hstep th0 Hth Hpc Hcs.
  all: pose proof (lookup_lt_Some _ _ _ Hth) as Hlt.
  all: pose proof (Hin t th0 Hth) as Hin0; rewrite Hpc, Hcs in Hin0;
       simpl in Hin0.
  all: try (exfalso; apply Hin0; reflexivity).
  all: destruct (Hok t th0 Hth) as (Hmine & _ & _); rewrite Hpc in Hmine;
       simpl in Hmine.
  all: split.
  all: try (intros t' Hm; simpl in Hm;
      first
        [ discriminate Hm
        | try (rewrite Hmine in Hm by reflexivity);
          injection Hm as <-;
          unfold set_thread; simpl;
          eexists; split;
            [ apply list_lookup_insert_eq; exact Hlt | reflexivity ] ]).
  all: (intros t' th' Hl Hi; unfold set_thread in Hl; simpl in Hl;
      destruct (decide (t' = t)) as [->|Hneq];
        [ rewrite list_lookup_insert_eq in Hl by exact Hlt;
          injection Hl as <-; simpl in Hi |- *;
          first [ discriminate Hi | rewrite ?Hcs; discriminate ]
        | rewrite list_lookup_insert_ne in Hl by congruence;
          exact (Hin t' th' Hl Hi) ]).
Qed.

Lemma init_owner_ok (progs : list (list (call T))) : owner_ok (init progs).
Proof.
  split.
  - intros t Hm. discriminate Hm.
  - intros t th Hl Hi. unfold init in Hl. simpl in Hl.
    rewrite list_lookup_fmap in Hl.
    destruct (progs !! t); [|discriminate]. injection Hl as <-.
    discriminate Hi.
Qed.

Lemma exec_owner_ok s tr s' :
  lock_ok s -> owner_ok s -> exec s tr s' -> owner_ok s'.
Proof.
  intros Hok Hown Hex. induction Hex as [|tr s1 t s2 e Hex IH Hstep];
    [exact Hown|].
  exact (step_owner_ok t s1 s2 e (exec_lock_ok s tr s1 Hok Hex) IH Hstep).
Qed.

Lemma holder_can_step t s th :
  lock_ok s -> owner_ok s -> threads s !! t = Some th ->
  holds (at_pc th) = true -> step_thread t s <> None.
Proof.
  intros Hok [_ Hin] Hl Hh. destruct (Hok t th Hl) as (_ & Hne & _).
  pose proof (Hin t th Hl) as Hin0.
  unfold step_thread. rewrite Hl.
  destruct (at_pc th) eqn:Hpc; try discriminate Hh; simpl in Hin0.
  - destruct (calls th) as [|[v|v|v] rest];
      [exfalso; apply Hin0; reflexivity| | |];
      try destruct (empty (mQueue s)); discriminate.
  - destruct (mQueue s); [exfalso; apply Hne; reflexivity|].
    destruct (calls th); discriminate.
  - destruct (calls th); discriminate.
  - destruct (calls th); discriminate.
Qed.

Lemma starved_init (progs : list (list (call T))) : starved progs (init progs).
Proof.
  split; [reflexivity|]. intros t th Hl. unfold init in Hl. simpl in Hl.
  rewrite list_lookup_fmap in Hl.
  destruct (progs !! t) as [p|] eqn:Hp; [|discriminate].
  injection Hl as <-. exists p, []. simpl.
  repeat split; try reflexivity; try discriminate.
Qed.

Lemma starved_step progs t s s' e :
  Forall (fun p => forallb is_pop p = true) progs ->
  starved progs s -> step_thread t s = Some (s', e) -> starved progs s'.
Proof.
  intros Hpop [Hq Hth0] Hstep. step_split Hstep th0 Hth Hpc Hcs.
  all: pose proof (lookup_lt_Some _ _ _ Hth) as Hlt.
  all: destruct (Hth0 t th0 Hth)
         as (p & done & Hp & Hsplit & Hdone & Hnf & Hrc & Hne & Hfe);
       rewrite Hcs in Hsplit.
  all: try (exfalso; apply Hne; exact Hpc).
  all: try (exfalso; eapply Hfe; exact Hpc).
  all: try match goal with
           | H : empty _ = false |- _ =>
               rewrite Hq in H; discriminate H
           end.
  all: try (exfalso;
            pose proof (proj1 (Forall_lookup _ _) Hpop t p Hp) as Hall;
            rewrite Hsplit, forallb_app in Hall; simpl in Hall;
            rewrite andb_false_r in Hall; discriminate Hall).
  all: split; [simpl; exact Hq|].
  all: intros t' th' Hl; unfold set_thread in Hl; simpl in Hl.
  all: destruct (decide (t' = t)) as [->|Hneq];
    [ rewrite list_lookup_insert_eq in Hl by exact Hlt; injection Hl as <-
    | rewrite list_lookup_insert_ne in Hl by congruence;
      exact (Hth0 t' th' Hl) ].
  all: simpl.
  all: try (exists p, done;
            repeat split; try assumption; try discriminate; fail).
  (* tryPop on the empty queue *)
  all: eexists p, (done ++ [_]); rewrite <- app_assoc; simpl.
  all: split; [exact Hp|]. all: split; [exact Hsplit|].
  all: rewrite forallb_app, Hdone, length_app, Hnf; simpl.
  all: repeat split; try assumption; try discriminate; lia.
Qed.

Lemma starved_exec progs tr s :
  Forall (fun p => forallb is_pop p = true) progs ->
  exec (init progs) tr s -> starved progs s.
Proof.
  intros Hpop Hex. induction Hex as [|tr s1 t s2 e _ IH Hstep].
  - apply starved_init.
  - exact (starved_step progs t s1 s2 e Hpop IH Hstep).
Qed.

End QueueExtras.

Section QueueExtraProperties.
Import ThreadSafeQueue.

(** X10. Mutual exclusion on [mMutex]: under every interleaving of
    threads calling [push], [tryPop] and [waitAndPop], at most one thread
    is inside a critical section; a held mutex is held by a thread that is
    inside one, and that thread can always take its next step, so no
    thread sleeps or returns with the mutex; when the mutex is free no
    thread is inside a critical section. *)
Theorem critical_sections_exclude (T : Type)
    (progs : list (list (call T)))
    (tr : list (event T)) (s : system T) :
  exec (init progs) tr s ->
  (forall t1 t2 th1 th2,
     threads s !! t1 = Some th1 -> threads s !! t2 = Some th2 ->
     holds (at_pc th1) = true -> holds (at_pc th2) = true -> t1 = t2)
  /\ (forall t, mMutex s = Some t ->
        exists th, threads s !! t = Some th /\ holds (at_pc th) = true
                   /\ step_thread t s <> None)
  /\ (mMutex s = None ->
      forall t th, threads s !! t = Some th -> holds (at_pc th) = false).
Proof.
  intros Hex.
  pose proof (exec_lock_ok _ _ _ (init_lock_ok progs) Hex) as Hok.
  pose proof (exec_owner_ok _ _ _ (init_lock_ok progs) (init_owner_ok progs)
                Hex) as Hown.
  split; [|split].
  - intros t1 t2 th1 th2 Hl1 Hl2 Hh1 Hh2.
    destruct (Hok t1 th1 Hl1) as (Hm1 & _).
    destruct (Hok t2 th2 Hl2) as (Hm2 & _).
    specialize (Hm1 Hh1). specialize (Hm2 Hh2). congruence.
  - intros t Hm. destruct (proj1 Hown t Hm) as (th & Hl & Hh).
    exists th. split; [exact Hl|]. split; [exact Hh|].
    exact (holder_can_step t s th Hok Hown Hl Hh).
  - intros Hm t th Hl. apply (others_outside s t th Hok); [|exact Hl].
    rewrite Hm. discriminate.
Qed.

Lemma critical_sections_exclude_witness :
  exists th,
    threads after_first_steps.1 !! 1%nat = Some th
    /\ holds (at_pc th) = true
    /\ step_thread 1 after_first_steps.1 <> None.
Proof.
  destruct (critical_sections_exclude nat [producer 1000; consumer 1000]
              after_first_steps.2 after_first_steps.1) as (_ & H & _).
  - apply (run_schedule_exec [0; 0; 0; 1; 1; 1; 1]%nat).
    vm_compute. reflexivity.
  - apply (H 1%nat). vm_compute. reflexivity.
Defined.

(** X11. Without a producer the consumers get nothing: when no thread
    ever calls [push], under every interleaving the queue stays empty, no
    thread receives a value, every call completed so far is a [tryPop]
    that returned [false], and a thread whose first call is [waitAndPop]
    never gets past it. *)
Theorem pops_without_push_get_nothing (T : Type)
    (progs : list (list (call T)))
    (tr : list (event T)) (s : system T) (t : nat) (th : thread T) :
  Forall (fun p => forallb is_pop p = true) progs ->
  exec (init progs) tr s ->
  threads s !! t = Some th ->
  mQueue s = [] /\ received th = []
  /\ (exists p done,
        progs !! t = Some p /\ p = done ++ calls th
        /\ forallb is_tryPop done = true /\ notFound th = length done)
  /\ (forall v rest, progs !! t = Some (CallWaitAndPop v :: rest) ->
        calls th = CallWaitAndPop v :: rest).
Proof.
  intros Hpop Hex Hl.
  destruct (starved_exec progs tr s Hpop Hex) as [Hq Hth].
  destruct (Hth t th Hl) as (p & done & Hp & Hsplit & Hdone & Hnf & Hrc & _).
  split; [exact Hq|]. split; [exact Hrc|]. split.
  - exists p, done. auto.
  - intros v rest Hp'. rewrite Hp in Hp'. injection Hp' as ->.
    destruct done as [|c done]; [symmetry; exact Hsplit|].
    simpl in Hsplit, Hdone. injection Hsplit as <- _. discriminate Hdone.
Qed.

Lemma pops_without_push_get_nothing_witness :
  mQueue after_consumers_only.1 = []
  /\ (calls <$> threads after_consumers_only.1 !! 0%nat)
     = Some [CallWaitAndPop 0; CallTryPop 0].
Proof.
  assert (Hl : exists th, threads after_consumers_only.1 !! 0%nat = Some th)
    by (eexists; vm_compute; reflexivity).
  destruct Hl as (th & Hl).
  destruct (pops_without_push_get_nothing Z consumers_only
              after_consumers_only.2 after_consumers_only.1 0%nat th)
    as (Hq & _ & _ & Hw).
  - repeat constructor.
  - apply (run_schedule_exec [1; 1; 1; 0; 0; 0; 0]%nat).
    vm_compute. reflexivity.
  - exact Hl.
  - split; [exact Hq|]. rewrite Hl. simpl. f_equal.
    apply (Hw 0 [CallTryPop 0]). reflexivity.
Defined.

(** X12. [empty()] tells what a pop would do: it returns [true] exactly
    when [tryPop] would return [false] and change nothing, and exactly
    when [waitAndPop] would have to wait; when it returns [false] both
    pops remove the same front value and leave the same queue, and a
    value pushed before the pop does not change what is popped; after a
    [push] the queue is never empty, and on a fresh queue the value pushed
    is the value popped. *)
Theorem empty_tells_the_pops (T : Type) (q : list T) (value x : T) :
  (empty q = true <-> tryPop q value = (q, value, false))
  /\ (empty q = true <-> waitAndPop q value = Suspended)
  /\ (empty q = false ->
      exists front rest,
        q = front :: rest
        /\ tryPop q value = (rest, front, true)
        /\ waitAndPop q value = Returned rest front
        /\ tryPop (push q x) value = (push rest x, front, true))
  /\ empty (push q x) = false
  /\ tryPop (push new x) value = (new, x, true).
Proof.
  destruct q as [|front rest]; simpl.
  - repeat split; try reflexivity; discriminate.
  - split; [split; discriminate|]. split; [split; discriminate|].
    split; [|split; reflexivity]. intros _. exists front, rest. auto.
Qed.

End QueueExtraProperties.

(** ** The concurrency test of the queue *)

Section PushPopFacts.
Import PushPopTest.

Lemma push_pop_run_app n a : forall b s,
  run n (a ++ b) s = match run n a s with
                     | Some s' => run n b s'
                     | None => None
                     end.
Proof.
  induction a as [|t a IH]; intros b s; simpl; [reflexivity|].
  destruct (step n t s); [apply IH | reflexivity].
Qed.

Lemma push_pop_init_inv n val0 : 0 <= n -> push_pop_inv n (init val0).
Proof.
  intros Hn. unfold push_pop_inv, init. simpl.
  split; [lia|]. split; [reflexivity|]. repeat split; discriminate.
Qed.

Lemma push_pop_step_inv n t s s' :
  push_pop_inv n s -> step n t s = Some s' -> push_pop_inv n s'.
Proof.
  intros (Hi & Hdata & Hfin & Hem & Hleft) Hstep.
  destruct t; simpl in Hstep.
  - unfold producer_step in Hstep.
    destruct (producerFinished s) eqn:Hpf; [discriminate|].
    destruct (Z.ltb_spec (i s) n) as [Hlt|Hge]; injection Hstep as <-;
      unfold push_pop_inv; simpl.
    + split; [lia|]. split; [|split; [discriminate | split; assumption]].
      unfold ThreadSafeQueue.push. rewrite app_assoc, Hdata.
      rewrite seqZ_app by lia. reflexivity.
    + split; [lia|]. split; [exact Hdata|]. split; [intros _; lia|].
      split; [reflexivity | exact Hleft].
  - unfold consumer_step in Hstep. destruct (at_consumer s) eqn:Hpc.
    + destruct (queue s) as [|front rest] eqn:Hq; simpl in Hstep;
        [discriminate|]. injection Hstep as <-. unfold push_pop_inv. simpl.
      split; [exact Hi|]. split; [rewrite <- app_assoc; exact Hdata|].
      split; [exact Hfin|]. split; discriminate.
    + injection Hstep as <-. unfold push_pop_inv. simpl.
      split; [exact Hi|]. split; [exact Hdata|]. split; [exact Hfin|].
      destruct (producerFinished s); split; try discriminate; reflexivity.
    + injection Hstep as <-. unfold push_pop_inv. simpl.
      split; [exact Hi|]. split; [exact Hdata|]. split; [exact Hfin|].
      destruct (queue s) as [|front rest] eqn:Hq; simpl;
        split; try discriminate.
      intros _. rewrite <- (Hfin (Hem eq_refl)), <- Hdata.
      rewrite app_nil_r. reflexivity.
    + discriminate.
Qed.

Lemma push_pop_run_inv n sched : forall s s',
  push_pop_inv n s -> run n sched s = Some s' -> push_pop_inv n s'.
Proof.
  induction sched as [|t sched IH]; intros s s' Hinv Hrun; simpl in Hrun.
  - injection Hrun as <-. exact Hinv.
  - destruct (step n t s) as [s1|] eqn:Hstep; [|discriminate].
    apply (IH s1 s'); [|exact Hrun].
    exact (push_pop_step_inv n t s s1 Hinv Hstep).
Qed.

(** With the consumer on the producer's heels, after [m] rounds the
    consumer has [0 .. m-1] and the queue is empty. *)
Lemma eager_rounds n val0 (m : nat) :
  Z.of_nat m <= n ->
  exists v,
    run n (concat (replicate m [Producer; Consumer; Consumer])) (init val0)
    = Some {| queue := []; i := Z.of_nat m; producerFinished := false;
              val := v; receivedData := seqZ 0 (Z.of_nat m);
              at_consumer := AtWaitAndPop |}.
Proof.
  induction m as [|m IH]; intros Hm.
  - exists val0. reflexivity.
  - destruct IH as [v IH]; [lia|].
    exists (Z.of_nat m).
    rewrite replicate_S_end, concat_app, push_pop_run_app, IH. simpl.
    unfold producer_step. simpl.
    destruct (Z.ltb_spec (Z.of_nat m) n) as [_|Hge]; [|lia]. simpl.
    do 2 f_equal; [lia|].
    replace (Z.of_nat (S m)) with (Z.of_nat m + 1) by lia.
    rewrite seqZ_app by lia. reflexivity.
Qed.

(** The producer alone: after [m] turns it has pushed [0 .. m-1]. *)
Lemma producer_turns n val0 (m : nat) :
  Z.of_nat m <= n ->
  run n (replicate m Producer) (init val0)
  = Some {| queue := seqZ 0 (Z.of_nat m); i := Z.of_nat m;
            producerFinished := false; val := val0; receivedData := [];
            at_consumer := AtWaitAndPop |}.
Proof.
  induction m as [|m IH]; intros Hm.
  - reflexivity.
  - rewrite replicate_S_end, push_pop_run_app, IH by lia. simpl.
    unfold producer_step. simpl.
    destruct (Z.ltb_spec (Z.of_nat m) n) as [_|Hge]; [|lia].
    unfold ThreadSafeQueue.push.
    replace (Z.of_nat (S m)) with (Z.of_nat m + 1) by lia.
    rewrite seqZ_app by lia. reflexivity.
Qed.

(** One pass of the consumer through its loop, once the producer has
    finished. *)
Lemma consumer_round n front rest k v recv :
  run n [Consumer; Consumer; Consumer]
    {| queue := front :: rest; i := k; producerFinished := true; val := v;
       receivedData := recv; at_consumer := AtWaitAndPop |}
  = Some {| queue := rest; i := k; producerFinished := true; val := front;
            receivedData := recv ++ [front];
            at_consumer := if ThreadSafeQueue.empty rest then Left
                           else AtWaitAndPop |}.
Proof. reflexivity. Qed.

(** The consumer alone, once the producer has finished: after [m] rounds,
    fewer than there are values, it has [0 .. m-1]. *)
Lemma consumer_rounds (n : nat) val0 (m : nat) :
  (m < n)%nat ->
  exists v,
    run (Z.of_nat n)
      (concat (replicate m [Consumer; Consumer; Consumer]))
      {| queue := seqZ 0 (Z.of_nat n); i := Z.of_nat n;
         producerFinished := true; val := val0; receivedData := [];
         at_consumer := AtWaitAndPop |}
    = Some {| queue := seqZ (Z.of_nat m) (Z.of_nat n - Z.of_nat m);
              i := Z.of_nat n; producerFinished := true; val := v;
              receivedData := seqZ 0 (Z.of_nat m);
              at_consumer := AtWaitAndPop |}.
Proof.
  induction m as [|m IH]; intros Hm.
  - exists val0. simpl. rewrite Z.sub_0_r. reflexivity.
  - destruct IH as [v IH]; [lia|]. exists (Z.of_nat m).
    rewrite replicate_S_end, concat_app, push_pop_run_app, IH.
    rewrite (seqZ_cons (Z.of_nat m)) by lia.
    replace (Z.succ (Z.of_nat m)) with (Z.of_nat (S m)) by lia.
    replace (Z.pred (Z.of_nat n - Z.of_nat m))
      with (Z.of_nat n - Z.of_nat (S m)) by lia.
    change (concat [[Consumer; Consumer; Consumer]])
      with [Consumer; Consumer; Consumer].
    rewrite consumer_round. do 2 f_equal.
    + replace (Z.of_nat (S m)) with (Z.of_nat m + 1) by lia.
      rewrite seqZ_app by lia. reflexivity.
    + rewrite (seqZ_cons (Z.of_nat (S m))) by lia. reflexivity.
Qed.

(** X13. The producer-consumer test of test_ThreadSafeQueue.cpp, for
    every number of items, under every interleaving: the values received
    followed by the values queued are always [0 .. i-1] in order, and the
    consumer leaves its loop only with all of [0 .. ITEM_COUNT-1], which is
    what the test then checks. But the consumer does not always leave:
    when it pops the last value and loads [producerFinished] before the
    producer stores [true], it calls [waitAndPop] once more on a queue
    that stays empty, and then neither thread can move although every
    value has been received. When the producer finishes before the
    consumer starts, and there is at least one item, the consumer does
    leave. *)
Theorem push_pop_test_can_hang (n : nat) (val0 : Z)
    (sched : list thread_id) (s : state) :
  Z.of_nat n <= int_max ->
  run (Z.of_nat n) sched (init val0) = Some s ->
  (receivedData s ++ queue s = seqZ 0 (i s)
   /\ i s <= Z.of_nat n
   /\ (at_consumer s = Left -> receivedData s = seqZ 0 (Z.of_nat n)))
  /\ (exists h,
        run (Z.of_nat n) (eager_consumer n) (init val0) = Some h
        /\ producerFinished h = true
        /\ at_consumer h = AtWaitAndPop
        /\ receivedData h = seqZ 0 (Z.of_nat n)
        /\ forall t, step (Z.of_nat n) t h = None)
  /\ ((0 < n)%nat ->
      exists f,
        run (Z.of_nat n) (late_consumer n) (init val0) = Some f
        /\ at_consumer f = Left).
Proof.
  intros Hmax Hrun. split; [|split].
  - destruct (push_pop_run_inv (Z.of_nat n) sched (init val0) s
                (push_pop_init_inv _ val0 (Zle_0_nat n)) Hrun)
      as (Hi & Hdata & _ & _ & Hleft).
    split; [exact Hdata|]. split; [lia | exact Hleft].
  - destruct (eager_rounds (Z.of_nat n) val0 n (Z.le_refl _)) as [v Hr].
    eexists. unfold eager_consumer. rewrite push_pop_run_app, Hr. simpl.
    unfold producer_step. simpl. rewrite Z.ltb_irrefl.
    split; [reflexivity|]. simpl. split; [reflexivity|].
    split; [reflexivity|]. split; [reflexivity|].
    intros [|]; reflexivity.
  - intros Hpos. destruct n as [|m]; [lia|].
    destruct (consumer_rounds (S m) val0 m (Nat.lt_succ_diag_r m))
      as [v Hr].
    unfold late_consumer.
    rewrite replicate_S_end, !push_pop_run_app.
    rewrite (producer_turns (Z.of_nat (S m)) val0 (S m) (Z.le_refl _)).
    cbn [run step]. unfold producer_step. cbn [i producerFinished].
    rewrite Z.ltb_irrefl. cbv iota.
    cbn [queue val receivedData at_consumer].
    rewrite replicate_S_end, concat_app, push_pop_run_app, Hr.
    replace (Z.of_nat (S m) - Z.of_nat m) with 1 by lia.
    change (concat [[Consumer; Consumer; Consumer]])
      with [Consumer; Consumer; Consumer].
    change (seqZ (Z.of_nat m) 1) with [Z.of_nat m].
    rewrite consumer_round. eexists. split; reflexivity.
Qed.

Lemma push_pop_test_can_hang_witness :
  exists s,
    run (Z.of_nat 3) [Producer; Producer; Consumer] (init 7) = Some s
    /\ receivedData s ++ queue s = seqZ 0 (i s).
Proof.
  assert (Hr : exists s,
             run (Z.of_nat 3) [Producer; Producer; Consumer] (init 7)
             = Some s)
    by (eexists; vm_compute; reflexivity).
  destruct Hr as [s Hs]. exists s. split; [exact Hs|].
  destruct (push_pop_test_can_hang 3 7 [Producer; Producer; Consumer] s)
    as ((H & _) & _).
  - evaluate.
  - exact Hs.
  - exact H.
Defined.

End PushPopFacts.

(** ** The blocking test of the queue *)

Section BlockingFacts.
Import ThreadSafeQueue.
Context {T : Type}.
Implicit Types (s : system T) (th : thread T) (tr : list (event T)).

Lemma blocking_init (result0 hello : T) :
  blocking_inv result0 hello (init (blocking_test result0 hello)).
Proof.
  eexists _, _. split; [reflexivity|]. left. simpl. tauto.
Qed.

Lemma blocking_step (result0 hello : T) t s s' e :
  blocking_inv result0 hello s -> step_thread t s = Some (s', e) ->
  blocking_inv result0 hello s'.
Proof.
  intros (c & m & Hthr & Hst) Hstep.
  unfold step_thread, set_thread in Hstep. rewrite Hthr in Hstep.
  destruct t as [|[|t]]; simpl in Hstep; [| |discriminate].
  - (* the consumer moves *)
    destruct Hst as [(Hm & Hmpc & Hq & Hc & Hr & Hpc)
                    |[(Hm & Hmpc & Hq & Hc & Hr & Hpc)
                     |(Hm & Hmpc & Hq & Hc & Hr & Hpc)]];
      rewrite Hc, ?Hq in Hstep;
      repeat match type of Hpc with _ \/ _ => destruct Hpc as [Hpc|Hpc] end;
      rewrite Hpc in Hstep; simpl in Hstep;
      try (destruct (mMutex s); [discriminate|]);
      try discriminate; injection Hstep as <- <-;
      eexists _, m; (split; [reflexivity|]); simpl; rewrite ?Hr;
      first [ left; tauto | right; left; tauto | right; right; tauto ].
  - (* the main thread moves *)
    destruct Hst as [(Hm & Hmpc & Hq & Hc & Hr & Hpc)
                    |[(Hm & Hmpc & Hq & Hc & Hr & Hpc)
                     |(Hm & Hmpc & Hq & Hc & Hr & Hpc)]];
      rewrite Hm, ?Hq in Hstep;
      destruct Hmpc as [Hmpc|Hmpc]; rewrite Hmpc in Hstep; simpl in Hstep;
      try (destruct (mMutex s); [discriminate|]);
      try discriminate; injection Hstep as <- <-;
      eexists c, _; (split; [reflexivity|]); simpl;
      first [ left; tauto | right; left; tauto | right; right; tauto ].
Qed.

Lemma blocking_exec (result0 hello : T) tr s :
  exec (init (blocking_test result0 hello)) tr s ->
  blocking_inv result0 hello s.
Proof.
  intros Hex. induction Hex as [|tr s1 t s2 e _ IH Hstep].
  - apply blocking_init.
  - exact (blocking_step result0 hello t s1 s2 e IH Hstep).
Qed.

Lemma no_pops_by t tr : pops tr = [] -> pops_by t tr = [].
Proof.
  induction tr as [|[t' v|t' v|] tr IH]; simpl; intros H;
    try (apply IH; exact H); [reflexivity | discriminate].
Qed.

End BlockingFacts.

Section BlockingProperties.
Import ThreadSafeQueue.

(** X14. The test BlockingBehavior, for any two values, under every
    interleaving of a thread calling [waitAndPop(result)] and a thread
    calling [push(hello)]: the consumer receives nothing or [hello]; as
    long as nothing has been pushed its [waitAndPop] has not returned;
    when it has returned, the consumer holds exactly [hello] and the queue
    is empty again. In the order the test aims at, the consumer first goes
    to sleep inside [waitAndPop] with the mutex released, the main thread
    pushes, and the consumer wakes up and returns with [hello]. *)
Theorem blocked_pop_gets_the_push (T : Type) (result0 hello : T)
    (tr : list (event T)) (s : system T) (c : thread T) :
  exec (init (blocking_test result0 hello)) tr s ->
  threads s !! 0%nat = Some c ->
  (received c = [] \/ received c = [hello])
  /\ (calls c = [] -> received c = [hello] /\ mQueue s = [])
  /\ (pushes tr = [] -> calls c = [CallWaitAndPop result0]
                        /\ received c = [])
  /\ (exists s1 tr1 c1 sf trf cf,
        run_schedule consumer_sleeps (init (blocking_test result0 hello))
        = Some (s1, tr1)
        /\ threads s1 !! 0%nat = Some c1 /\ at_pc c1 = Asleep
        /\ mMutex s1 = None
        /\ run_schedule (main_pushes ++ consumer_wakes) s1 = Some (sf, trf)
        /\ threads sf !! 0%nat = Some cf
        /\ calls cf = [] /\ received cf = [hello]).
Proof.
  intros Hex Hl.
  destruct (blocking_exec result0 hello tr s Hex) as (c' & m & Hthr & Hst).
  rewrite Hthr in Hl. injection Hl as ->.
  pose proof (exec_conserves _ _ _ (init_lock_ok _) Hex) as Hcons.
  simpl in Hcons.
  destruct (exec_received _ _ _ 0%nat c Hex) as (c0 & Hc0 & Hrc);
    [rewrite Hthr; reflexivity|].
  injection Hc0 as <-. simpl in Hrc.
  split; [|split; [|split]].
  - destruct Hst as [H|[H|H]]; tauto.
  - intros Hcs. destruct Hst as [H|[H|H]]; try tauto;
      destruct H as (_ & _ & _ & Hc & _); congruence.
  - intros Hp. rewrite Hp in Hcons. symmetry in Hcons.
    apply app_eq_nil in Hcons as [Hpops Hq].
    rewrite (no_pops_by 0%nat tr Hpops) in Hrc.
    destruct Hst as [H|[H|H]]; try tauto;
      destruct H as (_ & _ & Hq' & _ & Hr' & _); congruence.
  - do 6 eexists. repeat split; reflexivity.
Qed.

Lemma blocked_pop_gets_the_push_witness :
  (received <$> threads
     (default (init [], [])
        (run_schedule [0; 0; 1]%nat (init (blocking_test 0 5)))).1
     !! 0%nat) = Some [].
Proof.
  assert (Hr : exists s tr c,
             run_schedule [0; 0; 1]%nat (init (blocking_test 0 5))
             = Some (s, tr)
             /\ threads s !! 0%nat = Some c /\ pushes tr = [])
    by (do 3 eexists; repeat split; vm_compute; reflexivity).
  destruct Hr as (s & tr & c & Hrun & Hl & Hp).
  rewrite Hrun. simpl. rewrite Hl. simpl. f_equal.
  destruct (blocked_pop_gets_the_push Z 0 5 tr s c) as (_ & _ & Hblk & _).
  - apply (run_schedule_exec [0; 0; 1]%nat). exact Hrun.
  - exact Hl.
  - apply Hblk. exact Hp.
Defined.

End BlockingProperties.

(** ** The logger *)

Section LoggerFacts.
Import Stdlib.Strings.String.
Import Logger.















End LoggerFacts.
